(** * Audio Metadata Auditer (ama.py): a shallow embedding and its properties

    The development follows the layout of [ama.py]:
    - the Python built-ins the program relies on (strings, paths, sorting,
      counters, binary64 and decimal arithmetic);
    - the uniform record built by [to_uniform_dict] and the tag parsers;
    - the directory walker ([scan_count_total_candidates],
      [scan_folder_for_audio_recursive]);
    - the grouper, the per-album diagnostics ([build_album_messages]);
    - the health score and the report renderer ([get_output]).

    Conventions.  A Python [str] is a [string], one [ascii] per character:
    the texts covered are those whose characters fit one byte, for which
    [String.length] is [len]; for a text with other characters, a folder
    name for instance, [String.length] of an encoding would count bytes
    where [len] counts characters.
    A Python [int] is a [Z].  A Python [float] is the rational it denotes
    (finite binary64 values only); every float operation rounds the exact
    result to nearest, ties to even ([rnd64]).  A [dict] whose insertion
    order is observable is an association list; the tag map, which is only
    ever looked up, is a [gmap].  [None] is [None]. *)

From Stdlib Require Import ZArith QArith Qround Qpower List String Ascii Lia Lqa
  Permutation Sorted DecimalString SpecFloat.
From stdpp Require Import gmap strings.
Import ListNotations.

Open Scope string_scope.
Open Scope Z_scope.

(** ** Strings *)

(** The line feed and the double quote, as one-character strings. *)
Definition NL : string := String (ascii_of_nat 10) EmptyString.
Definition QUOTE : string := String (ascii_of_nat 34) EmptyString.

(** [str(n)] for an [int]. *)
Definition str_Z (z : Z) : string := NilZero.string_of_int (Z.to_int z).

(** [sep.join(parts)]. *)
Definition join (sep : string) (parts : list string) : string :=
  String.concat sep parts.

(** [c * n] for a one-character string [c]. *)
Fixpoint repeat_char (c : ascii) (n : nat) : string :=
  match n with
  | O => EmptyString
  | S n' => String c (repeat_char c n')
  end.

(** Truth value of a [str]: the empty string is false. *)
Definition nonempty (s : string) : bool := negb (String.eqb s EmptyString).

(** Truth value of [d.get(k)] for a string-valued key: [None] and [EmptyString] are
    false. *)
Definition truthy (o : option string) : bool :=
  match o with
  | Some s => nonempty s
  | None => false
  end.

Definition rev_string (s : string) : string :=
  string_of_list_ascii (rev (list_ascii_of_string s)).

(** [s.split(c)] for a one-character separator. *)
Fixpoint split_on (c : ascii) (s : string) : list string :=
  match s with
  | EmptyString => [EmptyString]
  | String a s' =>
      if Ascii.eqb a c then EmptyString :: split_on c s'
      else match split_on c s' with
           | w :: ws => String a w :: ws
           | [] => [String a EmptyString]
           end
  end.

(** [s.split(c, 1)] when [c in s]: the text before the first [c] and the text
    after it; [None] when [c] does not occur in [s]. *)
Fixpoint split_once (c : ascii) (s : string) : option (string * string) :=
  match s with
  | EmptyString => None
  | String a s' =>
      if Ascii.eqb a c then Some (EmptyString, s')
      else match split_once c s' with
           | Some (l, r) => Some (String a l, r)
           | None => None
           end
  end.

(** [c in s]. *)
Fixpoint in_str (c : ascii) (s : string) : bool :=
  match s with
  | EmptyString => false
  | String a s' => Ascii.eqb a c || in_str c s'
  end.

(** [s.rfind(c)]: index of the last occurrence. *)
Fixpoint rfind (c : ascii) (s : string) : option nat :=
  match s with
  | EmptyString => None
  | String a s' =>
      match rfind c s' with
      | Some i => Some (S i)
      | None => if Ascii.eqb a c then Some O else None
      end
  end.

(** [s[i:]]. *)
Fixpoint drop_str (i : nat) (s : string) : string :=
  match i, s with
  | O, _ => s
  | S i', String _ s' => drop_str i' s'
  | S _, EmptyString => EmptyString
  end.

(** ** Paths (pathlib.PurePosixPath, os.path.join) *)

(** The components of a path: empty components and ["."] are dropped. *)
Definition path_parts (p : string) : list string :=
  List.filter (fun c => nonempty c && negb (String.eqb c "."))
              (split_on "/" p).

(** [Path(p).name]. *)
Definition path_name (p : string) : string := List.last (path_parts p) EmptyString.

(** [Path(p).suffix]: from the last dot of the name, unless that dot is the
    first or the last character of the name. *)
Definition path_suffix (p : string) : string :=
  let name := path_name p in
  match rfind "." name with
  | Some i =>
      if (0 <? i)%nat && (i <? String.length name - 1)%nat
      then drop_str i name else EmptyString
  | None => EmptyString
  end.

(** The root of a POSIX path: one leading slash is kept, and so are exactly
    two; three or more are one. *)
Definition path_root (p : string) : string :=
  if String.prefix "///" p then "/"
  else if String.prefix "//" p then "//"
  else if String.prefix "/" p then "/"
  else EmptyString.

(** [str(Path(p).parent)]. *)
Definition path_parent (p : string) : string :=
  let init := List.removelast (path_parts p) in
  match path_root p, init with
  | EmptyString, [] => "."
  | root, _ => root ++ join "/" init
  end.

(** [directory_entry.path] for an entry [name] of [os.scandir(dir)]. *)
Definition entry_path (dir name : string) : string :=
  if String.prefix "/" (rev_string dir) then dir ++ name
  else dir ++ "/" ++ name.

(** ** Sorting and sets *)

Section Sorting.
Context {A : Type}.
Variable le : A -> A -> bool.

(** Insertion in front of the first element that is not smaller: an element
    inserted from the right of the input stays before its equals, which is
    the stability of [list.sort] and [sorted]. *)
Fixpoint insert_sorted (x : A) (l : list A) : list A :=
  match l with
  | [] => [x]
  | y :: l' => if le x y then x :: l else y :: insert_sorted x l'
  end.

Definition py_sorted (l : list A) : list A := fold_right insert_sorted [] l.
End Sorting.

(** [sorted(l, key=key)] for string keys. *)
Definition sorted_by_key {A : Type} (key : A -> string) (l : list A) : list A :=
  py_sorted (fun x y => String.leb (key x) (key y)) l.

(** The distinct elements of a list, in first-seen order: [set(l)] when only
    its size or its sorted contents are used, and the keys of [Counter(l)]. *)
Fixpoint distinct {A : Type} (eqb : A -> A -> bool) (l : list A) : list A :=
  match l with
  | [] => []
  | x :: l' => x :: List.filter (fun y => negb (eqb x y)) (distinct eqb l')
  end.

(** [sorted(set(l))] for strings and for ints. *)
Definition sorted_set_str (l : list string) : list string :=
  py_sorted String.leb (distinct String.eqb l).

Definition sorted_set_Z (l : list Z) : list Z :=
  py_sorted Z.leb (distinct Z.eqb l).

(** [Counter(l)]: the distinct elements in first-seen order with their
    number of occurrences. *)
Definition counter (l : list string) : list (string * nat) :=
  map (fun x => (x, List.length (List.filter (String.eqb x) l)))
      (distinct String.eqb l).

(** [max(items, key=count)]: the first item with the largest count. *)
Fixpoint first_max (best : string * nat) (items : list (string * nat))
  : string * nat :=
  match items with
  | [] => best
  | it :: rest =>
      if (snd best <? snd it)%nat then first_max it rest
      else first_max best rest
  end.

(** [Counter(l).most_common(1)[0][0]] for a non-empty [l]. *)
Definition most_common (l : list string) : option string :=
  match counter l with
  | [] => None
  | it :: rest => Some (fst (first_max it rest))
  end.

(** ** Numbers: binary64 floats and [Decimal] *)

Open Scope Q_scope.

(** Rounding of a rational to the nearest integer, ties to the even one:
    [round(x)] for a float [x]. *)
Definition Qround_half_even (x : Q) : Z :=
  let f := Qfloor x in
  match Qcompare (x - inject_Z f) (1 # 2) with
  | Lt => f
  | Gt => (f + 1)%Z
  | Eq => if Z.even f then f else (f + 1)%Z
  end.

(** Rounding of a rational to the nearest integer, ties away from zero:
    [ROUND_HALF_UP] of the decimal module. *)
Definition Qround_half_up (x : Q) : Z :=
  match Qcompare x 0 with
  | Lt => (- Qfloor (- x + (1 # 2)))%Z
  | _ => Qfloor (x + (1 # 2))
  end.

(** [int(x)] for a float [x]: truncation towards zero. *)
Definition Qtrunc (x : Q) : Z :=
  match Qcompare x 0 with
  | Lt => (- Qfloor (- x))%Z
  | _ => Qfloor x
  end.

Definition pow2 (e : Z) : Q := Qpower 2 e.
Definition pow10 (e : Z) : Q := Qpower 10 e.

(** The binade of a positive rational: the [k] with [2^k <= x < 2^(k+1)]. *)
Definition binade (x : Q) : Z :=
  let k := (Z.log2 (Qnum x) - Z.log2 (Zpos (Qden x)))%Z in
  if Qle_bool (pow2 k) x then k else (k - 1)%Z.

(** Rounding of a positive rational to binary64: 53 significant bits, the
    exponent of the last place never below -1074 (subnormal numbers). *)
Definition ulp_exponent (x : Q) : Z := Z.max (binade x - 52) (-1074).

Definition round64_pos (x : Q) : Q :=
  let e := ulp_exponent x in
  inject_Z (Qround_half_even (x / pow2 e)) * pow2 e.

(** Round to nearest, ties to even, into binary64.  Results beyond the largest
    finite float are outside the model: no quantity of the program comes
    near it. *)
Definition rnd64 (x : Q) : Q :=
  match Qcompare x 0 with
  | Eq => 0
  | Gt => Qred (round64_pos x)
  | Lt => Qred (- round64_pos (- x))
  end.

Definition float_add (x y : Q) : Q := rnd64 (x + y).
Definition float_sub (x y : Q) : Q := rnd64 (x - y).
Definition float_mul (x y : Q) : Q := rnd64 (x * y).

(** [a / b] for two ints with [b <> 0]: the quotient correctly rounded. *)
Definition int_true_div (a b : Z) : Q := rnd64 (inject_Z a / inject_Z b).

(** The same computations in the binary64 format of the standard library
    ([SpecFloat], precision 53, maximal exponent 1024), to check [rnd64]
    against. *)
Definition Q_of_spec_float (f : spec_float) : Q :=
  match f with
  | S754_finite s m e =>
      Qred ((if s then -1 else 1) * inject_Z (Zpos m) * pow2 e)
  | _ => 0
  end.

Definition spec_float_of_Z (z : Z) : spec_float :=
  match z with
  | Zpos p => S754_finite false p 0
  | Zneg p => S754_finite true p 0
  | Z0 => S754_zero false
  end.

(** [100 * (1 - p / m)] in [SpecFloat]. *)
Definition spec_float_health (p m : Z) : spec_float :=
  SFmul 53 1024 (spec_float_of_Z 100)
    (SFsub 53 1024 (spec_float_of_Z 1)
       (SFdiv 53 1024 (spec_float_of_Z p) (spec_float_of_Z m))).

Definition agrees_with_spec_float (p m : Z) : bool :=
  Qeq_bool (Q_of_spec_float
              (SFdiv 53 1024 (spec_float_of_Z p) (spec_float_of_Z m)))
           (int_true_div p m)
  && Qeq_bool (Q_of_spec_float (spec_float_health p m))
              (float_mul 100 (float_sub 1 (int_true_div p m))).

(** Number of decimal digits of a positive integer. *)
Definition digits10 (n : Z) : Z := Z.of_nat (String.length (str_Z n)).

(** The decade of a positive rational: the [k] with [10^k <= x < 10^(k+1)]. *)
Definition decade (x : Q) : Z :=
  let k := (digits10 (Qnum x) - digits10 (Zpos (Qden x)))%Z in
  if Qle_bool (pow10 (k + 1)) x then (k + 1)%Z
  else if Qle_bool (pow10 k) x then k else (k - 1)%Z.

(** Rounding of a non-negative rational to 28 significant decimal digits,
    ties to even: the default [decimal] context. *)
Definition rnd_dec28 (x : Q) : Q :=
  match Qcompare x 0 with
  | Gt => let e := (decade x - 27)%Z in
          Qred (inject_Z (Qround_half_even (x / pow10 e)) * pow10 e)
  | _ => 0
  end.

Close Scope Q_scope.

(** ** ASCII instances of the character tables

    [str.lower], [str.isspace] and [int(str)] depend on the Unicode database
    of the interpreter: the model takes them as parameters.  The instances
    below are their restrictions to ASCII text; the examples run on them. *)

Definition ascii_lower_char (a : ascii) : ascii :=
  let n := nat_of_ascii a in
  if (65 <=? n)%nat && (n <=? 90)%nat then ascii_of_nat (n + 32) else a.

Fixpoint ascii_lower (s : string) : string :=
  match s with
  | EmptyString => EmptyString
  | String a s' => String (ascii_lower_char a) (ascii_lower s')
  end.

Definition ascii_isspace (a : ascii) : bool :=
  let n := nat_of_ascii a in
  ((9 <=? n)%nat && (n <=? 13)%nat) || ((28 <=? n)%nat && (n <=? 32)%nat).

Definition digit_value (a : ascii) : option Z :=
  let n := nat_of_ascii a in
  if (48 <=? n)%nat && (n <=? 57)%nat then Some (Z.of_nat (n - 48)) else None.

(** Decimal digits, with single underscores allowed between two digits.
    [seen] tells whether the previous character was a digit. *)
Fixpoint digits_value (acc : Z) (seen : bool) (s : string) : option Z :=
  match s with
  | EmptyString => if seen then Some acc else None
  | String a s' =>
      match digit_value a with
      | Some d => digits_value (10 * acc + d) true s'
      | None =>
          if Ascii.eqb a "_" && seen then digits_value acc false s' else None
      end
  end.

(** [int(s)] on an ASCII string without surrounding blanks: an optional sign
    and a non-empty digit string. *)
Definition ascii_int (s : string) : option Z :=
  match s with
  | String "-" s' => option_map Z.opp (digits_value 0 false s')
  | String "+" s' => digits_value 0 false s'
  | _ => digits_value 0 false s
  end.

(** [hashlib.sha1] is a parameter as well; the examples take the identity,
    which is injective as a digest is expected to be. *)
Definition toy_sha1 (data : string) : string := data.

(** * The program *)

(** The services of the interpreter the program is run by. *)
Class Python := {
  (** [str.lower]. *)
  lower : string -> string;
  (** [str.isspace] on one character: what [str.strip] and [str.split]
      remove. *)
  isspace : ascii -> bool;
  (** [int(s)] for a [str]; [None] when it raises [ValueError]. *)
  py_int : string -> option Z;
  (** [hashlib.sha1(data).hexdigest()]. *)
  sha1 : string -> string;
  (** The order in which a [set] built from the given strings is iterated.
      It depends on the string hashes of the running interpreter. *)
  set_iter : list string -> list string
}.

(** The interpreter of the examples: ASCII text, sets iterated in first-seen
    order. *)
Definition ascii_python : Python :=
  {| lower := ascii_lower;
     isspace := ascii_isspace;
     py_int := ascii_int;
     sha1 := toy_sha1;
     set_iter := distinct String.eqb |}.

(** A function that returns or raises.  The flag of [Raises] tells whether
    the exception is one of [HeaderNotFoundError], [ID3NoHeaderError],
    [ID3Error]. *)
Inductive outcome (A : Type) :=
| Returns (a : A)
| Raises (id3_or_header_error : bool).
Arguments Returns {A} a.
Arguments Raises {A} id3_or_header_error.

Section Ama.

Context {py : Python}.

(** ** More strings *)

Fixpoint lstrip (s : string) : string :=
  match s with
  | EmptyString => EmptyString
  | String a s' => if isspace a then lstrip s' else s
  end.

Definition rstrip (s : string) : string := rev_string (lstrip (rev_string s)).

(** [s.strip()]. *)
Definition strip (s : string) : string := rstrip (lstrip s).

(** [s.split()]: the maximal runs of non-space characters.  [cur] is the
    run being read, reversed. *)
Fixpoint split_ws_from (cur : list ascii) (s : string) : list string :=
  match s with
  | EmptyString =>
      match cur with
      | [] => []
      | _ => [string_of_list_ascii (rev cur)]
      end
  | String a s' =>
      if isspace a then
        match cur with
        | [] => split_ws_from [] s'
        | _ => string_of_list_ascii (rev cur) :: split_ws_from [] s'
        end
      else split_ws_from (a :: cur) s'
  end.

Definition split_ws (s : string) : list string := split_ws_from [] s.

(** ** [safe_int], [canonicalize_string] *)

Definition safe_int (value : string) : option Z := py_int (strip value).

Definition canonicalize_string (value : option string) : string :=
  match value with
  | None => EmptyString
  | Some v => join " " (split_ws (lower (strip v)))
  end.

(** ** The uniform record

    The dictionary returned by [to_uniform_dict] and by the error branches
    of the walker.  A field is [None] when its key is absent or bound to
    [None]: the program reads them with [dict.get].  ["file_name"] is in
    every dictionary the program builds.  [artwork_hashes] lists the
    elements of the set in the order of its iteration. *)

Record file_info := {
  path : option string;
  file_name : string;
  error : option string;
  container : option string;
  length_s : option Q;
  sample_rate : option Z;
  channels : option Z;
  bitrate : option Z;
  tags : gmap string (list string);
  title : option string;
  album : option string;
  artist : option string;
  track_number : option Z;
  track_total : option Z;
  id3_version : option string;
  artwork_hashes : list string;
  content_hash : option string;
  size_bytes : option Z
}.

(** ["error" in file_info]. *)
Definition has_error (fi : file_info) : bool :=
  match error fi with Some _ => true | None => false end.

(** ** [sha1_of_bytes], [first_tag_text], [parse_track_number] *)

Definition sha1_of_bytes (data : option string) : option string :=
  match data with
  | Some d => if nonempty d then Some (sha1 d) else None
  | None => None
  end.

Fixpoint first_tag_text (tags_map : gmap string (list string))
    (keys : list string) : string :=
  match keys with
  | [] => EmptyString
  | k :: keys' =>
      match tags_map !! k with
      | Some (v0 :: _) => v0
      | _ => first_tag_text tags_map keys'
      end
  end.

(** The raw value picked by [parse_track_number]: the first text of
    ["TRCK"] when that key holds a non-empty list, else the first text of
    ["TRACKNUMBER"] when that one does. *)
Definition track_raw_value (tags_map : gmap string (list string))
  : option string :=
  match tags_map !! "TRCK" with
  | Some (v0 :: _) => Some v0
  | _ =>
      match tags_map !! "TRACKNUMBER" with
      | Some (v0 :: _) => Some v0
      | _ => None
      end
  end.

Definition parse_track_number (tags_map : gmap string (list string))
  : option Z * option Z :=
  let raw_value := track_raw_value tags_map in
  if negb (truthy raw_value) then (None, None)
  else
    let raw_string := strip (default EmptyString raw_value) in
    if in_str "/" raw_string then
      match split_once "/" raw_string with
      | Some (left_part, right_part) =>
          (safe_int left_part, safe_int right_part)
      | None => (None, None)
      end
    else (safe_int raw_string, None).

(** ** The file system and the decoder, as the program sees them

    What [mutagen.File] exposes of one file: the class of the object it
    returns, its stream information and its tags.  [tag_view] follows the
    [isinstance] tests of [to_uniform_dict], in their order. *)

Record stream_info := {
  info_length : option Q;
  info_sample_rate : option Z;
  info_channels : option Z;
  info_bitrate : option Z
}.

Inductive tag_view :=
| ID3OfMP3 (frames : gmap string (list string))
           (apic : list (option string)) (version : option (list Z))
| OfWAVE (id3 : option (gmap string (list string) * option (list Z)))
| OfFLAC (comments : gmap string (list string))
         (pictures : list (option string))
| OfOggVorbis (comments : gmap string (list string))
              (block_pictures : list (option string))
| OfOther (keyed : option (gmap string (list string))).

(** The ways a decoding attempt ends.  The flag of a raising outcome tells
    whether the exception is one of [HeaderNotFoundError],
    [ID3NoHeaderError], [ID3Error]. *)
Inductive decoded :=
| RaisesOnLoad (id3_or_header_error : bool)
| NotRecognized
| Audio (class_name : string) (info : stream_info) (tv : tag_view)
| AudioRaisesOnRead (id3_or_header_error : bool).

(** One regular file: its size when [os.path.exists] holds, its bytes when
    they can be read, and what the decoder makes of it. *)
Record file := {
  f_size : option Z;
  f_bytes : option string;
  f_decoded : decoded
}.

(** One entry of [os.scandir]: a regular file; a directory that can be
    listed, with its entries; a directory that is gone when it is listed
    ([FileNotFoundError]); anything else.  The directories whose listing
    fails with another error are those of [node], further down. *)
#[warnings="-register-all"]
Inductive entry :=
| EFile (name : string) (f : file)
| EDir (name : string) (entries : list entry)
| EGone (name : string)
| EOther (name : string).

(** ** [to_uniform_dict] *)

Definition sha1_of_file (f : file) : option string :=
  option_map sha1 (f_bytes f).

Definition ID3_FRAMES : list string :=
  ["TIT2"; "TALB"; "TPE1"; "TPE2"; "TRCK"; "TPOS"; "TCON"; "TDRC"].

Definition VORBIS_KEYS : list string :=
  ["TITLE"; "ALBUM"; "ARTIST"; "ALBUMARTIST"; "TRACKNUMBER"; "TRACKTOTAL";
   "DATE"; "GENRE"].

(** [for k in keys: if k in source: tags_map[k] = source[k]]. *)
Definition pick_keys (keys : list string)
    (source : gmap string (list string)) : gmap string (list string) :=
  fold_left
    (fun tags_map k =>
       match source !! k with
       | Some v => <[k := v]> tags_map
       | None => tags_map
       end)
    keys ∅.

(** [str(t)] for a tuple of ints. *)
Definition str_tuple (t : list Z) : string :=
  match t with
  | [x] => "(" ++ str_Z x ++ ",)"
  | _ => "(" ++ join ", " (map str_Z t) ++ ")"
  end.

Definition id3_version_of (version : option (list Z)) : option string :=
  match version with
  | Some [a; b; c] => Some (join "." (map str_Z [a; b; c]))
  | Some t => Some (str_tuple t)
  | None => None
  end.

(** The artwork set of a record: the digests that are true, as a set. *)
Definition artwork_set (datas : list (option string)) : list string :=
  set_iter
    (omap (fun data =>
             match sha1_of_bytes data with
             | Some h => if nonempty h then Some h else None
             | None => None
             end)
          datas).

(** The tag map, the artwork digests and the ID3 version read from the
    decoded object. *)
Definition read_tags (tv : tag_view)
  : gmap string (list string) * list (option string) * option string :=
  match tv with
  | ID3OfMP3 frames apic version =>
      (pick_keys ID3_FRAMES frames, apic, id3_version_of version)
  | OfWAVE (Some (frames, version)) =>
      (pick_keys ID3_FRAMES frames, [], id3_version_of version)
  | OfWAVE None => (∅, [], None)
  | OfFLAC comments pictures => (pick_keys VORBIS_KEYS comments, pictures, None)
  | OfOggVorbis comments block_pictures =>
      (pick_keys VORBIS_KEYS comments, block_pictures, None)
  | OfOther (Some keyed) => (keyed, [], None)
  | OfOther None => (∅, [], None)
  end.

(** The dictionary of the three error branches. *)
Definition error_record (file_path : string) (f : file) (err : string)
  : file_info :=
  {| path := Some file_path;
     file_name := path_name file_path;
     error := Some err;
     container := None; length_s := None; sample_rate := None;
     channels := None; bitrate := None; tags := ∅;
     title := None; album := None; artist := None;
     track_number := None; track_total := None; id3_version := None;
     artwork_hashes := [];
     content_hash := sha1_of_file f;
     size_bytes := Some (default 0 (f_size f)) |}.

Definition to_uniform_dict (file_path : string) (f : file)
  : outcome file_info :=
  match f_decoded f with
  | RaisesOnLoad true => Returns (error_record file_path f "mp3_unreadable")
  | RaisesOnLoad false => Returns (error_record file_path f "unreadable")
  | NotRecognized => Returns (error_record file_path f "unrecognized")
  | AudioRaisesOnRead b => Raises b
  | Audio class_name info tv =>
      let '(tags_map, datas, id3_version_string) := read_tags tv in
      let '(track_number, track_total) := parse_track_number tags_map in
      Returns
        {| path := Some file_path;
           file_name := path_name file_path;
           error := None;
           container := Some (lower class_name);
           length_s := info_length info;
           sample_rate := info_sample_rate info;
           channels := info_channels info;
           bitrate := info_bitrate info;
           tags := tags_map;
           title := Some (first_tag_text tags_map ["TIT2"; "TITLE"]);
           album := Some (first_tag_text tags_map ["TALB"; "ALBUM"]);
           artist := Some (first_tag_text tags_map ["TPE1"; "ARTIST"]);
           track_number := track_number;
           track_total := track_total;
           id3_version := id3_version_string;
           artwork_hashes := artwork_set datas;
           content_hash := sha1_of_file f;
           size_bytes := Some (default 0 (f_size f)) |}
  end.

(** ** The directory walker *)

Definition SUPPORTED_EXTENSIONS : list string :=
  [".mp3"; ".flac"; ".ogg"; ".oga"; ".opus"; ".wav"; ".m4a"; ".aac"].

Definition should_consider (name_or_path : string) : bool :=
  existsb (String.eqb (lower (path_suffix name_or_path)))
          SUPPORTED_EXTENSIONS.

(** The body of the loop of [walk] in [scan_count_total_candidates], for
    one entry of the directory at depth [current_depth]. *)
Fixpoint count_entry (max_depth current_depth : Z) (e : entry) (total : Z)
  : Z :=
  match e with
  | EFile name _ => if should_consider name then total + 1 else total
  | EDir _ entries =>
      if current_depth <? max_depth then
        fold_left
          (fun total' e' => count_entry max_depth (current_depth + 1) e' total')
          entries total
      else total
  | EGone _ => total
  | EOther _ => total
  end.

(** [root_listing] is what [os.scandir(root)] yields, [None] when it raises
    [FileNotFoundError]. *)
Definition scan_count_total_candidates (root_listing : option (list entry))
    (max_depth : Z) : Z :=
  match root_listing with
  | Some entries =>
      fold_left (fun total e => count_entry max_depth 0 e total) entries 0
  | None => 0
  end.

(** The two lists [walk_dir] appends to. *)
Record scan_state := {
  results : list file_info;
  debug_lines : list string
}.

Definition push_result (fi : file_info) (st : scan_state) : scan_state :=
  {| results := (results st ++ [fi])%list; debug_lines := debug_lines st |}.

(** [if debug_enabled: debug_lines.append(line)]. *)
Definition log_debug (debug_enabled : bool) (line : string)
    (st : scan_state) : scan_state :=
  if debug_enabled then
    {| results := results st; debug_lines := (debug_lines st ++ [line])%list |}
  else st.

(** The dictionary appended by the [except] branches of [walk_dir]: it has
    neither size nor content hash. *)
Definition walker_error_record (entry_path_ : string) (err : string)
  : file_info :=
  {| path := Some entry_path_;
     file_name := path_name entry_path_;
     error := Some err;
     container := None; length_s := None; sample_rate := None;
     channels := None; bitrate := None; tags := ∅;
     title := None; album := None; artist := None;
     track_number := None; track_total := None; id3_version := None;
     artwork_hashes := [];
     content_hash := None;
     size_bytes := None |}.

Definition entering_line (dir : string) (depth : Z) : string :=
  "[debug] entering: " ++ dir ++ " (depth=" ++ str_Z depth ++ ")".

(** The body of the loop of [walk_dir], for one entry of [current_dir].
    Painting the progress bar only writes to the terminal: it is left
    out. *)
Fixpoint walk_entry (max_depth : Z) (debug_enabled : bool)
    (current_dir : string) (current_depth : Z) (e : entry)
    (st : scan_state) : scan_state :=
  match e with
  | EFile name f =>
      if should_consider name then
        let p := entry_path current_dir name in
        match to_uniform_dict p f with
        | Returns fi => push_result fi st
        | Raises true =>
            log_debug debug_enabled ("[debug] mp3_unreadable: " ++ p)
              (push_result (walker_error_record p "mp3_unreadable") st)
        | Raises false =>
            log_debug debug_enabled ("[debug] unreadable: " ++ p)
              (push_result (walker_error_record p "unreadable") st)
        end
      else st
  | EDir name entries =>
      let p := entry_path current_dir name in
      if current_depth <? max_depth then
        fold_left
          (fun st' e' =>
             walk_entry max_depth debug_enabled p (current_depth + 1) e' st')
          entries
          (log_debug debug_enabled (entering_line p (current_depth + 1)) st)
      else
        log_debug debug_enabled ("[debug] depth limit reached at: " ++ p) st
  | EGone name =>
      let p := entry_path current_dir name in
      if current_depth <? max_depth then
        log_debug debug_enabled ("[debug] not found: " ++ p)
          (log_debug debug_enabled (entering_line p (current_depth + 1)) st)
      else
        log_debug debug_enabled ("[debug] depth limit reached at: " ++ p) st
  | EOther _ => st
  end.

(** [walk_dir(root, 0)] from empty lists. *)
Definition walk_root (root : string) (root_listing : option (list entry))
    (max_depth : Z) (debug_enabled : bool) : scan_state :=
  let st0 :=
    log_debug debug_enabled (entering_line root 0)
              {| results := []; debug_lines := [] |} in
  match root_listing with
  | Some entries =>
      fold_left
        (fun st e => walk_entry max_depth debug_enabled root 0 e st)
        entries st0
  | None => log_debug debug_enabled ("[debug] not found: " ++ root) st0
  end.

(** The key of the final sort: [info.get("file_name", EmptyString).lower()]. *)
Definition sort_key (info : file_info) : string := lower (file_name info).

Definition scan_folder_for_audio_recursive (root : string)
    (root_listing : option (list entry)) (max_depth : Z)
    (debug_enabled : bool) : list file_info * list string :=
  let st := walk_root root root_listing max_depth debug_enabled in
  (sorted_by_key sort_key (results st), debug_lines st).

(** ** [group_by_album], [resolve_display_album], [resolve_display_artist] *)

(** [albums_by_key[key].append(fi)] on a [defaultdict(list)]: a new key
    goes last. *)
Fixpoint append_to (key : string) (fi : file_info)
    (albums_by_key : list (string * list file_info))
  : list (string * list file_info) :=
  match albums_by_key with
  | [] => [(key, [fi])]
  | (k, l) :: rest =>
      if String.eqb k key then (k, (l ++ [fi])%list) :: rest
      else (k, l) :: append_to key fi rest
  end.

(** [s or fallback]. *)
Definition or_else (s fallback : string) : string :=
  if nonempty s then s else fallback.

Definition group_key (has_any_path : bool) (fi : file_info) : string :=
  if has_error fi then "__errors__"
  else if has_any_path then
    or_else (canonicalize_string (Some (path_parent (default EmptyString (path fi)))))
            "unknown_dir"
  else
    or_else (canonicalize_string (Some (or_else (default EmptyString (album fi)) EmptyString)))
            "unknown".

Definition group_by_album (file_infos : list file_info)
  : list (string * list file_info) :=
  let has_any_path := existsb (fun fi => truthy (path fi)) file_infos in
  fold_left
    (fun albums_by_key fi => append_to (group_key has_any_path fi) fi albums_by_key)
    file_infos [].

(** The values of a string field that are true, in track order. *)
Definition true_values (field : file_info -> option string)
    (album_files : list file_info) : list string :=
  omap (fun fi => if truthy (field fi) then field fi else None) album_files.

Definition resolve_display_album (album_files : list file_info) : string :=
  default "Unknown Album" (most_common (true_values album album_files)).

Definition resolve_display_artist (album_files : list file_info) : string :=
  default "Unknown Artist" (most_common (true_values artist album_files)).

(** ** [build_album_messages] *)

Inductive level := CRIT | WARN | INFO.

(** [sum(fi.get("length_s") or 0 for fi in album_files)]: the additions are
    float additions, from the left.  This is [sum] up to CPython 3.11; from
    3.12 on [sum] adds floats with a compensated summation, which can
    differ in the last bit. *)
Definition sum_lengths (album_files : list file_info) : Q :=
  fold_left (fun acc fi => float_add acc (default 0%Q (length_s fi)))
            album_files 0%Q.

(** [sum(fi.get("size_bytes", 0) for fi in album_files)]. *)
Definition sum_sizes (album_files : list file_info) : Z :=
  fold_left (fun acc fi => acc + default 0 (size_bytes fi)) album_files 0.

(** The sentences. *)
Definition formats_sentence (exts : list string) : string :=
  "There are multiple file formats found in this album: "
    ++ join ", " exts ++ ".".

Definition duplicate_sentence (grp : list file_info) : string :=
  "Duplicate audio content detected, for example: "
    ++ match grp with fi :: _ => file_name fi | [] => EmptyString end
    ++ " (+" ++ str_Z (Z.of_nat (List.length grp) - 1)
    ++ " more in that group).".

Definition remaining_sentence (remaining_groups : Z) : string :=
  "There are " ++ str_Z remaining_groups
    ++ " more duplicate group(s) not shown.".

Definition album_name_sentence : string :=
  "Tracks in this album do not all share the same album name.".

Definition artist_sentence : string :=
  "Tracks in this album do not all share the same artist.".

Definition no_cover_sentence (tracks : list string) : string :=
  "The following tracks do not have an album cover: "
    ++ join ", " tracks ++ ".".

Definition cover_differs_sentence : string :=
  "Cover artwork differs across tracks in this album.".

Definition sample_rates_sentence (rates : list Z) : string :=
  "Tracks use multiple sample rates in this album: "
    ++ join ", " (map str_Z rates) ++ ".".

Definition channels_sentence (chans : list Z) : string :=
  "Tracks use multiple channel counts in this album: "
    ++ join ", " (map str_Z chans) ++ ".".

Definition id3_inconsistent_sentence (versions : list string) : string :=
  "ID3 versions are not consistent across tracks: "
    ++ join ", " versions ++ ".".

Definition id3_nonstandard_sentence (versions : list string) : string :=
  "Some tracks use non-standard ID3 versions: "
    ++ join ", " versions ++ ".".

Definition unreadable_sentence (crit_count : Z) : string :=
  str_Z crit_count ++ " MP3 file(s) appear unreadable or invalid.".

(** Rule 1: several file formats (INFO). *)
Definition extensions_in_album (album_files : list file_info) : list string :=
  sorted_set_str
    (map (fun fi => lower (path_suffix (file_name fi))) album_files).

Definition info_messages (album_files : list file_info) : list string :=
  let exts := extensions_in_album album_files in
  if (1 <? List.length exts)%nat then [formats_sentence exts] else [].

(** Rule 2: duplicate audio content (WARN).  [files_by_hash] keeps the
    hashes in first-seen order. *)
Definition files_by_hash (album_files : list file_info)
  : list (string * list file_info) :=
  fold_left
    (fun by_hash fi =>
       if truthy (content_hash fi)
       then append_to (default EmptyString (content_hash fi)) fi by_hash
       else by_hash)
    album_files [].

Definition all_groups (album_files : list file_info)
  : list (list file_info) :=
  map snd (files_by_hash album_files).

Definition duplicate_groups (album_files : list file_info)
  : list (list file_info) :=
  List.filter (fun g => (1 <? List.length g)%nat) (all_groups album_files).

(** The loop over [duplicate_groups], which breaks once three groups are
    shown; it returns [shown] and the sentences. *)
Fixpoint show_duplicates (shown : nat) (groups : list (list file_info))
  : nat * list string :=
  match groups with
  | [] => (shown, [])
  | grp :: rest =>
      if (3 <=? shown)%nat then (shown, [])
      else
        let '(shown', msgs) := show_duplicates (S shown) rest in
        (shown', duplicate_sentence grp :: msgs)
  end.

Definition duplicate_messages (album_files : list file_info) : list string :=
  match duplicate_groups album_files with
  | [] => []
  | groups =>
      let '(shown, msgs) := show_duplicates 0 groups in
      let remaining_groups :=
        Z.of_nat (List.length (all_groups album_files)) - Z.of_nat shown in
      if 0 <? remaining_groups
      then List.app msgs [remaining_sentence remaining_groups]
      else msgs
  end.

(** Rules 3 and 4: album name and artist consistency (WARN). *)
Definition variants (field : file_info -> option string)
    (album_files : list file_info) : nat :=
  List.length
    (List.filter nonempty
                 (map fst (counter (true_values field album_files)))).

Definition album_messages (album_files : list file_info) : list string :=
  if (1 <? variants album album_files)%nat then [album_name_sentence]
  else [].

Definition artist_messages (album_files : list file_info) : list string :=
  if (1 <? variants artist album_files)%nat then [artist_sentence] else [].

(** Rule 5: artwork presence and uniformity (WARN). *)
Definition first_hash (fi : file_info) : option string :=
  head (artwork_hashes fi).

Definition tracks_without_art (album_files : list file_info) : list string :=
  omap (fun fi =>
          match first_hash fi with
          | Some _ => None
          | None =>
              match track_number fi with
              | Some n => Some (str_Z n)
              | None => Some (file_name fi)
              end
          end)
       album_files.

Definition artwork_messages (album_files : list file_info) : list string :=
  let without := tracks_without_art album_files in
  let art_present_hashes := omap first_hash album_files in
  List.app
    (if (0 <? List.length without)%nat
        && (List.length without <? List.length album_files)%nat
     then [no_cover_sentence without] else [])
    (if (1 <? List.length (distinct String.eqb art_present_hashes))%nat
     then [cover_differs_sentence] else []).

(** Rule 6: sample rates and channel counts (WARN). *)
Definition sample_rates (album_files : list file_info) : list Z :=
  omap (fun fi =>
          match sample_rate fi with
          | Some r => if r =? 0 then None else Some r
          | None => None
          end)
       album_files.

Definition technical_messages (album_files : list file_info) : list string :=
  let rates := sample_rates album_files in
  let chans := omap channels album_files in
  List.app
    (if (1 <? List.length (distinct Z.eqb rates))%nat
     then [sample_rates_sentence (sorted_set_Z rates)] else [])
    (if (1 <? List.length (distinct Z.eqb chans))%nat
     then [channels_sentence (sorted_set_Z chans)] else []).

(** Rule 7: ID3 versions (WARN). *)
Definition standard_id3 (v : string) : bool :=
  String.eqb v "2.3.0" || String.eqb v "2.4.0".

Definition id3_messages (album_files : list file_info) : list string :=
  let id3_versions := true_values id3_version album_files in
  let invalid_versions :=
    List.filter (fun v => negb (standard_id3 v)) id3_versions in
  List.app
    (if (1 <? List.length (distinct String.eqb id3_versions))%nat
     then [id3_inconsistent_sentence (sorted_set_str id3_versions)] else [])
    (match invalid_versions with
     | [] => []
     | _ => [id3_nonstandard_sentence (sorted_set_str invalid_versions)]
     end).

Definition warn_messages (album_files : list file_info) : list string :=
  List.concat
    [duplicate_messages album_files;
     album_messages album_files;
     artist_messages album_files;
     artwork_messages album_files;
     technical_messages album_files;
     id3_messages album_files].

(** Rule 8: unreadable MP3s (CRIT). *)
Definition counts_as_unreadable_mp3 (fi : file_info) : bool :=
  match container fi with
  | Some c =>
      String.eqb c "mp3"
      && (match error fi with
          | Some e => String.eqb e "mp3_unreadable"
          | None => false
          end
          || match length_s fi with Some _ => false | None => true end)
  | None => false
  end.

Definition crit_count (album_files : list file_info) : Z :=
  Z.of_nat (List.length (List.filter counts_as_unreadable_mp3 album_files)).

Definition crit_messages (album_files : list file_info) : list string :=
  let n := crit_count album_files in
  if n =? 0 then [] else [unreadable_sentence n].

(** Selection of the level and pruning of the messages. *)
Definition build_album_messages (album_files : list file_info)
  : option level * list string * Q * Z :=
  let total_seconds := sum_lengths album_files in
  let total_size_bytes := sum_sizes album_files in
  let info_msgs := info_messages album_files in
  let warn_msgs := warn_messages album_files in
  let crit_msgs := crit_messages album_files in
  match crit_msgs, warn_msgs, info_msgs with
  | _ :: _, _, _ =>
      (Some CRIT, List.app warn_msgs crit_msgs, total_seconds,
       total_size_bytes)
  | [], _ :: _, _ => (Some WARN, warn_msgs, total_seconds, total_size_bytes)
  | [], [], _ :: _ => (Some INFO, info_msgs, total_seconds, total_size_bytes)
  | [], [], [] => (None, [], total_seconds, total_size_bytes)
  end.

(** ** [format_bytes], [format_duration_total], [_render_health_bar] *)

(** [str(d)] for a [Decimal] quantized to two places, given one hundred
    times its value. *)
Definition str_hundredths (c : Z) : string :=
  let a := Z.abs c in
  (if c <? 0 then "-" else EmptyString)
    ++ str_Z (a / 100) ++ "." ++ str_Z (a mod 100 / 10) ++ str_Z (a mod 10).

(** The loop of [format_bytes]: at most four divisions by 1024, each
    rounded by the decimal context. *)
Fixpoint scale_bytes (units : list string) (unit : string) (size_value : Q)
  : Q * string :=
  match units with
  | [] => (size_value, unit)
  | next :: units' =>
      if Qle_bool 1024 size_value
      then scale_bytes units' next (rnd_dec28 (size_value / 1024))
      else (size_value, unit)
  end.

(** [quantize] raises [InvalidOperation] when its result would have more
    than 28 digits, from [10 ^ 26] terabytes on; the function is the
    program's below that size. *)
Definition format_bytes (num_bytes : Z) : string :=
  let '(size_value, unit) :=
    scale_bytes ["KB"; "MB"; "GB"; "TB"] "B" (inject_Z num_bytes) in
  str_hundredths (Qround_half_up (size_value * 100)) ++ " " ++ unit.

Definition format_duration_total (total_seconds : Q) : string :=
  let seconds_int := Qround_half_up total_seconds in
  if seconds_int <? 60 then str_Z seconds_int ++ "s"
  else
    let minutes_int := seconds_int / 60 in
    let seconds_int := seconds_int mod 60 in
    if minutes_int <? 60
    then str_Z minutes_int ++ "m " ++ str_Z seconds_int ++ "s"
    else
      let hours_int := minutes_int / 60 in
      let minutes_int := minutes_int mod 60 in
      if hours_int <? 24
      then str_Z hours_int ++ "h " ++ str_Z minutes_int ++ "m "
             ++ str_Z seconds_int ++ "s"
      else
        let days_int := hours_int / 24 in
        let hours_int := hours_int mod 24 in
        if days_int <? 7
        then str_Z days_int ++ "d " ++ str_Z hours_int ++ "h "
               ++ str_Z minutes_int ++ "m"
        else
          let weeks_int := days_int / 7 in
          let days_int := days_int mod 7 in
          if weeks_int <? 4
          then str_Z weeks_int ++ "w " ++ str_Z days_int ++ "d "
                 ++ str_Z hours_int ++ "h"
          else
            let months_int := days_int / 30 in
            let days_int := days_int mod 30 in
            if months_int <? 12
            then str_Z months_int ++ "mo " ++ str_Z days_int ++ "d"
            else
              let years_int := months_int / 12 in
              let months_int := months_int mod 12 in
              str_Z years_int ++ "y " ++ str_Z months_int ++ "mo".

Definition _render_health_bar (health_percent : Z) : string :=
  let width := 40 in
  let health_percent := Z.max 0 (Z.min 100 health_percent) in
  let filled := Qtrunc (int_true_div (width * health_percent) 100) in
  let bar :=
    repeat_char "=" (Z.to_nat filled)
      ++ repeat_char "." (Z.to_nat (width - filled)) in
  "Health: [" ++ bar ++ "] " ++ str_Z health_percent ++ "%".

(** ** The health score *)

Definition health_percent (total_albums warn_albums crit_albums : Z) : Z :=
  if 0 <? total_albums then
    let penalty_units := warn_albums + 2 * crit_albums in
    let max_units := 2 * total_albums in
    Qround_half_even
      (float_mul 100 (float_sub 1 (int_true_div penalty_units max_units)))
  else 100.

(** ** [get_output] *)

Definition NO_MUSIC : string :=
  "Couldn't find any music files with current parameters." ++ NL.

(** [[fi for fi in file_infos if "error" not in fi]]. *)
Definition recognized (file_infos : list file_info) : list file_info :=
  List.filter (fun fi => negb (has_error fi)) file_infos.

(** The albums in the order of [ordered_album_keys], each with its files. *)
Definition ordered_albums (recognized_files : list file_info)
  : list (string * list file_info) :=
  sorted_by_key (fun kv => lower (resolve_display_album (snd kv)))
                (group_by_album recognized_files).

Definition level_of (album_files : list file_info) : option level :=
  fst (fst (fst (build_album_messages album_files))).

Definition messages_of (album_files : list file_info) : list string :=
  snd (fst (fst (build_album_messages album_files))).

(** [warn_albums] and [crit_albums] after the first pass. *)
Definition count_level (l : level) (albums : list (string * list file_info))
  : Z :=
  Z.of_nat
    (List.length
       (List.filter
          (fun kv =>
             match level_of (snd kv), l with
             | Some CRIT, CRIT | Some WARN, WARN | Some INFO, INFO => true
             | _, _ => false
             end)
          albums)).

Definition level_tag (l : level) : string :=
  match l with
  | CRIT => "[CRIT]"
  | WARN => "[WARN]"
  | INFO => "[INFO]"
  end.

(** The block of one album; [None] for an album without message. *)
Definition album_block (per_album : bool) (album_files : list file_info)
  : option string :=
  let display_album_name := resolve_display_album album_files in
  let display_artist_name := resolve_display_artist album_files in
  let '(lvl, messages, album_seconds, album_size_bytes) :=
    build_album_messages album_files in
  match lvl with
  | None => None
  | Some l =>
      let header_line :=
        if per_album then
          level_tag l ++ " " ++ display_album_name ++ " ("
            ++ display_artist_name ++ ") | Duration: "
            ++ format_duration_total album_seconds ++ ", Size "
            ++ format_bytes album_size_bytes
        else
          level_tag l ++ " " ++ display_album_name ++ " ("
            ++ display_artist_name ++ "):" in
      let block_lines :=
        header_line :: map (fun s => "    - " ++ s) messages in
      Some (join NL block_lines ++ NL)
  end.

Definition LEGEND : list string :=
  [EmptyString; "Legend";
   "  [CRIT] Serious problems that likely prevent proper playback or visibility.";
   "  [WARN] Inconsistencies that may cause confusion or uneven playback/organization.";
   "  [INFO] Helpful notes that are not problems (for example, multiple file formats)."].

Definition quick_line_of (recognized_files : list file_info)
    (total_albums : Z) : string :=
  let total_tracks := Z.of_nat (List.length recognized_files) in
  let total_size_bytes := sum_sizes recognized_files in
  let total_length_seconds := sum_lengths recognized_files in
  "Albums: " ++ str_Z total_albums ++ "  "
    ++ "Tracks: " ++ str_Z total_tracks ++ "  "
    ++ "Size: " ++ format_bytes total_size_bytes ++ "  "
    ++ "Duration: " ++ format_duration_total total_length_seconds.

(** [get_output] once the scan has returned [file_infos] and
    [debug_lines]. *)
Definition render_report (root : string) (file_infos : list file_info)
    (debug_lines : list string) (debug_enabled per_album no_quick_stats : bool)
  : string :=
  let header_title := NL ++ QUOTE ++ root ++ QUOTE ++ " Library Scan" in
  let recognized_files := recognized file_infos in
  match recognized_files with
  | [] => NO_MUSIC
  | _ =>
      let albums := ordered_albums recognized_files in
      let warn_albums := count_level WARN albums in
      let crit_albums := count_level CRIT albums in
      let total_albums := Z.of_nat (List.length albums) in
      let health_line :=
        _render_health_bar (health_percent total_albums warn_albums crit_albums) in
      let quick_line := quick_line_of recognized_files total_albums in
      let head_lines :=
        if negb no_quick_stats then
          let sep := repeat_char "=" (String.length quick_line) in
          [header_title; sep; health_line; quick_line; sep; NL]
        else
          let sep := repeat_char "=" (String.length health_line) in
          [header_title; sep; health_line; sep; NL] in
      let album_blocks := omap (fun kv => album_block per_album (snd kv)) albums in
      let debug_tail :=
        match debug_lines with
        | [] => []
        | _ => if debug_enabled then EmptyString :: "Debug" :: debug_lines else []
        end in
      match album_blocks with
      | [] =>
          join NL
            (List.app head_lines
               (List.app
                  (if no_quick_stats
                   then [repeat_char "=" (String.length header_title)] else [])
                  ("No warnings, critical issues, or informational notes were detected."
                     :: debug_tail)))
            ++ NL
      | _ =>
          join NL
            (List.app head_lines
               (List.app album_blocks (List.app LEGEND debug_tail)))
            ++ NL
      end
  end.

Definition get_output (root : string) (root_listing : option (list entry))
    (debug_enabled : bool) (max_depth : Z) (per_album no_quick_stats : bool)
  : string :=
  let '(file_infos, debug_lines) :=
    scan_folder_for_audio_recursive root root_listing max_depth debug_enabled in
  render_report root file_infos debug_lines debug_enabled per_album
                no_quick_stats.

(** ** Listings that fail

    [os.scandir] can fail with an error other than [FileNotFoundError], on
    a directory that may not be read for instance.  The pre-pass catches
    [FileNotFoundError] only: such an error escapes from it, and so from
    [scan_folder_for_audio_recursive] and from [get_output], before
    anything is scanned.  [walk_dir] would catch it in the loop of the
    parent directory and record the directory as unreadable.  A [node] is
    an [entry] with this further case; the functions above are the
    functions below on the trees without it. *)

#[warnings="-register-all"]
Inductive node :=
| NFile (name : string) (f : file)
| NDir (name : string) (entries : list node)
| NGone (name : string)
| NDenied (name : string)
| NOther (name : string).

(** What [os.scandir(root)] does: it yields entries, it raises
    [FileNotFoundError], or it raises another error. *)
Inductive listing :=
| Listed (entries : list node)
| Missing
| Denied.

(** The body of the loop of [walk] in [scan_count_total_candidates], for
    one entry, when [total] has been computed so far; an exception ends the
    loop. *)
Fixpoint count_node (max_depth current_depth : Z) (n : node)
    (total : outcome Z) {struct n} : outcome Z :=
  match total with
  | Raises b => Raises b
  | Returns t =>
      match n with
      | NFile name _ => Returns (if should_consider name then t + 1 else t)
      | NDir _ entries =>
          if current_depth <? max_depth then
            fold_left
              (fun total' n' =>
                 count_node max_depth (current_depth + 1) n' total')
              entries (Returns t)
          else Returns t
      | NGone _ => Returns t
      | NDenied _ =>
          if current_depth <? max_depth then Raises false else Returns t
      | NOther _ => Returns t
      end
  end.

Definition scan_count_total_candidates_or_raise (root_listing : listing)
    (max_depth : Z) : outcome Z :=
  match root_listing with
  | Listed entries =>
      fold_left (fun total n => count_node max_depth 0 n total) entries
                (Returns 0)
  | Missing => Returns 0
  | Denied => Raises false
  end.

(** The body of the loop of [walk_dir] for one entry.  For a directory
    that cannot be listed, [walk_dir] has logged that it enters it when
    [os.scandir] raises; the [except Exception] of the loop appends the
    record of the directory. *)
Fixpoint walk_node (max_depth : Z) (debug_enabled : bool)
    (current_dir : string) (current_depth : Z) (n : node)
    (st : scan_state) : scan_state :=
  match n with
  | NFile name f =>
      if should_consider name then
        let p := entry_path current_dir name in
        match to_uniform_dict p f with
        | Returns fi => push_result fi st
        | Raises true =>
            log_debug debug_enabled ("[debug] mp3_unreadable: " ++ p)
              (push_result (walker_error_record p "mp3_unreadable") st)
        | Raises false =>
            log_debug debug_enabled ("[debug] unreadable: " ++ p)
              (push_result (walker_error_record p "unreadable") st)
        end
      else st
  | NDir name entries =>
      let p := entry_path current_dir name in
      if current_depth <? max_depth then
        fold_left
          (fun st' n' =>
             walk_node max_depth debug_enabled p (current_depth + 1) n' st')
          entries
          (log_debug debug_enabled (entering_line p (current_depth + 1)) st)
      else
        log_debug debug_enabled ("[debug] depth limit reached at: " ++ p) st
  | NGone name =>
      let p := entry_path current_dir name in
      if current_depth <? max_depth then
        log_debug debug_enabled ("[debug] not found: " ++ p)
          (log_debug debug_enabled (entering_line p (current_depth + 1)) st)
      else
        log_debug debug_enabled ("[debug] depth limit reached at: " ++ p) st
  | NDenied name =>
      let p := entry_path current_dir name in
      if current_depth <? max_depth then
        log_debug debug_enabled ("[debug] unreadable: " ++ p)
          (push_result (walker_error_record p "unreadable")
             (log_debug debug_enabled (entering_line p (current_depth + 1))
                        st))
      else
        log_debug debug_enabled ("[debug] depth limit reached at: " ++ p) st
  | NOther _ => st
  end.

(** [scan_folder_for_audio_recursive]: the pre-pass, then the walk. *)
Definition scan_folder_for_audio_recursive_or_raise (root : string)
    (root_listing : listing) (max_depth : Z) (debug_enabled : bool)
  : outcome (list file_info * list string) :=
  match scan_count_total_candidates_or_raise root_listing max_depth with
  | Raises b => Raises b
  | Returns _ =>
      let st0 :=
        log_debug debug_enabled (entering_line root 0)
                  {| results := []; debug_lines := [] |} in
      match root_listing with
      | Listed entries =>
          let st :=
            fold_left
              (fun st n => walk_node max_depth debug_enabled root 0 n st)
              entries st0 in
          Returns (sorted_by_key sort_key (results st), debug_lines st)
      | Missing =>
          let st := log_debug debug_enabled ("[debug] not found: " ++ root) st0 in
          Returns (sorted_by_key sort_key (results st), debug_lines st)
      | Denied => Raises false
      end
  end.

Definition get_output_or_raise (root : string) (root_listing : listing)
    (debug_enabled : bool) (max_depth : Z) (per_album no_quick_stats : bool)
  : outcome string :=
  match
    scan_folder_for_audio_recursive_or_raise root root_listing max_depth
      debug_enabled
  with
  | Raises b => Raises b
  | Returns (file_infos, debug_lines) =>
      Returns (render_report root file_infos debug_lines debug_enabled
                             per_album no_quick_stats)
  end.

(** The tree of an [entry], where every listing succeeds or finds the
    directory missing. *)
Fixpoint node_of (e : entry) : node :=
  match e with
  | EFile name f => NFile name f
  | EDir name entries => NDir name (map node_of entries)
  | EGone name => NGone name
  | EOther name => NOther name
  end.

Definition listing_of (root_listing : option (list entry)) : listing :=
  match root_listing with
  | Some entries => Listed (map node_of entries)
  | None => Missing
  end.




(** ** Notions used to state the properties *)

(** The candidate files of one directory, with their paths. *)
Definition candidates (dir : string) (entries : list entry)
  : list (string * file) :=
  omap (fun e =>
          match e with
          | EFile name f =>
              if should_consider name then Some (entry_path dir name, f)
              else None
          | _ => None
          end)
       entries.

(** The directories nested exactly [k] levels below a directory, each with
    its path and its entries; the directory itself is at level 0. *)
Fixpoint dirs_at (k : nat) (dir : string) (entries : list entry)
  : list (string * list entry) :=
  match k with
  | O => [(dir, entries)]
  | S k' =>
      flat_map (fun e =>
                  match e with
                  | EDir name es => dirs_at k' (entry_path dir name) es
                  | _ => []
                  end)
               entries
  end.

(** The candidate files of the directories at level [k]. *)
Definition candidates_at (k : nat) (dir : string) (entries : list entry)
  : list (string * file) :=
  flat_map (fun d => candidates (fst d) (snd d)) (dirs_at k dir entries).

(** The candidate files of the directories at levels [0] to [k]. *)
Definition candidates_upto (k : nat) (dir : string) (entries : list entry)
  : list (string * file) :=
  flat_map (fun j => candidates_at j dir entries) (seq 0 (S k)).

(** The same files in the order of a depth-first walk that goes [k] levels
    down. *)
Fixpoint candidates_dfs (k : nat) (dir : string) (entries : list entry)
  : list (string * file) :=
  flat_map (fun e =>
              match e with
              | EFile name f =>
                  if should_consider name then [(entry_path dir name, f)]
                  else []
              | EDir name es =>
                  match k with
                  | O => []
                  | S k' => candidates_dfs k' (entry_path dir name) es
                  end
              | _ => []
              end)
           entries.

(** The record the walker appends for a candidate file. *)
Definition record_of (c : string * file) : file_info :=
  match to_uniform_dict (fst c) (snd c) with
  | Returns fi => fi
  | Raises true => walker_error_record (fst c) "mp3_unreadable"
  | Raises false => walker_error_record (fst c) "unreadable"
  end.

(** The tree in which every directory at level [k + 1] has been emptied. *)
Fixpoint emptied_below (k : nat) (entries : list entry) : list entry :=
  map (fun e =>
         match e with
         | EDir name es =>
             match k with
             | O => EDir name []
             | S k' => EDir name (emptied_below k' es)
             end
         | _ => e
         end)
      entries.

(** Two listings of the same tree: the entries of every directory are the
    same up to their order. *)
Inductive same_tree : list entry -> list entry -> Prop :=
| same_nil : same_tree [] []
| same_dir name es es' l l' :
    same_tree es es' -> same_tree l l' ->
    same_tree (EDir name es :: l) (EDir name es' :: l')
| same_skip e l l' : same_tree l l' -> same_tree (e :: l) (e :: l')
| same_swap e1 e2 l : same_tree (e1 :: e2 :: l) (e2 :: e1 :: l)
| same_trans l1 l2 l3 :
    same_tree l1 l2 -> same_tree l2 l3 -> same_tree l1 l3.

(** [s.startswith(p)]. *)
Fixpoint starts_with (p s : string) : bool :=
  match p, s with
  | EmptyString, _ => true
  | String a p', String b s' => Ascii.eqb a b && starts_with p' s'
  | String _ _, EmptyString => false
  end.

(** The first characters of the only INFO sentence. *)
Definition INFO_HEAD : string := "There are m".

(** A decoding attempt that ends in an error record. *)
Definition decode_fails (f : file) : bool :=
  match f_decoded f with
  | Audio _ _ _ => false
  | _ => true
  end.

(** The health formula in exact arithmetic. *)
Definition exact_health (total_albums warn_albums crit_albums : Z) : Q :=
  (100 * (1 - inject_Z (warn_albums + 2 * crit_albums)
              / inject_Z (2 * total_albums)))%Q.

(** The health score as a function of the exact ratio of the penalty units
to the maximal units. *)
Definition health_of_ratio (x : Q) : Z :=
Qround_half_even (float_mul 100 (float_sub 1 (rnd64 x))).

(** The ratios at which the exact health is half-way between two integers:
[100 * (1 - tie_ratio k) = 100 - k - 1/2]. *)
Definition tie_ratio (k : Z) : Q := inject_Z (2 * k + 1) * (1 # 200).

(** The largest album count for which the score is related to the exact
health below. *)
Definition MAX_ALBUMS : Z := 2 ^ 43.

(** No ratio [p / (2 n)] with [n <= MAX_ALBUMS] is closer than this to a tie
without being one. *)
Definition MARGIN : Q := 1 / (400 * inject_Z MAX_ALBUMS).

(** The ends of the range of ratios, ties apart and [MARGIN] inside, on which
the exact health rounds to [100 - k]. *)
Definition range_low (k : Z) : Q :=
if k =? 0 then 0%Q else (tie_ratio (k - 1) + MARGIN)%Q.

Definition range_high (k : Z) : Q :=
if k =? 100 then 1%Q else (tie_ratio k - MARGIN)%Q.

(** The score is [100 - k] at both ends of the range of [k]. *)
Definition range_checked (k : Z) : bool :=
(health_of_ratio (range_low k) =? 100 - k)
&& (health_of_ratio (range_high k) =? 100 - k).

(** The score at a tie is one of the two nearest integers. *)
Definition tie_checked (k : Z) : bool :=
(health_of_ratio (tie_ratio k) =? 100 - k)
|| (health_of_ratio (tie_ratio k) =? 99 - k).

End Ama.

(** * Example data *)

Definition example_info (len : Q) : stream_info :=
  {| info_length := Some len; info_sample_rate := Some 44100;
     info_channels := Some 2; info_bitrate := Some 320000 |}.

Definition example_frames (t al ar trk : string) : gmap string (list string) :=
  <["TIT2" := [t]]> (<["TALB" := [al]]> (<["TPE1" := [ar]]>
    (<["TRCK" := [trk]]> ∅))).

(** A well-formed MP3 file with ID3 2.4 tags. *)
Definition example_mp3 (bytes : string) (len : Q) (t al ar trk : string)
    (pics : list (option string)) : file :=
  {| f_size := Some (Z.of_nat (String.length bytes));
     f_bytes := Some bytes;
     f_decoded :=
       Audio "MP3" (example_info len)
             (ID3OfMP3 (example_frames t al ar trk) pics (Some [2; 4; 0])) |}.

(** A file the decoder rejects with [HeaderNotFoundError]. *)
Definition example_corrupt (bytes : string) : file :=
  {| f_size := Some (Z.of_nat (String.length bytes));
     f_bytes := Some bytes;
     f_decoded := RaisesOnLoad true |}.

(** A file that is not audio at all. *)
Definition example_text (bytes : string) : file :=
  {| f_size := Some (Z.of_nat (String.length bytes));
     f_bytes := Some bytes;
     f_decoded := NotRecognized |}.

Definition example_album_entries : list entry :=
  [ EFile "01.mp3" (example_mp3 "aaaa" 180.5 "One" "A" "X" "1/3" [Some "p"]);
    EFile "02.mp3" (example_mp3 "aaaa" 180.5 "Two" "A" "X" "2/3" [Some "p"]);
    EFile "03.MP3" (example_mp3 "cccc" 200 "Three" "A" "X" "3/3" [Some "p"]);
    EFile "notes.txt" (example_text "zz") ].

Definition example_library : list entry :=
  [ EDir "Album A" example_album_entries;
    EDir "B"
      [ EFile "x.flac" (example_corrupt "12345");
        EDir "deep" [ EFile "y.mp3" (example_mp3 "q" 1 "Y" "B" "X" "1" []) ] ];
    EFile "top.mp3" (example_mp3 "tttttt" 61 "T" "Top" "Z" "x/y" []) ].

(** The records of the three tracks of the album: the first two have the same
    bytes. *)
Definition example_album : list file_info :=
  map (record_of (py := ascii_python))
      (candidates (py := ascii_python) "/music/Album A" example_album_entries).

(** The record of a corrupt MP3 file. *)
Definition example_corrupt_record : file_info :=
  record_of (py := ascii_python) ("/music/B/x.mp3", example_corrupt "12345").

(** A directory with one sound file and one corrupt file. *)
Definition example_mixed : list entry :=
  [ EFile "a.mp3" (example_mp3 "aaaa" 181 "One" "A" "X" "1" [Some "p"]);
    EFile "b.mp3" (example_corrupt "12345") ].

(** A directory with two copies of one file, under names that differ by case
    only, listed in one order and in the other. *)
Definition example_case_a : list entry :=
  [ EFile "A.mp3" (example_mp3 "aaaa" 181 "One" "A" "X" "1" [Some "p"]);
    EFile "a.mp3" (example_mp3 "aaaa" 181 "One" "A" "X" "1" [Some "p"]) ].

Definition example_case_b : list entry :=
  [ EFile "a.mp3" (example_mp3 "aaaa" 181 "One" "A" "X" "1" [Some "p"]);
    EFile "A.mp3" (example_mp3 "aaaa" 181 "One" "A" "X" "1" [Some "p"]) ].

(** A tree without any audio file. *)
Definition example_documents : list entry :=
  [ EFile "readme.txt" (example_text "hello");
    EDir "img" [ EFile "cover.jpg" (example_text "jpeg") ];
    EOther "socket" ].

(** A tree in which no candidate file can be decoded. *)
Definition example_all_corrupt : list entry :=
  [ EFile "a.mp3" (example_corrupt "12345");
    EDir "x" [ EFile "b.flac" (example_text "zz") ] ].

(** [example_library] with the entries of its root listed in another
    order. *)
Definition example_library_reordered : list entry :=
  match example_library with
  | e1 :: e2 :: rest => e2 :: e1 :: rest
  | l => l
  end.

(** An interpreter that differs from [ascii_python] in the iteration order
    of sets only. *)
Definition ascii_python_reversed : Python :=
  {| lower := ascii_lower;
     isspace := ascii_isspace;
     py_int := ascii_int;
     sha1 := toy_sha1;
     set_iter := fun l => rev (distinct String.eqb l) |}.

(** An album of two tracks: the first embeds a front and a back cover, the
    second the front cover only. *)
Definition example_two_covers : list entry :=
  [ EFile "01.mp3"
      (example_mp3 "aaaa" 181 "One" "A" "X" "1" [Some "front"; Some "back"]);
    EFile "02.mp3" (example_mp3 "bbbb" 181 "Two" "A" "X" "2" [Some "front"]) ].


(** * The rest of the program: the progress bar and [main] *)

(** [str(Path(p))]: the root is kept; empty components and ["."] are
    dropped; the empty path is ["."]. *)
Definition path_str (p : string) : string :=
  match path_root p, path_parts p with
  | EmptyString, [] => "."
  | root, parts => root ++ join "/" parts
  end.

(** The carriage return, as a one-character string. *)
Definition CR : string := String (ascii_of_nat 13) EmptyString.

Definition progress_bar_width : Z := 40.

(** The bar of [update_progress]: [filled] cells of ["="], then dots. *)
Definition progress_bar (total_candidates processed_candidates : Z) : string :=
  let filled :=
    Qtrunc (int_true_div (progress_bar_width * processed_candidates)
                         total_candidates) in
  repeat_char "=" (Z.to_nat filled)
    ++ repeat_char "." (Z.to_nat (progress_bar_width - filled)).

(** What [update_progress] writes, when it writes. *)
Definition progress_text (total_candidates processed_candidates : Z)
  : string :=
  CR ++ "Scanning: [" ++ progress_bar total_candidates processed_candidates
     ++ "] " ++ str_Z processed_candidates ++ "/" ++ str_Z total_candidates.

(** The state of [scan_folder_for_audio_recursive] with its terminal: the
    two lists, the counter of processed candidates and what has been
    written to [sys.stdout], oldest first. *)
Record scan_io := {
  io_scan : scan_state;
  processed_candidates : Z;
  stdout : list string
}.

Definition write_stdout (text : string) (io : scan_io) : scan_io :=
  {| io_scan := io_scan io;
     processed_candidates := processed_candidates io;
     stdout := (stdout io ++ [text])%list |}.

Definition update_progress (show_progress : bool) (total_candidates : Z)
    (io : scan_io) : scan_io :=
  if negb show_progress || (total_candidates =? 0) then io
  else write_stdout
         (progress_text total_candidates (processed_candidates io)) io.

Definition finish_progress_line (show_progress : bool)
    (total_candidates : Z) (io : scan_io) : scan_io :=
  if negb show_progress || (total_candidates =? 0) then io
  else write_stdout NL io.

(** [results.append(fi); processed_candidates += 1; update_progress()]. *)
Definition record_candidate (show_progress : bool) (total_candidates : Z)
    (fi : file_info) (io : scan_io) : scan_io :=
  update_progress show_progress total_candidates
    {| io_scan := push_result fi (io_scan io);
       processed_candidates := processed_candidates io + 1;
       stdout := stdout io |}.

Definition io_log_debug (debug_enabled : bool) (line : string)
    (io : scan_io) : scan_io :=
  {| io_scan := log_debug debug_enabled line (io_scan io);
     processed_candidates := processed_candidates io;
     stdout := stdout io |}.

Section Terminal.

Context {py : Python}.

(** The body of the loop of [walk_dir] with the progress bar. *)
Fixpoint walk_dir_entry (max_depth : Z) (debug_enabled show_progress : bool)
    (total_candidates : Z) (current_dir : string) (current_depth : Z)
    (e : entry) (io : scan_io) : scan_io :=
  match e with
  | EFile name f =>
      if should_consider name then
        let p := entry_path current_dir name in
        match to_uniform_dict p f with
        | Returns fi => record_candidate show_progress total_candidates fi io
        | Raises true =>
            io_log_debug debug_enabled ("[debug] mp3_unreadable: " ++ p)
              (record_candidate show_progress total_candidates
                 (walker_error_record p "mp3_unreadable") io)
        | Raises false =>
            io_log_debug debug_enabled ("[debug] unreadable: " ++ p)
              (record_candidate show_progress total_candidates
                 (walker_error_record p "unreadable") io)
        end
      else io
  | EDir name entries =>
      let p := entry_path current_dir name in
      if current_depth <? max_depth then
        fold_left
          (fun io' e' =>
             walk_dir_entry max_depth debug_enabled show_progress
               total_candidates p (current_depth + 1) e' io')
          entries
          (io_log_debug debug_enabled (entering_line p (current_depth + 1)) io)
      else
        io_log_debug debug_enabled ("[debug] depth limit reached at: " ++ p) io
  | EGone name =>
      let p := entry_path current_dir name in
      if current_depth <? max_depth then
        io_log_debug debug_enabled ("[debug] not found: " ++ p)
          (io_log_debug debug_enabled (entering_line p (current_depth + 1)) io)
      else
        io_log_debug debug_enabled ("[debug] depth limit reached at: " ++ p) io
  | EOther _ => io
  end.

(** [scan_folder_for_audio_recursive] with [show_progress]: the results, the
    debug lines and what was written to the terminal. *)
Definition scan_folder_for_audio_recursive_io (root : string)
    (root_listing : option (list entry)) (max_depth : Z)
    (debug_enabled show_progress : bool)
  : list file_info * list string * list string :=
  let total_candidates := scan_count_total_candidates root_listing max_depth in
  let io0 :=
    update_progress show_progress total_candidates
      {| io_scan := {| results := []; debug_lines := [] |};
         processed_candidates := 0;
         stdout := [] |} in
  let io1 := io_log_debug debug_enabled (entering_line root 0) io0 in
  let io2 :=
    match root_listing with
    | Some entries =>
        fold_left
          (fun io e =>
             walk_dir_entry max_depth debug_enabled show_progress
               total_candidates root 0 e io)
          entries io1
    | None => io_log_debug debug_enabled ("[debug] not found: " ++ root) io1
    end in
  let io3 := finish_progress_line show_progress total_candidates io2 in
  (sorted_by_key sort_key (results (io_scan io3)), debug_lines (io_scan io3),
   stdout io3).

(** [get_output] with [show_progress]: the report and what the scan wrote to
    the terminal. *)
Definition get_output_io (root : string) (root_listing : option (list entry))
    (debug_enabled : bool) (max_depth : Z)
    (per_album no_quick_stats show_progress : bool) : string * list string :=
  let '(file_infos, debug_lines, painted) :=
    scan_folder_for_audio_recursive_io root root_listing max_depth
      debug_enabled show_progress in
  (render_report root file_infos debug_lines debug_enabled per_album
                 no_quick_stats,
   painted).

(** ** [main] *)

(** The namespace returned by [parser.parse_args()]. *)
Record arguments := {
  arg_folder : string;
  arg_to_file : bool;
  arg_terminal : bool;
  arg_output_path : string;
  arg_copy : bool;
  arg_debug : bool;
  arg_max_depth : Z;
  arg_per_album : bool;
  arg_no_quick_stats : bool
}.

(** What [main] finds outside the program: the absolute path of the folder,
    whether it is a directory and what [os.scandir] yields there; whether
    creating the parents of the output file, opening it for writing and
    copying to the clipboard raise; whether the output file exists. *)
Record world := {
  abspath_of_folder : string;
  folder_is_dir : bool;
  folder_listing : option (list entry);
  mkdir_raises : bool;
  output_exists : bool;
  open_raises : bool;
  copy_raises : bool
}.

(** What [main] does to the outside, in order.  [Stdout] carries the text as
    written: [print(s)] writes [s] and a line feed. *)
Inductive event :=
| Stdout (text : string)
| MakeParents (of_path : string)
| WriteFile (file_path text : string)
| Clipboard (text : string).

(** How [main] ends: it returns, it raises [SystemExit(code)], or an
    exception of the file system or of the clipboard escapes. *)
Inductive ending :=
| Returned
| SystemExit (code : Z)
| Uncaught.

Definition print (s : string) : event := Stdout (s ++ NL).

(** The [if args.to_file:] block: its events, and its ending when it does
    not fall through. *)
Definition save_to_file (args : arguments) (w : world) (output_text : string)
  : list event * option ending :=
  if arg_to_file args then
    let output_file_path := arg_output_path args in
    if mkdir_raises w then ([], Some Uncaught)
    else if output_exists w then
      ([MakeParents output_file_path;
        print ("Error: Output file '" ++ path_str output_file_path
                 ++ "' already exists.")],
       Some (SystemExit 1))
    else if open_raises w then ([MakeParents output_file_path], Some Uncaught)
    else
      ([MakeParents output_file_path;
        WriteFile output_file_path output_text;
        print ("File written to: " ++ path_str output_file_path)],
       None)
  else ([], None).

(** The [if args.copy:] block. *)
Definition copy_to_clipboard (args : arguments) (w : world)
    (output_text : string) : list event * option ending :=
  if arg_copy args then
    if copy_raises w then ([], Some Uncaught)
    else
      ([Clipboard output_text;
        print "Music scan results copied to clipboard."],
       None)
  else ([], None).

(** The last block: the report goes to the terminal when asked for, or when
    no sink was chosen. *)
Definition print_to_terminal (args : arguments) (output_text : string)
  : list event :=
  if arg_terminal args || (negb (arg_to_file args) && negb (arg_copy args))
  then [Stdout output_text] else [].

Definition main (args : arguments) (w : world) : list event * ending :=
  let root := abspath_of_folder w in
  if negb (folder_is_dir w) then
    ([print ("Error: '" ++ arg_folder args ++ "' is not a valid directory.")],
     SystemExit 1)
  else
    let show_progress := arg_terminal args in
    let '(output_text, painted) :=
      get_output_io root (folder_listing w) (arg_debug args)
        (arg_max_depth args) (arg_per_album args) (arg_no_quick_stats args)
        show_progress in
    let scanned := map Stdout painted in
    match save_to_file args w output_text with
    | (saved, Some e) => (List.app scanned saved, e)
    | (saved, None) =>
        match copy_to_clipboard args w output_text with
        | (copied, Some e) => (List.app scanned (List.app saved copied), e)
        | (copied, None) =>
            (List.app scanned
               (List.app saved
                  (List.app copied (print_to_terminal args output_text))),
             Returned)
        end
    end.

End Terminal.

(** ** More notions used to state the properties *)

(** Number of occurrences of a string in a list. *)
Definition occurrences (x : string) (l : list string) : nat :=
  List.length (List.filter (String.eqb x) l).

(** The groups built by repeated [append]: for each key, in the order in
    which the keys first occur, the records that have this key, in their
    order. *)
Definition groups_of (key : file_info -> string) (l : list file_info)
  : list (string * list file_info) :=
  map (fun k => (k, List.filter (fun x => String.eqb (key x) k) l))
      (distinct String.eqb (map key l)).

(** What [update_progress] writes over [n] calls, the first of them with
    [first] processed candidates. *)
Definition progress_paints (show_progress : bool) (total_candidates first : Z)
    (n : nat) : list string :=
  if negb show_progress || (total_candidates =? 0) then []
  else map (fun i => progress_text total_candidates (first + Z.of_nat i))
           (seq 0 n).

(** From [io] to [io'] the program has painted the bar once for each
    candidate it has processed, and written nothing else. *)
Definition painted (show_progress : bool) (total_candidates : Z)
    (io io' : scan_io) : Prop :=
  processed_candidates io <= processed_candidates io'
  /\ stdout io'
     = (stdout io
        ++ progress_paints show_progress total_candidates
             (processed_candidates io + 1)
             (Z.to_nat (processed_candidates io' - processed_candidates io)))%list.

(** A name a directory entry can have: not empty, not ["."], no slash. *)
Definition entry_name (name : string) : bool :=
  nonempty name && negb (String.eqb name ".") && negb (in_str "/" name).

(** ** More example data *)

(** Two tracks of one directory, with different album tags and no cover. *)
Definition example_two_tracks : list (string * file) :=
  [ ("01.mp3", example_mp3 "aaaa" 181 "One" "A" "X" "1" []);
    ("02.mp3", example_mp3 "bbbb" 182 "Two" "B" "Y" "2" []) ].

(** A run of the program on a folder that holds [example_album_entries]:
    no switch but the folder. *)
Definition example_args : arguments :=
  {| arg_folder := "Album A";
     arg_to_file := false;
     arg_terminal := false;
     arg_output_path := "/home/me/output.txt";
     arg_copy := false;
     arg_debug := false;
     arg_max_depth := 5;
     arg_per_album := false;
     arg_no_quick_stats := false |}.

Definition example_world : world :=
  {| abspath_of_folder := "/music/Album A";
     folder_is_dir := true;
     folder_listing := Some example_album_entries;
     mkdir_raises := false;
     output_exists := false;
     open_raises := false;
     copy_raises := false |}.

(** The same run with [--to-file]. *)
Definition example_args_to_file : arguments :=
  {| arg_folder := "Album A";
     arg_to_file := true;
     arg_terminal := false;
     arg_output_path := "/home/me/output.txt";
     arg_copy := false;
     arg_debug := false;
     arg_max_depth := 5;
     arg_per_album := false;
     arg_no_quick_stats := false |}.

(** * Properties *)

Section Properties.

Context {py : Python}.

(** ** Strings *)

Lemma in_str_app_sep (c : ascii) (l r : string) :
  in_str c (l ++ String c r) = true.
Proof.
  induction l as [|a l IH]; simpl.
  - now rewrite Ascii.eqb_refl.
  - rewrite IH. apply orb_true_r.
Qed.

Lemma split_once_app_sep (c : ascii) (l r : string) :
  in_str c l = false -> split_once c (l ++ String c r) = Some (l, r).
Proof.
  induction l as [|a l IH]; simpl; intros Hl.
  - now rewrite Ascii.eqb_refl.
  - apply orb_false_iff in Hl as [Ha Hl].
    rewrite Ha, (IH Hl). reflexivity.
Qed.

Lemma split_once_in_str (c : ascii) (s : string) :
  in_str c s = true -> exists l r, split_once c s = Some (l, r).
Proof.
  induction s as [|a s IH]; simpl; [discriminate|].
  destruct (Ascii.eqb a c); simpl; intros H.
  - now exists EmptyString, s.
  - destruct (IH H) as (l & r & ->). now exists (String a l), r.
Qed.

Lemma truthy_Some (v : string) : truthy (Some v) = true <-> v <> EmptyString.
Proof.
  unfold truthy, nonempty. rewrite negb_true_iff.
  split; intros H.
  - intros ->. discriminate.
  - now apply String.eqb_neq.
Qed.

(** ** [parse_track_number] *)

(** C8.  The raw track-number value is taken from ["TRCK"], else from
    ["TRACKNUMBER"].  When it is missing or empty, both fields are absent.
    When its stripped text has a slash, the text before the first slash
    and the text after it are parsed separately by [safe_int], which
    yields [None] instead of raising; otherwise the whole text is parsed
    as the number and the total is absent. *)
Theorem parse_track_number_cases (tags_map : gmap string (list string)) :
  (truthy (track_raw_value tags_map) = false ->
   parse_track_number tags_map = (None, None))
  /\ (forall raw l r,
         track_raw_value tags_map = Some raw -> raw <> EmptyString ->
         strip raw = l ++ "/" ++ r -> in_str "/" l = false ->
         parse_track_number tags_map = (safe_int l, safe_int r))
  /\ (forall raw,
         track_raw_value tags_map = Some raw -> raw <> EmptyString ->
         in_str "/" (strip raw) = false ->
         parse_track_number tags_map = (safe_int (strip raw), None))
  /\ (forall s, safe_int s = py_int (strip s)).
Proof.
  unfold parse_track_number. repeat split.
  - intros ->. reflexivity.
  - intros raw l r Hraw Hne Hs Hl.
    rewrite Hraw. apply truthy_Some in Hne. rewrite Hne. simpl.
    rewrite Hs. change (l ++ "/" ++ r) with (l ++ String "/" r). rewrite in_str_app_sep.
    now rewrite (split_once_app_sep _ _ _ Hl).
  - intros raw Hraw Hne Hs.
    rewrite Hraw. apply truthy_Some in Hne. rewrite Hne. simpl.
    now rewrite Hs.
Qed.

(** ** The sentences of the three tiers are told apart by their heads *)

Lemma str_Z_head (z : Z) :
  exists c rest, str_Z z = String c rest /\ c <> "m"%char /\ c <> "T"%char.
Proof.
  unfold str_Z. destruct (Z.to_int z) as [d|d]; simpl.
  - destruct d; simpl; eexists _, _;
      (split; [reflexivity | split; discriminate]).
  - eexists _, _; (split; [reflexivity | split; discriminate]).
Qed.

Lemma starts_with_cons (a b : ascii) (p s : string) :
  starts_with (String a p) (String b s) = Ascii.eqb a b && starts_with p s.
Proof. reflexivity. Qed.

Lemma starts_with_app (p q s : string) :
  starts_with (p ++ q) (p ++ s) = starts_with q s.
Proof.
  induction p as [|a p IH]; simpl; [reflexivity|].
  now rewrite Ascii.eqb_refl, IH.
Qed.

Lemma starts_with_char_neq (a b : ascii) (p s : string) :
  a <> b -> starts_with (String a p) (String b s) = false.
Proof. intros H. simpl. apply Ascii.eqb_neq in H. now rewrite H. Qed.

#[local] Arguments starts_with : simpl never.

Lemma formats_sentence_head (exts : list string) :
  starts_with INFO_HEAD (formats_sentence exts) = true.
Proof. reflexivity. Qed.

Lemma remaining_sentence_head (n : Z) :
  starts_with INFO_HEAD (remaining_sentence n) = false.
Proof.
  unfold remaining_sentence, INFO_HEAD.
  change "There are m" with ("There are " ++ "m").
  rewrite starts_with_app.
  destruct (str_Z_head n) as (c & rest & -> & Hc & _).
  apply starts_with_char_neq. congruence.
Qed.

Lemma unreadable_sentence_head (n : Z) :
  starts_with INFO_HEAD (unreadable_sentence n) = false.
Proof.
  unfold unreadable_sentence, INFO_HEAD.
  destruct (str_Z_head n) as (c & rest & -> & _ & Hc).
  apply starts_with_char_neq. congruence.
Qed.

Lemma show_duplicates_head (groups : list (list file_info)) (shown : nat) :
  Forall (fun m => starts_with INFO_HEAD m = false)
         (snd (show_duplicates shown groups)).
Proof.
  revert shown.
  induction groups as [|g groups IH]; intros shown; cbn [show_duplicates].
  - constructor.
  - destruct (3 <=? shown)%nat; [constructor|].
    specialize (IH (S shown)).
    destruct (show_duplicates (S shown) groups) as [shown' msgs].
    cbn [snd] in *.
    constructor; [reflexivity | assumption].
Qed.

Lemma duplicate_messages_head (album_files : list file_info) :
  Forall (fun m => starts_with INFO_HEAD m = false)
         (duplicate_messages album_files).
Proof.
  unfold duplicate_messages.
  destruct (duplicate_groups album_files) as [|g groups]; [constructor|].
  pose proof (show_duplicates_head (g :: groups) 0) as H.
  destruct (show_duplicates 0 (g :: groups)) as [shown msgs]. simpl in H.
  destruct (0 <? _); [|assumption].
  apply Forall_app. split; [assumption|].
  constructor; [apply remaining_sentence_head | constructor].
Qed.

Lemma album_messages_head (album_files : list file_info) :
  Forall (fun m => starts_with INFO_HEAD m = false)
         (album_messages album_files).
Proof. unfold album_messages. destruct (1 <? _)%nat; repeat constructor. Qed.

Lemma artist_messages_head (album_files : list file_info) :
  Forall (fun m => starts_with INFO_HEAD m = false)
         (artist_messages album_files).
Proof. unfold artist_messages. destruct (1 <? _)%nat; repeat constructor. Qed.

Lemma artwork_messages_head (album_files : list file_info) :
  Forall (fun m => starts_with INFO_HEAD m = false)
         (artwork_messages album_files).
Proof.
  unfold artwork_messages. apply Forall_app. split.
  - destruct (_ && _); repeat constructor.
  - destruct (1 <? _)%nat; repeat constructor.
Qed.

Lemma technical_messages_head (album_files : list file_info) :
  Forall (fun m => starts_with INFO_HEAD m = false)
         (technical_messages album_files).
Proof.
  unfold technical_messages.
  apply Forall_app; split; destruct (1 <? _)%nat; repeat constructor.
Qed.

Lemma id3_messages_head (album_files : list file_info) :
  Forall (fun m => starts_with INFO_HEAD m = false)
         (id3_messages album_files).
Proof.
  unfold id3_messages. apply Forall_app. split.
  - destruct (1 <? _)%nat; repeat constructor.
  - destruct (List.filter _ _); repeat constructor.
Qed.

Lemma warn_messages_head (album_files : list file_info) :
  Forall (fun m => starts_with INFO_HEAD m = false)
         (warn_messages album_files).
Proof.
  unfold warn_messages. apply Forall_concat.
  repeat constructor;
    auto using duplicate_messages_head, album_messages_head,
      artist_messages_head, artwork_messages_head, technical_messages_head,
      id3_messages_head.
Qed.

Lemma crit_messages_head (album_files : list file_info) :
  Forall (fun m => starts_with INFO_HEAD m = false)
         (crit_messages album_files).
Proof.
  unfold crit_messages. destruct (_ =? 0); repeat constructor.
  apply unreadable_sentence_head.
Qed.

Lemma info_messages_head (album_files : list file_info) :
  Forall (fun m => starts_with INFO_HEAD m = true)
         (info_messages album_files).
Proof.
  unfold info_messages. destruct (1 <? _)%nat; repeat constructor.
Qed.

(** ** Severity resolution *)

(** C2.  The level and the messages returned for an album follow the
    message lists of the three tiers: a CRIT message gives level CRIT and
    the WARN messages followed by the CRIT messages; else a WARN message
    gives level WARN and the WARN messages; else an INFO message gives
    level INFO and the INFO messages; else there is no level, no message
    and no block in the report.  No INFO message is among the returned
    messages as soon as a WARN or a CRIT message exists. *)
Theorem severity_resolution (album_files : list file_info) :
  let info_msgs := info_messages album_files in
  let warn_msgs := warn_messages album_files in
  let crit_msgs := crit_messages album_files in
  let lvl := level_of album_files in
  let messages := messages_of album_files in
  (crit_msgs <> [] ->
   lvl = Some CRIT /\ messages = List.app warn_msgs crit_msgs)
  /\ (crit_msgs = [] -> warn_msgs <> [] ->
      lvl = Some WARN /\ messages = warn_msgs)
  /\ (crit_msgs = [] -> warn_msgs = [] -> info_msgs <> [] ->
      lvl = Some INFO /\ messages = info_msgs)
  /\ (crit_msgs = [] -> warn_msgs = [] -> info_msgs = [] ->
      lvl = None /\ messages = []
      /\ forall per_album, album_block per_album album_files = None)
  /\ (crit_msgs <> [] \/ warn_msgs <> [] ->
      forall m, In m info_msgs -> ~ In m messages).
Proof.
  intros info_msgs warn_msgs crit_msgs lvl messages.
  pose proof (info_messages_head album_files) as Hi.
  pose proof (warn_messages_head album_files) as Hw.
  pose proof (crit_messages_head album_files) as Hc.
  fold info_msgs in Hi. fold warn_msgs in Hw. fold crit_msgs in Hc.
  rewrite List.Forall_forall in Hi, Hw, Hc.
  subst lvl messages.
  unfold level_of, messages_of, album_block, build_album_messages.
  fold info_msgs warn_msgs crit_msgs.
  clearbody info_msgs warn_msgs crit_msgs.
  split; [|split; [|split; [|split]]].
  - intros H. destruct crit_msgs; [congruence | now split].
  - intros -> H. destruct warn_msgs; [congruence | now split].
  - intros -> -> H. destruct info_msgs; [congruence | now split].
  - intros -> -> ->. now repeat split.
  - intros H m Hinfo Hm.
    specialize (Hi m Hinfo).
    assert (Hin : In m (List.app warn_msgs crit_msgs)).
    { destruct crit_msgs as [|c cs], warn_msgs as [|w ws],
               info_msgs as [|i is_]; cbn [fst snd] in Hm;
        try (destruct H; congruence);
        rewrite ?app_nil_r; assumption. }
    apply in_app_or in Hin as [Hin|Hin];
      [specialize (Hw m Hin) | specialize (Hc m Hin)]; congruence.
Qed.

(** ** Duplicate groups *)

Lemma show_duplicates_firstn (groups : list (list file_info)) (shown : nat) :
  show_duplicates shown groups
  = ((shown + List.length (firstn (3 - shown) groups))%nat,
     map duplicate_sentence (firstn (3 - shown) groups)).
Proof.
  revert shown.
  induction groups as [|g groups IH]; intros shown; cbn [show_duplicates].
  - rewrite firstn_nil. simpl. now rewrite Nat.add_0_r.
  - destruct (3 <=? shown)%nat eqn:E.
    + apply Nat.leb_le in E.
      replace (3 - shown)%nat with 0%nat by lia. simpl.
      now rewrite Nat.add_0_r.
    + apply Nat.leb_gt in E. rewrite IH.
      replace (3 - shown)%nat with (S (3 - S shown)) by lia.
      cbn [firstn map List.length]. f_equal. lia.
Qed.

(** What the duplicate rule produces: one sentence for each of the first
    three duplicate groups, and a closing sentence when the number of all
    hash groups, single files included, exceeds the number of sentences. *)
Lemma duplicate_messages_shape (album_files : list file_info) :
  let dups := duplicate_groups album_files in
  let shown := List.length (firstn 3 dups) in
  let remaining :=
    Z.of_nat (List.length (all_groups album_files)) - Z.of_nat shown in
  duplicate_messages album_files
  = match dups with
    | [] => []
    | _ =>
        List.app (map duplicate_sentence (firstn 3 dups))
                 (if 0 <? remaining then [remaining_sentence remaining]
                  else [])
    end.
Proof.
  intros dups shown remaining. subst shown remaining.
  unfold duplicate_messages. fold dups.
  destruct dups as [|g groups]; [reflexivity|].
  rewrite show_duplicates_firstn. rewrite Nat.sub_0_r, Nat.add_0_l.
  destruct (0 <? _); [reflexivity | now rewrite app_nil_r].
Qed.

(** ** Unreadable MP3s *)

Lemma counts_as_unreadable_mp3_iff (fi : file_info) :
  counts_as_unreadable_mp3 fi = true
  <-> container fi = Some "mp3"
      /\ (error fi = Some "mp3_unreadable" \/ length_s fi = None).
Proof.
  unfold counts_as_unreadable_mp3.
  destruct (container fi) as [c|]; [|split; [discriminate | intros [[=] _]]].
  rewrite andb_true_iff, orb_true_iff, String.eqb_eq.
  split.
  - intros [-> H]. split; [reflexivity|].
    destruct H as [H|H].
    + left. destruct (error fi) as [e|]; [|discriminate].
      apply String.eqb_eq in H. now subst.
    + right. now destruct (length_s fi).
  - intros [[= ->] H]. split; [reflexivity|].
    destruct H as [->| ->]; [left; apply String.eqb_refl | now right].
Qed.

Lemma error_record_no_container (p : string) (f : file) (err : string) :
  container (error_record p f err) = None.
Proof. reflexivity. Qed.

Lemma to_uniform_dict_error_no_container (p : string) (f : file)
    (fi : file_info) :
  to_uniform_dict p f = Returns fi -> has_error fi = true ->
  container fi = None.
Proof.
  unfold to_uniform_dict.
  destruct (f_decoded f) as [[|]| |cn info tv|b];
    try (intros [= <-]; reflexivity); try discriminate.
  destruct (read_tags tv) as [[tm datas] v].
  destruct (parse_track_number tm) as [n t].
  intros [= <-]. discriminate.
Qed.

Lemma record_of_error_no_container (c : string * file) :
  has_error (record_of c) = true -> container (record_of c) = None.
Proof.
  unfold record_of.
  destruct (to_uniform_dict c.1 c.2) as [fi|[|]] eqn:E; try reflexivity.
  now apply to_uniform_dict_error_no_container with (p := c.1) (f := c.2).
Qed.

(** The rule on unreadable MP3s.  An album with a record of container
    ["mp3"] that carries the error tag ["mp3_unreadable"] or has no
    duration gets level CRIT, and its last message gives the number of such
    records.  A record built for a file whose decoding failed has no
    container: the test on the error tag never holds for it. *)
Theorem unreadable_mp3_rule (album_files : list file_info) :
  ((exists fi, In fi album_files /\ container fi = Some "mp3"
               /\ (error fi = Some "mp3_unreadable" \/ length_s fi = None)) ->
   level_of album_files = Some CRIT
   /\ 0 < crit_count album_files
   /\ messages_of album_files
      = List.app (warn_messages album_files)
                 [unreadable_sentence (crit_count album_files)])
  /\ (forall c : string * file,
         has_error (record_of c) = true ->
         counts_as_unreadable_mp3 (record_of c) = false).
Proof.
  split.
  - intros (fi & Hin & Hc & He).
    assert (Hpos : 0 < crit_count album_files).
    { unfold crit_count.
      assert (In fi (List.filter counts_as_unreadable_mp3 album_files)) as H.
      { apply filter_In. split; [assumption|].
        now apply counts_as_unreadable_mp3_iff. }
      destruct (List.filter _ _); [destruct H | simpl; lia]. }
    unfold level_of, messages_of, build_album_messages, crit_messages.
    destruct (crit_count album_files =? 0) eqn:E; [lia|].
    now repeat split.
  - intros c H. apply record_of_error_no_container in H.
    unfold counts_as_unreadable_mp3. now rewrite H.
Qed.

(** ** The walker *)

#[local] Arguments should_consider : simpl never.

Lemma results_log_debug (b : bool) (line : string) (st : scan_state) :
  results (log_debug b line st) = results st.
Proof. now destruct b. Qed.

Lemma candidates_dfs_cons (k : nat) (dir : string) (e : entry)
    (es : list entry) :
  candidates_dfs k dir (e :: es)
  = List.app
      (match e with
       | EFile name f =>
           if should_consider name then [(entry_path dir name, f)] else []
       | EDir name sub =>
           match k with
           | O => []
           | S k' => candidates_dfs k' (entry_path dir name) sub
           end
       | _ => []
       end)
      (candidates_dfs k dir es).
Proof. now destruct k. Qed.

Lemma candidates_dfs_nil (k : nat) (dir : string) :
  candidates_dfs k dir [] = [].
Proof. now destruct k. Qed.

(** The files seen by [walk_dir] are those of a depth-first walk that goes
    [max_depth - current_depth] levels down. *)
Lemma walk_entries_results (max_depth : Z) (debug_enabled : bool) :
  forall (k : nat) (current_depth : Z) (dir : string) (es : list entry)
         (st : scan_state),
    k = Z.to_nat (max_depth - current_depth) ->
    results
      (fold_left
         (fun st' e =>
            walk_entry max_depth debug_enabled dir current_depth e st')
         es st)
    = List.app (results st) (map record_of (candidates_dfs k dir es)).
Proof.
  induction k as [|k IHk]; intros depth dir es;
    induction es as [|e es IHes]; intros st Hk;
    rewrite ?candidates_dfs_nil, ?candidates_dfs_cons;
    cbn [fold_left map]; try (now rewrite app_nil_r);
    rewrite (IHes _ Hk), map_app, app_assoc; f_equal;
    destruct e as [name f|name sub|name|name]; cbn [walk_entry map];
    try (now rewrite app_nil_r).
  - destruct (should_consider name); [|now rewrite app_nil_r].
    unfold record_of. cbn [fst snd map].
    destruct (to_uniform_dict _ f) as [fi|[|]];
      now rewrite ?results_log_debug.
  - destruct (depth <? max_depth) eqn:E; [apply Z.ltb_lt in E; lia|].
    now rewrite results_log_debug, app_nil_r.
  - destruct (depth <? max_depth);
      now rewrite ?results_log_debug, app_nil_r.
  - destruct (should_consider name); [|now rewrite app_nil_r].
    unfold record_of. cbn [fst snd map].
    destruct (to_uniform_dict _ f) as [fi|[|]];
      now rewrite ?results_log_debug.
  - destruct (depth <? max_depth) eqn:E; [|apply Z.ltb_ge in E; lia].
    rewrite IHk by lia. now rewrite results_log_debug.
  - destruct (depth <? max_depth);
      now rewrite ?results_log_debug, app_nil_r.
Qed.

Lemma count_entries_total (max_depth : Z) :
  forall (k : nat) (current_depth : Z) (dir : string) (es : list entry)
         (total : Z),
    k = Z.to_nat (max_depth - current_depth) ->
    fold_left (fun total' e => count_entry max_depth current_depth e total')
              es total
    = total + Z.of_nat (List.length (candidates_dfs k dir es)).
Proof.
  induction k as [|k IHk]; intros depth dir es;
    induction es as [|e es IHes]; intros total Hk;
    rewrite ?candidates_dfs_nil, ?candidates_dfs_cons;
    cbn [fold_left]; try (cbn [List.length]; lia);
    rewrite (IHes _ Hk), length_app;
    destruct e as [name f|name sub|name|name]; cbn [count_entry];
    try (cbn [List.length]; lia).
  - destruct (should_consider name); cbn [List.length]; lia.
  - destruct (depth <? max_depth) eqn:E; [apply Z.ltb_lt in E; lia|].
    cbn [List.length]. lia.
  - destruct (should_consider name); cbn [List.length]; lia.
  - destruct (depth <? max_depth) eqn:E; [|apply Z.ltb_ge in E; lia].
    rewrite (IHk _ (entry_path dir name)) by lia. lia.
Qed.

(** ** Depth-first order and level order *)

Lemma flat_map_app_perm {A B : Type} (f g : A -> list B) (l : list A) :
  Permutation (flat_map (fun x => List.app (f x) (g x)) l)
              (List.app (flat_map f l) (flat_map g l)).
Proof.
  induction l as [|x l IH]; cbn [flat_map]; [constructor|].
  rewrite IH, <- !app_assoc.
  apply Permutation_app_head.
  rewrite !app_assoc. apply Permutation_app_tail, Permutation_app_comm.
Qed.

Lemma flat_map_swap_perm {A B C : Type} (h : A -> B -> list C)
    (la : list A) (lb : list B) :
  Permutation (flat_map (fun a => flat_map (h a) lb) la)
              (flat_map (fun b => flat_map (fun a => h a b) la) lb).
Proof.
  induction la as [|a la IH]; cbn [flat_map].
  - induction lb as [|b lb IHb]; cbn [flat_map]; [constructor | assumption].
  - rewrite IH. symmetry. apply flat_map_app_perm.
Qed.

Lemma flat_map_perm_ext {A B : Type} (f g : A -> list B) (l : list A) :
  (forall x, Permutation (f x) (g x)) ->
  Permutation (flat_map f l) (flat_map g l).
Proof.
  intros H. induction l as [|x l IH]; cbn [flat_map]; [constructor|].
  now apply Permutation_app.
Qed.

Lemma candidates_flat_map (dir : string) (es : list entry) :
  candidates dir es
  = flat_map (fun e =>
                match e with
                | EFile name f =>
                    if should_consider name then [(entry_path dir name, f)]
                    else []
                | _ => []
                end)
             es.
Proof.
  unfold candidates.
  induction es as [|e es IH]; [reflexivity|].
  cbn [flat_map]. rewrite <- IH.
  destruct e as [name f| | |]; try reflexivity.
  cbn. now destruct (should_consider name).
Qed.

Lemma candidates_at_0 (dir : string) (es : list entry) :
  candidates_at 0 dir es = candidates dir es.
Proof. unfold candidates_at. cbn. apply app_nil_r. Qed.

Lemma candidates_at_S (j : nat) (dir : string) (es : list entry) :
  candidates_at (S j) dir es
  = flat_map (fun e =>
                match e with
                | EDir name sub => candidates_at j (entry_path dir name) sub
                | _ => []
                end)
             es.
Proof.
  unfold candidates_at. cbn [dirs_at].
  induction es as [|e es IH]; [reflexivity|].
  cbn [flat_map]. rewrite flat_map_app, IH. f_equal.
  now destruct e.
Qed.

Lemma candidates_upto_S (k : nat) (dir : string) (es : list entry) :
  Permutation
    (candidates_upto (S k) dir es)
    (List.app
       (candidates dir es)
       (flat_map (fun e =>
                    match e with
                    | EDir name sub => candidates_upto k (entry_path dir name) sub
                    | _ => []
                    end)
                 es)).
Proof.
  unfold candidates_upto.
  change (seq 0 (S (S k))) with (0%nat :: seq 1 (S k)).
  cbn [flat_map]. rewrite candidates_at_0.
  apply Permutation_app_head.
  rewrite <- seq_shift, flat_map_concat_map, map_map, <- flat_map_concat_map.
  erewrite flat_map_ext by (intros j; apply candidates_at_S).
  rewrite flat_map_swap_perm.
  apply flat_map_perm_ext. intros e.
  destruct e as [name f|name sub|name|name];
    try (induction (seq 0 (S k)); [constructor | assumption]).
  reflexivity.
Qed.

(** The depth-first walk meets exactly the candidate files of the
    directories at levels [0] to [k]. *)
Lemma candidates_dfs_upto (k : nat) :
  forall (dir : string) (es : list entry),
    Permutation (candidates_dfs k dir es) (candidates_upto k dir es).
Proof.
  induction k as [|k IH]; intros dir es.
  - unfold candidates_upto. cbn [seq flat_map].
    rewrite app_nil_r, candidates_at_0, candidates_flat_map.
    apply flat_map_perm_ext. intros e. now destruct e.
  - rewrite candidates_upto_S, candidates_flat_map.
    rewrite <- flat_map_app_perm.
    cbn [candidates_dfs].
    apply flat_map_perm_ext. intros e.
    destruct e as [name f|name sub|name|name]; cbn [List.app];
      rewrite ?app_nil_r; try reflexivity.
    apply IH.
Qed.

Lemma emptied_below_cons (k : nat) (e : entry) (es : list entry) :
  emptied_below k (e :: es)
  = match e with
    | EDir name sub =>
        match k with
        | O => EDir name []
        | S k' => EDir name (emptied_below k' sub)
        end
    | _ => e
    end :: emptied_below k es.
Proof. now destruct k. Qed.

(** What lies in the directories below the bound has no effect on the two
    lists built by [walk_dir]. *)
Lemma walk_entries_emptied (max_depth : Z) (debug_enabled : bool) :
  forall (k : nat) (current_depth : Z) (dir : string) (es : list entry)
         (st : scan_state),
    k = Z.to_nat (max_depth - current_depth) ->
    fold_left
      (fun st' e => walk_entry max_depth debug_enabled dir current_depth e st')
      (emptied_below k es) st
    = fold_left
        (fun st' e => walk_entry max_depth debug_enabled dir current_depth e st')
        es st.
Proof.
  induction k as [|k IHk]; intros depth dir es;
    induction es as [|e es IHes]; intros st Hk;
    try reflexivity;
    rewrite emptied_below_cons; cbn [fold_left];
    rewrite (IHes _ Hk); f_equal;
    destruct e as [name f|name sub|name|name]; try reflexivity;
    cbn [walk_entry].
  - destruct (depth <? max_depth) eqn:E; [apply Z.ltb_lt in E; lia|].
    reflexivity.
  - destruct (depth <? max_depth) eqn:E; [|reflexivity].
    apply IHk. apply Z.ltb_lt in E. lia.
Qed.

Lemma count_entries_emptied (max_depth : Z) :
  forall (k : nat) (current_depth : Z) (es : list entry) (total : Z),
    k = Z.to_nat (max_depth - current_depth) ->
    fold_left (fun total' e => count_entry max_depth current_depth e total')
              (emptied_below k es) total
    = fold_left (fun total' e => count_entry max_depth current_depth e total')
                es total.
Proof.
  induction k as [|k IHk]; intros depth es;
    induction es as [|e es IHes]; intros total Hk;
    try reflexivity;
    rewrite emptied_below_cons; cbn [fold_left];
    rewrite (IHes _ Hk); f_equal;
    destruct e as [name f|name sub|name|name]; try reflexivity;
    cbn [count_entry].
  - destruct (depth <? max_depth) eqn:E; [apply Z.ltb_lt in E; lia|].
    reflexivity.
  - destruct (depth <? max_depth) eqn:E; [|reflexivity].
    apply IHk. apply Z.ltb_lt in E. lia.
Qed.

(** ** Sorting *)

Lemma insert_sorted_perm {A : Type} (le : A -> A -> bool) (x : A)
    (l : list A) :
  Permutation (insert_sorted le x l) (x :: l).
Proof.
  induction l as [|y l IH]; cbn [insert_sorted]; [reflexivity|].
  destruct (le x y); [reflexivity|].
  rewrite IH. apply perm_swap.
Qed.

Lemma py_sorted_perm {A : Type} (le : A -> A -> bool) (l : list A) :
  Permutation (py_sorted le l) l.
Proof.
  induction l as [|x l IH]; cbn [py_sorted fold_right]; [constructor|].
  rewrite insert_sorted_perm. now constructor.
Qed.

Lemma scan_results (root : string) (entries : list entry) (max_depth : Z)
    (debug_enabled : bool) :
  results (walk_root root (Some entries) max_depth debug_enabled)
  = map record_of (candidates_dfs (Z.to_nat max_depth) root entries).
Proof.
  unfold walk_root.
  rewrite (walk_entries_results _ _ (Z.to_nat max_depth)) by (f_equal; lia).
  now rewrite results_log_debug.
Qed.

Lemma scan_folder_records (root : string) (entries : list entry)
    (max_depth : Z) (debug_enabled : bool) :
  Permutation
    (fst (scan_folder_for_audio_recursive root (Some entries) max_depth
            debug_enabled))
    (map record_of (candidates_upto (Z.to_nat max_depth) root entries)).
Proof.
  unfold scan_folder_for_audio_recursive, sorted_by_key. cbn [fst].
  rewrite py_sorted_perm, scan_results.
  apply Permutation_map, candidates_dfs_upto.
Qed.

(** ** The depth bound *)

(** C6.  With [k] the depth bound (zero when it is negative), the pre-pass
    counts, and the scan returns the records of, the candidate files of the
    directories at levels 0 to [k], the root being at level 0.  Emptying
    every directory at level [k + 1] changes neither the count nor what the
    scan returns. *)
Theorem walker_depth_bound (root : string) (entries : list entry)
    (max_depth : Z) (debug_enabled : bool) :
  let k := Z.to_nat max_depth in
  scan_count_total_candidates (Some entries) max_depth
  = Z.of_nat (List.length (candidates_upto k root entries))
  /\ Permutation
       (fst (scan_folder_for_audio_recursive root (Some entries) max_depth
               debug_enabled))
       (map record_of (candidates_upto k root entries))
  /\ scan_count_total_candidates (Some (emptied_below k entries)) max_depth
     = scan_count_total_candidates (Some entries) max_depth
  /\ scan_folder_for_audio_recursive root (Some (emptied_below k entries))
       max_depth debug_enabled
     = scan_folder_for_audio_recursive root (Some entries) max_depth
         debug_enabled.
Proof.
  intros k. repeat split.
  - unfold scan_count_total_candidates.
    rewrite (count_entries_total _ k 0 root) by (subst k; f_equal; lia).
    now rewrite (Permutation_length (candidates_dfs_upto k root entries)).
  - apply scan_folder_records.
  - unfold scan_count_total_candidates.
    apply count_entries_emptied. subst k. f_equal. lia.
  - unfold scan_folder_for_audio_recursive, walk_root.
    rewrite walk_entries_emptied by (subst k; f_equal; lia).
    reflexivity.
Qed.

(** ** Scans without a recognized file *)

Lemma render_report_no_recognized (root : string)
    (file_infos : list file_info) (debug_lines : list string)
    (debug_enabled per_album no_quick_stats : bool) :
  recognized file_infos = [] ->
  render_report root file_infos debug_lines debug_enabled per_album
                no_quick_stats
  = NO_MUSIC.
Proof. unfold render_report. now intros ->. Qed.

Lemma recognized_all_errors (file_infos : list file_info) :
  Forall (fun fi => has_error fi = true) file_infos ->
  recognized file_infos = [].
Proof.
  unfold recognized.
  induction 1 as [|fi l Hfi _ IH]; cbn [List.filter]; [reflexivity|].
  now rewrite Hfi.
Qed.

(** ** Listings that fail *)




(** On a tree all of whose directories can be listed or are missing, the
    functions with the further outcome are the plain ones. *)
Lemma count_nodes_plain (max_depth : Z) :
  forall (k : nat) (depth : Z) (es : list entry) (t : Z),
    k = Z.to_nat (max_depth - depth) ->
    fold_left (fun total n => count_node max_depth depth n total)
              (map node_of es) (Returns t)
    = Returns
        (fold_left (fun total e => count_entry max_depth depth e total) es t).
Proof.
  induction k as [|k IHk]; intros depth es;
    induction es as [|e es IHes]; intros t Hk;
    cbn [map fold_left]; try reflexivity.
  - assert (E : (depth <? max_depth) = false) by (apply Z.ltb_ge; lia).
    destruct e as [name f|name sub|name|name];
      cbn [node_of count_node count_entry]; rewrite ?E; apply IHes, Hk.
  - assert (E : (depth <? max_depth) = true) by (apply Z.ltb_lt; lia).
    destruct e as [name f|name sub|name|name];
      cbn [node_of count_node count_entry]; rewrite ?E;
      try (apply IHes, Hk).
    rewrite (IHk (depth + 1)%Z sub t) by lia. apply IHes, Hk.
Qed.

Lemma walk_nodes_plain (max_depth : Z) (debug_enabled : bool) :
  forall (k : nat) (depth : Z) (dir : string) (es : list entry)
         (st : scan_state),
    k = Z.to_nat (max_depth - depth) ->
    fold_left
      (fun st' n => walk_node max_depth debug_enabled dir depth n st')
      (map node_of es) st
    = fold_left
        (fun st' e => walk_entry max_depth debug_enabled dir depth e st')
        es st.
Proof.
  induction k as [|k IHk]; intros depth dir es;
    induction es as [|e es IHes]; intros st Hk;
    cbn [map fold_left]; try reflexivity.
  - assert (E : (depth <? max_depth) = false) by (apply Z.ltb_ge; lia).
    destruct e as [name f|name sub|name|name];
      cbn [node_of walk_node walk_entry]; rewrite ?E; apply IHes, Hk.
  - assert (E : (depth <? max_depth) = true) by (apply Z.ltb_lt; lia).
    destruct e as [name f|name sub|name|name];
      cbn [node_of walk_node walk_entry]; rewrite ?E;
      try (apply IHes, Hk).
    rewrite (IHk (depth + 1)%Z _ sub) by lia. apply IHes, Hk.
Qed.

Lemma get_output_or_raise_plain (root : string)
    (root_listing : option (list entry)) (debug_enabled : bool)
    (max_depth : Z) (per_album no_quick_stats : bool) :
  get_output_or_raise root (listing_of root_listing) debug_enabled max_depth
                      per_album no_quick_stats
  = Returns (get_output root root_listing debug_enabled max_depth per_album
                        no_quick_stats).
Proof.
  unfold get_output_or_raise, scan_folder_for_audio_recursive_or_raise,
    scan_count_total_candidates_or_raise, get_output,
    scan_folder_for_audio_recursive, walk_root.
  destruct root_listing as [entries|]; cbn [listing_of]; [|reflexivity].
  rewrite (count_nodes_plain _ (Z.to_nat max_depth)) by (f_equal; lia).
  rewrite (walk_nodes_plain _ _ (Z.to_nat max_depth)) by (f_equal; lia).
  reflexivity.
Qed.


Lemma decode_fails_has_error (c : string * file) :
  decode_fails (snd c) = true -> has_error (record_of c) = true.
Proof.
  unfold decode_fails, record_of, to_uniform_dict.
  destruct (f_decoded (snd c)) as [[|]| |cn info tv|[|]];
    try reflexivity; discriminate.
Qed.

(** C10.  When decoding fails for every candidate file within the depth
    bound, [get_output] returns the same sentence as for a directory
    without any audio file, and nothing else. *)
Theorem all_unreadable_is_no_music (root : string) (entries : list entry)
    (debug_enabled : bool) (max_depth : Z)
    (per_album no_quick_stats : bool) :
  (forall c, In c (candidates_upto (Z.to_nat max_depth) root entries) ->
             decode_fails (snd c) = true) ->
  get_output root (Some entries) debug_enabled max_depth per_album
             no_quick_stats
  = "Couldn't find any music files with current parameters." ++ NL
  /\ get_output root (Some entries) debug_enabled max_depth per_album
                no_quick_stats
     = get_output root (Some []) debug_enabled max_depth per_album
                  no_quick_stats.
Proof.
  intros H.
  assert (Hout : get_output root (Some entries) debug_enabled max_depth
                   per_album no_quick_stats = NO_MUSIC).
  { unfold get_output.
    destruct (scan_folder_for_audio_recursive root (Some entries) max_depth
                debug_enabled) as [file_infos debug_lines] eqn:E.
    apply render_report_no_recognized, recognized_all_errors.
    pose proof (scan_folder_records root entries max_depth debug_enabled)
      as Hperm.
    rewrite E in Hperm. cbn [fst] in Hperm.
    rewrite Hperm. apply List.Forall_forall.
    intros fi Hfi. apply in_map_iff in Hfi as (c & <- & Hc).
    apply decode_fails_has_error, H, Hc. }
  split; [exact Hout|].
  rewrite Hout. symmetry.
  unfold get_output, scan_folder_for_audio_recursive, walk_root.
  cbn [fold_left]. rewrite results_log_debug. reflexivity.
Qed.

(** ** Error records and the totals *)

Lemma recognized_idempotent (file_infos : list file_info) :
  recognized (recognized file_infos) = recognized file_infos.
Proof.
  unfold recognized.
  induction file_infos as [|fi l IH]; cbn [List.filter]; [reflexivity|].
  destruct (negb (has_error fi)) eqn:E; cbn [List.filter]; [|exact IH].
  now rewrite E, IH.
Qed.

(** C5, as the program has it.  Every record returned by
    [to_uniform_dict], error record or not, carries the size and the
    content hash of its file.  The report is the one of the records
    without error tag alone: the error records count towards no figure of
    it, the total size included. *)
Theorem error_records_outside_report :
  (forall (file_path : string) (f : file) (fi : file_info),
      to_uniform_dict file_path f = Returns fi ->
      size_bytes fi = Some (default 0 (f_size f))
      /\ content_hash fi = sha1_of_file f)
  /\ (forall (root : string) (file_infos : list file_info)
             (debug_lines : list string)
             (debug_enabled per_album no_quick_stats : bool),
         render_report root file_infos debug_lines debug_enabled per_album
                       no_quick_stats
         = render_report root (recognized file_infos) debug_lines
                         debug_enabled per_album no_quick_stats).
Proof.
  split.
  - intros p f fi. unfold to_uniform_dict.
    destruct (f_decoded f) as [[|]| |cn info tv|b];
      try (intros [= <-]; now split); try discriminate.
    destruct (read_tags tv) as [[tm datas] v].
    destruct (parse_track_number tm) as [n t].
    intros [= <-]. now split.
  - intros. unfold render_report. now rewrite recognized_idempotent.
Qed.

(** ** Listing order *)

Lemma string_leb_trans (a b c : string) :
  String.leb a b = true -> String.leb b c = true -> String.leb a c = true.
Proof.
  intros H1 H2. apply Is_true_true.
  apply Is_true_true in H1, H2.
  change (String.le a c). now transitivity b.
Qed.

Section InsertCommutes.
Context {A : Type}.
Variable le : A -> A -> bool.

(** Two insertions commute when one element is strictly before the
    other. *)
Lemma insert_sorted_comm (x y : A) (l : list A) :
  le x y = true -> le y x = false ->
  (forall z, le y z = true -> le x z = true) ->
  insert_sorted le x (insert_sorted le y l)
  = insert_sorted le y (insert_sorted le x l).
Proof.
  intros Hxy Hyx Htrans.
  induction l as [|z l IH]; cbn [insert_sorted].
  - now rewrite Hxy, Hyx.
  - destruct (le y z) eqn:Hyz.
    + rewrite (Htrans z Hyz). cbn [insert_sorted].
      now rewrite Hxy, Hyx, Hyz.
    + cbn [insert_sorted].
      destruct (le x z) eqn:Hxz; cbn [insert_sorted].
      * now rewrite Hyx, Hyz.
      * now rewrite Hyz, IH.
Qed.
End InsertCommutes.

Lemma insert_sorted_comm_key {A : Type} (key : A -> string) (x y : A)
    (l : list A) :
  key x <> key y ->
  let le := fun a b => String.leb (key a) (key b) in
  insert_sorted le x (insert_sorted le y l)
  = insert_sorted le y (insert_sorted le x l).
Proof.
  intros Hne le.
  assert (Hstrict : forall a b, String.leb (key a) (key b) = true ->
                                 key a <> key b ->
                                 String.leb (key b) (key a) = false).
  { intros a b Hab Hn. destruct (String.leb (key b) (key a)) eqn:E; [|easy].
    destruct Hn. now apply String.leb_antisym. }
  destruct (String.leb_total (key x) (key y)) as [H|H].
  - apply insert_sorted_comm; subst le; cbn beta; auto.
    intros z. now apply string_leb_trans.
  - symmetry.
    apply insert_sorted_comm; subst le; cbn beta; auto.
    intros z. now apply string_leb_trans.
Qed.

(** Sorting by keys that are pairwise distinct forgets the order of the
    input. *)
Lemma sorted_by_key_perm {A : Type} (key : A -> string) (l l' : list A) :
  Permutation l l' -> List.NoDup (map key l) ->
  sorted_by_key key l = sorted_by_key key l'.
Proof.
  unfold sorted_by_key.
  induction 1 as [|x l l' Hp IH|x y l|l l' l'' Hp1 IH1 Hp2 IH2];
    intros Hnd; cbn [py_sorted fold_right].
  - reflexivity.
  - f_equal. apply IH. now inversion Hnd.
  - apply insert_sorted_comm_key.
    cbn [map] in Hnd. inversion Hnd as [|? ? Hin _]. subst.
    intros E. apply Hin. now left.
  - rewrite IH1 by assumption. apply IH2.
    eapply Permutation_NoDup; [|exact Hnd].
    now apply Permutation_map.
Qed.

Lemma same_tree_candidates (es es' : list entry) :
  same_tree es es' ->
  forall (k : nat) (dir : string),
    Permutation (candidates_dfs k dir es) (candidates_dfs k dir es').
Proof.
  induction 1 as [|name sub sub' l l' _ IHsub _ IHl|e l l' _ IH|e1 e2 l
                 |l1 l2 l3 _ IH1 _ IH2];
    intros k dir; rewrite ?candidates_dfs_cons.
  - reflexivity.
  - apply Permutation_app; [|apply IHl].
    destruct k; [reflexivity | apply IHsub].
  - apply Permutation_app_head, IH.
  - rewrite !app_assoc. apply Permutation_app_tail, Permutation_app_comm.
  - now rewrite IH1.
Qed.

Lemma debug_lines_log_false (line : string) (st : scan_state) :
  log_debug false line st = st.
Proof. reflexivity. Qed.

Lemma walk_entries_debug_off (max_depth : Z) :
  forall (k : nat) (current_depth : Z) (dir : string) (es : list entry)
         (st : scan_state),
    k = Z.to_nat (max_depth - current_depth) ->
    debug_lines
      (fold_left
         (fun st' e => walk_entry max_depth false dir current_depth e st')
         es st)
    = debug_lines st.
Proof.
  induction k as [|k IHk]; intros depth dir es;
    induction es as [|e es IHes]; intros st Hk;
    cbn [fold_left]; try reflexivity;
    rewrite (IHes _ Hk);
    destruct e as [name f|name sub|name|name]; cbn [walk_entry];
    rewrite ?debug_lines_log_false; try reflexivity;
    try (destruct (depth <? max_depth); reflexivity);
    try (destruct (should_consider name); [|reflexivity];
         destruct (to_uniform_dict _ f) as [fi|[|]]; reflexivity).
  - destruct (depth <? max_depth) eqn:E; [apply Z.ltb_lt in E; lia|].
    reflexivity.
  - destruct (depth <? max_depth) eqn:E; [|reflexivity].
    apply IHk. apply Z.ltb_lt in E. lia.
Qed.

Lemma sort_key_record_of (c : string * file) :
  sort_key (record_of c) = lower (path_name (fst c)).
Proof.
  unfold sort_key, record_of, to_uniform_dict.
  destruct (f_decoded (snd c)) as [[|]| |cn info tv|[|]]; try reflexivity.
  destruct (read_tags tv) as [[tm datas] v].
  now destruct (parse_track_number tm).
Qed.

(** C7, as the program has it.  For one interpreter, with the debug trace
    off, two listings of the same tree give the same report text whatever
    the order in which each directory yields its entries, provided the
    candidate files within the depth bound have pairwise distinct
    lower-cased names. *)
Theorem report_independent_of_listing_order (root : string)
    (entries entries' : list entry) (max_depth : Z)
    (per_album no_quick_stats : bool) :
  same_tree entries entries' ->
  List.NoDup (map (fun c => lower (path_name (fst c)))
             (candidates_upto (Z.to_nat max_depth) root entries)) ->
  get_output root (Some entries) false max_depth per_album no_quick_stats
  = get_output root (Some entries') false max_depth per_album
               no_quick_stats.
Proof.
  intros Hsame Hnd.
  unfold get_output, scan_folder_for_audio_recursive.
  assert (Hdbg : forall es,
             debug_lines (walk_root root (Some es) max_depth false) = []).
  { intros es. unfold walk_root.
    now rewrite (walk_entries_debug_off _ (Z.to_nat max_depth))
      by (f_equal; lia). }
  rewrite !Hdbg, !scan_results. f_equal.
  apply sorted_by_key_perm.
  - apply Permutation_map, same_tree_candidates, Hsame.
  - rewrite map_map.
    erewrite map_ext by (intros c; apply sort_key_record_of).
    eapply Permutation_NoDup; [|exact Hnd].
    apply Permutation_map. symmetry. apply candidates_dfs_upto.
Qed.

(** ** Binary64 arithmetic *)

#[local] Open Scope Q_scope.

Lemma Qround_half_even_bounds (x : Q) :
  inject_Z (Qround_half_even x) - (1 # 2) <= x
  /\ x <= inject_Z (Qround_half_even x) + (1 # 2).
Proof.
  unfold Qround_half_even; cbv zeta.
  pose proof (Qfloor_le x) as Hlo. pose proof (Qlt_floor x) as Hhi.
  rewrite inject_Z_plus in Hhi. change (inject_Z 1) with 1 in Hhi.
  destruct (Qcompare_spec (x - inject_Z (Qfloor x)) (1 # 2)) as [E|E|E];
    [destruct (Z.even (Qfloor x))|..];
    rewrite ?inject_Z_plus; change (inject_Z 1) with 1; split; lra.
Qed.

Lemma Qround_half_even_floor (x : Q) :
  (Qfloor x <= Qround_half_even x <= Qfloor x + 1)%Z.
Proof.
  unfold Qround_half_even; cbv zeta.
  destruct (Qcompare _ _); [destruct (Z.even _)|..]; lia.
Qed.

Lemma Qround_half_even_mono (x y : Q) :
  x <= y -> (Qround_half_even x <= Qround_half_even y)%Z.
Proof.
  intros Hxy. pose proof (Qfloor_resp_le _ _ Hxy) as Hf.
  destruct (Z.eq_dec (Qfloor x) (Qfloor y)) as [E|NE].
  - unfold Qround_half_even; cbv zeta. rewrite <- E.
    destruct (Qcompare_spec (x - inject_Z (Qfloor x)) (1 # 2)),
             (Qcompare_spec (y - inject_Z (Qfloor x)) (1 # 2));
      try lia; try (destruct (Z.even _); lia); exfalso; lra.
  - pose proof (Qround_half_even_floor x). pose proof (Qround_half_even_floor y).
    lia.
Qed.

Lemma Qround_half_even_Z (k : Z) : Qround_half_even (inject_Z k) = k.
Proof.
  unfold Qround_half_even; cbv zeta. rewrite Qfloor_Z.
  destruct (Qcompare_spec (inject_Z k - inject_Z k) (1 # 2)) as [E|E|E];
    [exfalso; lra | reflexivity | exfalso; lra].
Qed.

Lemma pow2_pos (e : Z) : 0 < pow2 e.
Proof. now apply Qpower_0_lt. Qed.

Lemma pow2_add (a b : Z) : pow2 (a + b) == pow2 a * pow2 b.
Proof. now apply Qpower_plus. Qed.

Lemma pow2_le (a b : Z) : (a <= b)%Z -> pow2 a <= pow2 b.
Proof. intros H. now apply Qpower_le_compat_l. Qed.

Lemma pow2_lt_inv (a b : Z) : pow2 a < pow2 b -> (a < b)%Z.
Proof. intros H. now apply (Qpower_lt_compat_l_inv 2). Qed.

Lemma pow2_Z (e : Z) : (0 <= e)%Z -> pow2 e == inject_Z (2 ^ e).
Proof. intros H. unfold pow2. now rewrite Zpower_Qpower. Qed.

Lemma pow2_succ (a : Z) : pow2 (a + 1) == 2 * pow2 a.
Proof. rewrite pow2_add. change (pow2 1) with 2. ring. Qed.

(** The integer bounds of [Z.log2], as rationals. *)
Lemma log2_bounds_Q (a : Z) :
  (0 < a)%Z ->
  pow2 (Z.log2 a) <= inject_Z a /\ inject_Z a < 2 * pow2 (Z.log2 a).
Proof.
  intros Ha. destruct (Z.log2_spec a Ha) as [Hlo Hhi].
  pose proof (Z.log2_nonneg a) as Hnn.
  rewrite pow2_Z by assumption.
  split.
  - now rewrite <- Zle_Qle.
  - change 2 with (inject_Z 2). rewrite <- inject_Z_mult, <- Zlt_Qlt.
    rewrite <- Z.pow_succ_r by assumption. exact Hhi.
Qed.

Lemma binade_spec (x : Q) :
  0 < x -> pow2 (binade x) <= x /\ x < pow2 (binade x + 1).
Proof.
  intros Hx. unfold binade.
  destruct x as [a b]. cbn [Qnum Qden].
  assert (Ha : (0 < a)%Z).
  { unfold Qlt in Hx. cbn in Hx. lia. }
  destruct (log2_bounds_Q a Ha) as [Ha1 Ha2].
  destruct (log2_bounds_Q (Zpos b) eq_refl) as [Hb1 Hb2].
  set (la := Z.log2 a) in *. set (lb := Z.log2 (Zpos b)) in *.
  pose proof (pow2_pos la) as Hpa. pose proof (pow2_pos lb) as Hpb.
  pose proof (pow2_pos (la - lb)) as Hk.
  assert (Hab : a # b == inject_Z a / inject_Z (Zpos b)) by apply Qmake_Qdiv.
  assert (Hpk : pow2 (la - lb) * pow2 lb == pow2 la).
  { rewrite <- pow2_add. now replace (la - lb + lb)%Z with la by lia. }
  assert (HB : 0 < inject_Z (Zpos b)) by lra.
  assert (Hup : a # b < 2 * pow2 (la - lb)).
  { rewrite Hab. apply Qlt_shift_div_r; [assumption|]. nra. }
  assert (Hdn : pow2 (la - lb) <= 2 * (a # b)).
  { rewrite Hab.
    setoid_replace (2 * (inject_Z a / inject_Z (Z.pos b)))
      with ((2 * inject_Z a) / inject_Z (Z.pos b)) using relation Qeq
      by (field; lra).
    apply Qle_shift_div_l; [assumption|]. nra. }
  destruct (Qle_bool (pow2 (la - lb)) (a # b)) eqn:E.
  - apply Qle_bool_iff in E. split; [assumption|].
    now rewrite pow2_succ.
  - assert (Hlt : a # b < pow2 (la - lb)).
    { apply Qnot_le_lt. intros H. apply Qle_bool_iff in H. congruence. }
    replace (la - lb - 1 + 1)%Z with (la - lb)%Z by lia.
    split; [|assumption].
    pose proof (pow2_succ (la - lb - 1)) as Hs.
    replace (la - lb - 1 + 1)%Z with (la - lb)%Z in Hs by lia.
    lra.
Qed.

Lemma binade_mono (x y : Q) : 0 < x -> x <= y -> (binade x <= binade y)%Z.
Proof.
  intros Hx Hxy.
  destruct (binade_spec x Hx) as [Hx1 _].
  destruct (binade_spec y) as [_ Hy2]; [lra|].
  assert (H : pow2 (binade x) < pow2 (binade y + 1)) by lra.
  apply pow2_lt_inv in H. lia.
Qed.

Lemma scaled_round_mono (e : Z) (x y : Q) :
  x <= y ->
  inject_Z (Qround_half_even (x / pow2 e)) * pow2 e
  <= inject_Z (Qround_half_even (y / pow2 e)) * pow2 e.
Proof.
  intros Hxy. pose proof (pow2_pos e) as He.
  apply Qmult_le_r; [assumption|].
  rewrite <- Zle_Qle. apply Qround_half_even_mono.
  apply Qle_shift_div_l; [assumption|].
  setoid_replace (x / pow2 e * pow2 e) with x using relation Qeq
    by (field; lra).
  assumption.
Qed.

Lemma round64_pos_nonneg (x : Q) : 0 < x -> 0 <= round64_pos x.
Proof.
  intros Hx. unfold round64_pos; cbv zeta.
  set (e := ulp_exponent x). pose proof (pow2_pos e) as He.
  apply Qmult_le_0_compat; [|lra].
  change 0 with (inject_Z 0). rewrite <- Zle_Qle.
  rewrite <- (Qround_half_even_Z 0). apply Qround_half_even_mono.
  change (inject_Z 0) with 0.
  apply Qle_shift_div_l; [assumption|]. lra.
Qed.

(** A positive number rounds to at least the power of two of its binade,
    unless it is subnormal. *)
Lemma round64_pos_ge_pow2 (y : Q) :
  0 < y -> (ulp_exponent y <= binade y)%Z ->
  pow2 (binade y) <= round64_pos y.
Proof.
  intros Hy He. unfold round64_pos; cbv zeta.
  set (e := ulp_exponent y) in *.
  destruct (binade_spec y Hy) as [Hlo _].
  pose proof (pow2_pos e) as Hpe.
  assert (Hsplit : pow2 (binade y) == inject_Z (2 ^ (binade y - e)) * pow2 e).
  { rewrite <- pow2_Z by lia. rewrite <- pow2_add.
    now replace (binade y - e + e)%Z with (binade y) by lia. }
  rewrite Hsplit.
  apply Qmult_le_r; [assumption|].
  rewrite <- Zle_Qle.
  rewrite <- (Qround_half_even_Z (2 ^ (binade y - e))).
  apply Qround_half_even_mono.
  apply Qle_shift_div_l; [assumption|].
  now rewrite <- Hsplit.
Qed.

(** A positive number rounds to at most the next power of two. *)
Lemma round64_pos_le_pow2 (x : Q) :
  0 < x -> round64_pos x <= pow2 (binade x + 1).
Proof.
  intros Hx. unfold round64_pos; cbv zeta.
  set (e := ulp_exponent x).
  destruct (binade_spec x Hx) as [_ Hhi].
  pose proof (pow2_pos e) as Hpe.
  destruct (Z_le_gt_dec 0 (binade x + 1 - e)) as [Hm|Hm].
  - assert (Hsplit :
      pow2 (binade x + 1) == inject_Z (2 ^ (binade x + 1 - e)) * pow2 e).
    { rewrite <- pow2_Z by lia. rewrite <- pow2_add.
      now replace (binade x + 1 - e + e)%Z with (binade x + 1)%Z by lia. }
    rewrite Hsplit.
    apply Qmult_le_r; [assumption|].
    rewrite <- Zle_Qle.
    rewrite <- (Qround_half_even_Z (2 ^ (binade x + 1 - e))).
    apply Qround_half_even_mono.
    apply Qle_shift_div_r; [assumption|].
    rewrite <- Hsplit. lra.
  - assert (Hle : pow2 (binade x + 1) <= (1 # 2) * pow2 e).
    { change (1 # 2) with (pow2 (-1)). rewrite <- pow2_add.
      apply pow2_le. lia. }
    assert (Hr : (Qround_half_even (x / pow2 e) <= 0)%Z).
    { change 0%Z with (Qround_half_even (1 # 2)).
      apply Qround_half_even_mono.
      apply Qle_shift_div_r; [assumption|]. lra. }
    rewrite Zle_Qle in Hr. change (inject_Z 0) with 0 in Hr.
    pose proof (pow2_pos (binade x + 1)). nra.
Qed.

Lemma ulp_exponent_mono (x y : Q) :
  0 < x -> x <= y -> (ulp_exponent x <= ulp_exponent y)%Z.
Proof.
  intros Hx Hxy. unfold ulp_exponent.
  pose proof (binade_mono x y Hx Hxy). lia.
Qed.

Lemma round64_pos_mono (x y : Q) :
  0 < x -> x <= y -> round64_pos x <= round64_pos y.
Proof.
  intros Hx Hxy.
  assert (Hy : 0 < y) by lra.
  pose proof (ulp_exponent_mono x y Hx Hxy) as He.
  destruct (Z.eq_dec (ulp_exponent x) (ulp_exponent y)) as [E|NE].
  - unfold round64_pos; cbv zeta. rewrite E. now apply scaled_round_mono.
  - assert (Hb : (binade x + 1 <= binade y)%Z
                 /\ (ulp_exponent y <= binade y)%Z).
    { unfold ulp_exponent in *. lia. }
    destruct Hb as [Hb1 Hb2].
    pose proof (round64_pos_le_pow2 x Hx).
    pose proof (round64_pos_ge_pow2 y Hy Hb2).
    pose proof (pow2_le _ _ Hb1). lra.
Qed.

Lemma rnd64_nonneg (x : Q) : 0 <= x -> 0 <= rnd64 x.
Proof.
  intros Hx. unfold rnd64.
  destruct (Qcompare_spec x 0) as [E|E|E]; [lra | lra |].
  rewrite Qred_correct. now apply round64_pos_nonneg.
Qed.

(** Rounding to binary64 is monotone. *)
Lemma rnd64_mono (x y : Q) : 0 <= x -> x <= y -> rnd64 x <= rnd64 y.
Proof.
  intros Hx Hxy. unfold rnd64 at 1.
  destruct (Qcompare_spec x 0) as [E|E|E].
  - apply rnd64_nonneg. lra.
  - lra.
  - unfold rnd64.
    destruct (Qcompare_spec y 0) as [E'|E'|E']; [lra | lra |].
    rewrite !Qred_correct. now apply round64_pos_mono.
Qed.

Lemma rnd64_le (x c : Q) : 0 <= x -> x <= c -> rnd64 c == c -> rnd64 x <= c.
Proof. intros Hx Hxc Hc. rewrite <- Hc. now apply rnd64_mono. Qed.

(** ** The health score *)

Lemma inject_Z_minus (x y : Z) : inject_Z (x - y) = inject_Z x - inject_Z y.
Proof.
  unfold Z.sub, Qminus. now rewrite inject_Z_plus, inject_Z_opp.
Qed.

(** Moves [inject_Z] to the variables and turns it into a numeral on the
    constants. *)
Ltac push_inject_Z :=
  repeat first
    [ rewrite inject_Z_plus | rewrite inject_Z_minus | rewrite inject_Z_mult
    | rewrite inject_Z_opp ];
  repeat match goal with
         | |- context [inject_Z (Zpos ?c)] =>
             change (inject_Z (Zpos c)) with (Zpos c # 1)
         end.

Lemma rnd64_unit_interval (x : Q) : 0 <= x -> x <= 1 -> 0 <= rnd64 x <= 1.
Proof.
  intros H0 H1. split; [now apply rnd64_nonneg|].
  apply rnd64_le; [assumption | assumption | reflexivity].
Qed.

Lemma health_of_ratio_range (x : Q) :
  0 <= x -> x <= 1 -> (0 <= health_of_ratio x <= 100)%Z.
Proof.
  intros H0 H1. unfold health_of_ratio, float_mul, float_sub.
  destruct (rnd64_unit_interval x H0 H1) as [Hq0 Hq1].
  destruct (rnd64_unit_interval (1 - rnd64 x)) as [Hr0 Hr1]; [lra | lra |].
  set (r := rnd64 (1 - rnd64 x)) in *.
  assert (Hs0 : 0 <= rnd64 (100 * r)) by (apply rnd64_nonneg; lra).
  assert (Hs1 : rnd64 (100 * r) <= 100)
    by (apply rnd64_le; [lra | lra | reflexivity]).
  split.
  - rewrite <- (Qround_half_even_Z 0). now apply Qround_half_even_mono.
  - rewrite <- (Qround_half_even_Z 100). now apply Qround_half_even_mono.
Qed.

(** The larger the ratio of penalty units, the lower the score. *)
Lemma health_of_ratio_antitone (x y : Q) :
  0 <= x -> x <= y -> y <= 1 ->
  (health_of_ratio y <= health_of_ratio x)%Z.
Proof.
  intros H0 Hxy H1. unfold health_of_ratio, float_mul, float_sub.
  assert (Hq : rnd64 x <= rnd64 y) by now apply rnd64_mono.
  destruct (rnd64_unit_interval y) as [_ Hy1]; [lra | lra |].
  assert (Hr : rnd64 (1 - rnd64 y) <= rnd64 (1 - rnd64 x))
    by (apply rnd64_mono; lra).
  assert (Hr0 : 0 <= rnd64 (1 - rnd64 y)) by (apply rnd64_nonneg; lra).
  apply Qround_half_even_mono, rnd64_mono; lra.
Qed.

Lemma health_of_ratio_Qeq (x y : Q) :
  0 <= x -> x <= 1 -> x == y -> health_of_ratio x = health_of_ratio y.
Proof.
  intros H0 H1 E.
  apply Z.le_antisymm; apply health_of_ratio_antitone; lra.
Qed.

Lemma health_percent_ratio (total_albums warn_albums crit_albums : Z) :
  (0 < total_albums)%Z ->
  health_percent total_albums warn_albums crit_albums
  = health_of_ratio
      (inject_Z (warn_albums + 2 * crit_albums) / inject_Z (2 * total_albums)).
Proof.
  intros H. unfold health_percent, health_of_ratio, int_true_div.
  apply Z.ltb_lt in H. rewrite H. reflexivity.
Qed.

Lemma ratio_unit_interval (p m : Z) :
  (0 <= p <= m)%Z -> (0 < m)%Z ->
  0 <= inject_Z p / inject_Z m /\ inject_Z p / inject_Z m <= 1.
Proof.
  intros [Hp Hpm] Hm.
  rewrite Zle_Qle in Hp, Hpm. rewrite Zlt_Qlt in Hm.
  change (inject_Z 0) with 0 in *.
  split.
  - apply Qle_shift_div_l; [assumption | lra].
  - apply Qle_shift_div_r; [assumption | lra].
Qed.

Lemma in_Z_range (k : Z) (n : nat) :
  (0 <= k < Z.of_nat n)%Z -> In k (map Z.of_nat (seq 0 n)).
Proof.
  intros H. apply in_map_iff. exists (Z.to_nat k).
  split; [lia|]. apply in_seq. lia.
Qed.

Lemma range_checked_all (k : Z) :
  (0 <= k <= 100)%Z -> range_checked k = true.
Proof.
  intros H.
  assert (Hall : forallb range_checked (map Z.of_nat (seq 0 101)) = true)
    by (vm_compute; reflexivity).
  rewrite forallb_forall in Hall. apply Hall, in_Z_range. lia.
Qed.

Lemma tie_checked_all (k : Z) : (0 <= k <= 99)%Z -> tie_checked k = true.
Proof.
  intros H.
  assert (Hall : forallb tie_checked (map Z.of_nat (seq 0 100)) = true)
    by (vm_compute; reflexivity).
  rewrite forallb_forall in Hall. apply Hall, in_Z_range. lia.
Qed.

Lemma Z2Q_le (a b : Z) : (a <= b)%Z -> inject_Z a <= inject_Z b.
Proof. now rewrite <- Zle_Qle. Qed.

Lemma Z2Q_lt (a b : Z) : (a < b)%Z -> inject_Z a < inject_Z b.
Proof. now rewrite <- Zlt_Qlt. Qed.

(** Bounds on a quotient from bounds on its numerator. *)
Lemma quotient_ge (a x M P : Q) :
  0 < M -> x * M == P -> a * M <= P -> a <= x.
Proof.
  intros HM HxM H. apply Qnot_lt_le. intros Hn.
  assert (0 < (a - x) * M) by (apply Qmult_lt_0_compat; lra).
  lra.
Qed.

Lemma quotient_le (a x M P : Q) :
  0 < M -> x * M == P -> P <= a * M -> x <= a.
Proof.
  intros HM HxM H. apply Qnot_lt_le. intros Hn.
  assert (0 < (x - a) * M) by (apply Qmult_lt_0_compat; lra).
  lra.
Qed.

Lemma quotient_lt (a x M P : Q) :
  0 < M -> x * M == P -> P < a * M -> x < a.
Proof.
  intros HM HxM H. apply Qnot_le_lt. intros Hn.
  assert (0 <= (x - a) * M) by (apply Qmult_le_0_compat; lra).
  lra.
Qed.

(** The score at a ratio [x = P / M] that lies in the range of [k], a tie
    at its lower end included: the rational part of the argument. *)
Lemma health_near_in_range (k : Z) (K x M P : Q) :
  inject_Z k = K -> (0 <= k <= 100)%Z ->
  0 < M -> M <= 17592186044416 -> x * M == P -> 0 <= x -> x <= 1 ->
  (2 * K - 1) * M <= 200 * P ->
  1 <= (2 * K + 1) * M - 200 * P ->
  ((1 <= k)%Z /\ (2 * K - 1) * M == 200 * P)
  \/ 1 <= 200 * P - (2 * K - 1) * M ->
  inject_Z (health_of_ratio x) - (1 # 2) <= 100 * (1 - x)
  /\ 100 * (1 - x) <= inject_Z (health_of_ratio x) + (1 # 2).
Proof.
  intros HKeq Hk100 HM HMmax HxM Hx0 Hx1 Hlo Hgap' Hcase.
  assert (HK0 : 0 <= K) by (rewrite <- HKeq; apply (Z2Q_le 0); lia).
  assert (Hxlo : (2 * K - 1) * (1 # 200) <= x)
    by (apply (quotient_ge _ x M P); lra).
  assert (Hxhi : x < (2 * K + 1) * (1 # 200))
    by (apply (quotient_lt _ x M P); lra).
  destruct Hcase as [[Hk1 Htie]|Hgap].
  - (* the exact health is half-way between two integers *)
    assert (Hxt' : x == (2 * K - 1) * (1 # 200))
      by (apply Qle_antisym; [apply (quotient_le _ x M P) | ]; lra).
    assert (Hxt : x == tie_ratio (k - 1)).
    { unfold tie_ratio. replace (2 * (k - 1) + 1)%Z with (2 * k - 1)%Z by lia.
      push_inject_Z. now rewrite HKeq. }
    rewrite (health_of_ratio_Qeq _ _ Hx0 Hx1 Hxt).
    pose proof (tie_checked_all (k - 1)) as Hc.
    unfold tie_checked in Hc.
    rewrite orb_true_iff, !Z.eqb_eq in Hc.
    destruct Hc as [-> | ->]; [lia | |];
      push_inject_Z; rewrite HKeq; split; lra.
  - (* the ratio is inside the range, at least [MARGIN] away from its
       ends *)
    pose proof (range_checked_all k Hk100) as Hc.
    unfold range_checked in Hc.
    rewrite andb_true_iff, !Z.eqb_eq in Hc. destruct Hc as [Hc1 Hc2].
    assert (Hrl : 0 <= range_low k /\ range_low k <= x).
    { unfold range_low. destruct (k =? 0)%Z eqn:E; [lra|].
      apply Z.eqb_neq in E.
      unfold tie_ratio. replace (2 * (k - 1) + 1)%Z with (2 * k - 1)%Z by lia.
      push_inject_Z. rewrite HKeq.
      change MARGIN with (1 # 3518437208883200).
      assert (HK1 : 1 <= K) by (rewrite <- HKeq; apply (Z2Q_le 1); lia).
      split; [lra|]. apply (quotient_ge _ x M P); lra. }
    assert (Hrh : x <= range_high k /\ range_high k <= 1).
    { unfold range_high. destruct (k =? 100)%Z eqn:E; [lra|].
      apply Z.eqb_neq in E.
      unfold tie_ratio. push_inject_Z. rewrite HKeq.
      change MARGIN with (1 # 3518437208883200).
      assert (HK99 : K <= 99) by (rewrite <- HKeq; apply (Z2Q_le k 99); lia).
      split; [apply (quotient_le _ x M P) | ]; lra. }
    assert (Hh : health_of_ratio x = (100 - k)%Z).
    { apply Z.le_antisymm.
      - rewrite <- Hc1. apply health_of_ratio_antitone; tauto || lra.
      - rewrite <- Hc2. apply health_of_ratio_antitone; tauto || lra. }
    rewrite Hh. push_inject_Z. rewrite HKeq.
    split; lra.
Qed.

(** The score is an integer nearest to the exact health, for every ratio
    [p / m] of integers with [m] up to twice [MAX_ALBUMS]. *)
Lemma health_of_ratio_nearest (p m : Z) :
  (0 <= p <= m)%Z -> (0 < m <= 2 * MAX_ALBUMS)%Z ->
  let x := inject_Z p / inject_Z m in
  inject_Z (health_of_ratio x) - (1 # 2) <= 100 * (1 - x)
  /\ 100 * (1 - x) <= inject_Z (health_of_ratio x) + (1 # 2).
Proof.
  intros Hp Hm x.
  destruct (ratio_unit_interval p m Hp (proj1 Hm)) as [Hx0 Hx1].
  set (k := ((200 * p + m) / (2 * m))%Z).
  assert (Hk : (2 * m * k <= 200 * p + m < 2 * m * k + 2 * m)%Z).
  { pose proof (Z.mul_div_le (200 * p + m) (2 * m)).
    pose proof (Z.mul_succ_div_gt (200 * p + m) (2 * m)).
    fold k in H, H0. lia. }
  assert (Hk100 : (0 <= k <= 100)%Z) by nia.
  apply (health_near_in_range k (inject_Z k) x (inject_Z m) (inject_Z p));
    try assumption; try reflexivity.
  - apply (Z2Q_lt 0). lia.
  - apply (Z2Q_le m (2 * MAX_ALBUMS)). lia.
  - subst x. field. apply Qnot_eq_sym, Qlt_not_eq, (Z2Q_lt 0). lia.
  - assert (H : ((2 * k - 1) * m <= 200 * p)%Z) by lia.
    apply Z2Q_le in H. revert H. now push_inject_Z.
  - assert (H : (1 <= (2 * k + 1) * m - 200 * p)%Z) by lia.
    apply Z2Q_le in H. revert H. now push_inject_Z.
  - destruct (Z.eq_dec ((2 * k - 1) * m)%Z (200 * p)%Z) as [Heq|Hno].
    + left. split; [nia|].
      apply (f_equal inject_Z) in Heq. revert Heq. push_inject_Z.
      now intros ->.
    + right.
      assert (H : (1 <= 200 * p - (2 * k - 1) * m)%Z) by lia.
      apply Z2Q_le in H. revert H. now push_inject_Z.
Qed.

(** [rnd64] gives the results of the binary64 operations of the standard
    library, on every ratio [p / m] with [0 <= p <= m <= 60]. *)
Lemma rnd64_agrees_with_spec_float :
  forallb (fun m => forallb (fun p => agrees_with_spec_float (Z.of_nat p)
                                                             (Z.of_nat m))
                            (seq 0 (S m)))
          (seq 1 60)
  = true.
Proof. vm_compute. reflexivity. Qed.

(** At a tie the score is either neighbour: 57.5 gives 57 and 42.5 gives
    43. *)
Lemma health_percent_at_ties :
  exact_health 20 17 0 == 115 # 2 /\ health_percent 20 17 0 = 57%Z
  /\ exact_health 20 17 3 == 85 # 2 /\ health_percent 20 17 3 = 43%Z.
Proof. repeat split; vm_compute; reflexivity. Qed.

(** The nearest integer is the only integer less than one half away. *)
Lemma Qround_half_even_unique (x : Q) (h : Z) :
  inject_Z h - (1 # 2) < x -> x < inject_Z h + (1 # 2) ->
  Qround_half_even x = h.
Proof.
  intros Hlo Hhi.
  destruct (Qround_half_even_bounds x) as [Hr1 Hr2].
  set (r := Qround_half_even x) in *.
  assert (H1 : inject_Z h < inject_Z r + 1) by lra.
  assert (H2 : inject_Z r < inject_Z h + 1) by lra.
  change 1 with (inject_Z 1) in H1, H2.
  rewrite <- inject_Z_plus, <- Zlt_Qlt in H1, H2. lia.
Qed.

(** C1, as the program has it.  For album counts with [warn + crit <=
    total], the score is 100 for an empty library and always lies between 0
    and 100.  Up to [MAX_ALBUMS] albums it is an integer nearest to the
    exact value of [100 * (1 - (warn + 2 * crit) / (2 * total))], and it is
    the rounding of that value whenever the value is not half-way between
    two integers; at a half-way value it is one of the two neighbours. *)
Theorem health_percent_spec (total_albums warn_albums crit_albums : Z) :
  (0 <= warn_albums)%Z -> (0 <= crit_albums)%Z ->
  (warn_albums + crit_albums <= total_albums)%Z ->
  (total_albums = 0%Z ->
   health_percent total_albums warn_albums crit_albums = 100%Z)
  /\ (0 <= health_percent total_albums warn_albums crit_albums <= 100)%Z
  /\ ((0 < total_albums <= MAX_ALBUMS)%Z ->
      (inject_Z (health_percent total_albums warn_albums crit_albums)
       - (1 # 2)
       <= exact_health total_albums warn_albums crit_albums
       /\ exact_health total_albums warn_albums crit_albums
          <= inject_Z (health_percent total_albums warn_albums crit_albums)
             + (1 # 2))
      /\ ((forall k : Z,
             ~ exact_health total_albums warn_albums crit_albums
               == inject_Z k + (1 # 2)) ->
          health_percent total_albums warn_albums crit_albums
          = Qround_half_even
              (exact_health total_albums warn_albums crit_albums))).
Proof.
  intros Hw Hc Hn.
  split; [|split].
  - intros ->. reflexivity.
  - destruct (Z_lt_le_dec 0 total_albums) as [Hpos|Hz].
    + rewrite health_percent_ratio by assumption.
      destruct (ratio_unit_interval (warn_albums + 2 * crit_albums)
                  (2 * total_albums)) as [H0 H1]; [lia | lia |].
      now apply health_of_ratio_range.
    + unfold health_percent.
      destruct (0 <? total_albums)%Z eqn:E; [apply Z.ltb_lt in E; lia | lia].
  - intros [Hpos Hmax].
    assert (Hnear :
              inject_Z (health_percent total_albums warn_albums crit_albums)
              - (1 # 2)
              <= exact_health total_albums warn_albums crit_albums
              /\ exact_health total_albums warn_albums crit_albums
                 <= inject_Z
                      (health_percent total_albums warn_albums crit_albums)
                    + (1 # 2)).
    { rewrite health_percent_ratio by assumption.
      unfold exact_health.
      apply (health_of_ratio_nearest (warn_albums + 2 * crit_albums)
               (2 * total_albums)); lia. }
    split; [exact Hnear|].
    intros Hnotie. symmetry.
    set (h := health_percent total_albums warn_albums crit_albums) in *.
    set (e := exact_health total_albums warn_albums crit_albums) in *.
    destruct Hnear as [Hlo Hhi].
    apply Qround_half_even_unique.
    + apply Qle_lt_or_eq in Hlo as [Hlt|Heq]; [assumption|].
      exfalso. apply (Hnotie (h - 1)%Z).
      rewrite inject_Z_minus. change (inject_Z 1) with 1. lra.
    + apply Qle_lt_or_eq in Hhi as [Hlt|Heq]; [assumption|].
      exfalso. now apply (Hnotie h).
Qed.
#[local] Close Scope Q_scope.

(** * More properties of the program *)

(** ** Sorting: order and stability *)

Section SortedByKey.
Context {A : Type}.
Variable key : A -> string.

Let le (x y : A) : bool := String.leb (key x) (key y).

Lemma insert_sorted_sorted (x : A) (l : list A) :
  Sorted (fun a b => le a b = true) l ->
  Sorted (fun a b => le a b = true) (insert_sorted le x l).
Proof.
  induction l as [|y l IH]; cbn [insert_sorted]; intros Hs.
  - repeat constructor.
  - destruct (le x y) eqn:E.
    + constructor; [assumption|]. now constructor.
    + inversion Hs as [|? ? Hs' Hhd]; subst.
      constructor; [now apply IH|].
      assert (Hyx : le y x = true).
      { unfold le in *. destruct (String.leb_total (key x) (key y)); congruence. }
      destruct l as [|z l]; cbn [insert_sorted].
      * now constructor.
      * destruct (le x z); constructor; [assumption|].
        now inversion Hhd.
Qed.

Lemma sorted_by_key_sorted (l : list A) :
  StronglySorted (fun a b => String.leb (key a) (key b) = true)
                 (sorted_by_key key l).
Proof.
  apply Sorted_StronglySorted.
  - intros a b c. apply string_leb_trans.
  - unfold sorted_by_key.
    induction l as [|x l IH]; cbn [py_sorted fold_right]; [constructor|].
    now apply (insert_sorted_sorted x).
Qed.

Lemma insert_sorted_filter (k : string) (x : A) (l : list A) :
  List.filter (fun a => String.eqb (key a) k) (insert_sorted le x l)
  = List.filter (fun a => String.eqb (key a) k) (x :: l).
Proof.
  induction l as [|y l IH]; cbn [insert_sorted]; [reflexivity|].
  destruct (le x y) eqn:E; [reflexivity|].
  cbn [List.filter] in *. rewrite IH.
  destruct (String.eqb (key x) k) eqn:Ex; [|reflexivity].
  destruct (String.eqb (key y) k) eqn:Ey; [|reflexivity].
  apply String.eqb_eq in Ex, Ey. unfold le in E.
  rewrite Ex, Ey in E.
  destruct (String.leb_total k k); congruence.
Qed.

Lemma sorted_by_key_stable (k : string) (l : list A) :
  List.filter (fun a => String.eqb (key a) k) (sorted_by_key key l)
  = List.filter (fun a => String.eqb (key a) k) l.
Proof.
  unfold sorted_by_key, py_sorted.
  induction l as [|x l IH]; cbn [fold_right]; [reflexivity|].
  rewrite (insert_sorted_filter k x). cbn [List.filter]. now rewrite IH.
Qed.

End SortedByKey.

(** X1.  The records returned by the scan are in non-decreasing order of
    their lower-cased file names, and the final sort is stable: the
    records whose lower-cased file names are equal come out in the order in
    which the walk met them. *)
Theorem scan_results_sorted_stable (root : string)
    (root_listing : option (list entry)) (max_depth : Z)
    (debug_enabled : bool) :
  StronglySorted
    (fun a b => String.leb (lower (file_name a)) (lower (file_name b)) = true)
    (fst (scan_folder_for_audio_recursive root root_listing max_depth
            debug_enabled))
  /\ forall k,
       List.filter (fun fi => String.eqb (lower (file_name fi)) k)
         (fst (scan_folder_for_audio_recursive root root_listing max_depth
                 debug_enabled))
       = List.filter (fun fi => String.eqb (lower (file_name fi)) k)
           (results (walk_root root root_listing max_depth debug_enabled)).
Proof.
  split.
  - apply (sorted_by_key_sorted sort_key).
  - intros k. apply (sorted_by_key_stable sort_key).
Qed.

(** X2.  The albums of the report are in non-decreasing order of their
    lower-cased display names, and albums with the same lower-cased
    display name stay in the order in which the grouper created them. *)
Theorem ordered_albums_sorted (recognized_files : list file_info) :
  let key := fun kv : string * list file_info =>
               lower (resolve_display_album (snd kv)) in
  StronglySorted (fun a b => String.leb (key a) (key b) = true)
                 (ordered_albums recognized_files)
  /\ forall k,
       List.filter (fun kv => String.eqb (key kv) k)
                   (ordered_albums recognized_files)
       = List.filter (fun kv => String.eqb (key kv) k)
                     (group_by_album recognized_files).
Proof.
  intros key. split.
  - apply (sorted_by_key_sorted key).
  - intros k. apply (sorted_by_key_stable key).
Qed.

(** ** Grouping *)

Lemma distinct_In (x : string) (l : list string) :
  In x (distinct String.eqb l) <-> In x l.
Proof.
  induction l as [|a l IH]; cbn [distinct]; [reflexivity|].
  cbn [In]. rewrite filter_In, IH, negb_true_iff, String.eqb_neq.
  destruct (String.eq_dec a x); intuition congruence.
Qed.

Lemma distinct_NoDup (l : list string) : List.NoDup (distinct String.eqb l).
Proof.
  induction l as [|a l IH]; cbn [distinct]; constructor.
  - rewrite filter_In, negb_true_iff, String.eqb_neq. tauto.
  - now apply List.NoDup_filter.
Qed.

(** The distinct elements of a list that grows at its end. *)
Lemma distinct_snoc (l : list string) (x : string) :
  distinct String.eqb (l ++ [x])
  = if existsb (String.eqb x) l then distinct String.eqb l
    else (distinct String.eqb l ++ [x])%list.
Proof.
  induction l as [|a l IH]; cbn [distinct List.app existsb List.filter];
    [reflexivity|].
  rewrite IH.
  destruct (String.eqb_spec x a) as [->|Hne]; cbn [orb].
  - destruct (existsb (String.eqb a) l) eqn:E; [reflexivity|].
    rewrite List.filter_app. cbn [List.filter].
    now rewrite String.eqb_refl, app_nil_r.
  - destruct (existsb (String.eqb x) l) eqn:E; [reflexivity|].
    rewrite List.filter_app. cbn [List.filter List.app].
    destruct (String.eqb_spec a x) as [->|_]; [congruence|reflexivity].
Qed.


Lemma existsb_eqb_In (x : string) (l : list string) :
  existsb (String.eqb x) l = true <-> In x l.
Proof.
  rewrite existsb_exists. split.
  - intros (y & Hy & E). apply String.eqb_eq in E. now subst.
  - intros H. exists x. now rewrite String.eqb_refl.
Qed.

Lemma filter_none {A : Type} (P : A -> bool) (l : list A) :
  (forall x, In x l -> P x = false) -> List.filter P l = [].
Proof.
  induction l as [|a l IH]; cbn [List.filter In]; intros H; [reflexivity|].
  rewrite (H a) by now left. apply IH. intros x Hx. apply H. now right.
Qed.

(** One [append_to] on a table with pairwise distinct keys. *)
Lemma append_to_map (G : string -> list file_info) (k : string)
    (x : file_info) (ks : list string) :
  List.NoDup ks ->
  append_to k x (map (fun k' => (k', G k')) ks)
  = List.app
      (map (fun k' => (k', if String.eqb k' k then (G k' ++ [x])%list
                           else G k'))
           ks)
      (if existsb (String.eqb k) ks then [] else [(k, [x])]).
Proof.
  induction ks as [|k' ks IH]; intros Hnd; cbn [map append_to existsb List.app];
    [reflexivity|].
  inversion Hnd as [|? ? Hnotin Hnd']; subst.
  destruct (String.eqb_spec k' k) as [->|Hne].
  - rewrite String.eqb_refl. cbn [orb]. rewrite app_nil_r. f_equal.
    apply map_ext_in. intros k' Hk'.
    destruct (String.eqb_spec k' k) as [E|_]; [|reflexivity].
    rewrite E in Hk'. contradiction.
  - rewrite (proj2 (String.eqb_neq k k')) by congruence. cbn [orb].
    now rewrite (IH Hnd').
Qed.

(** The groups built by repeated [append_to] are those of [groups_of]. *)
Lemma append_to_groups_of (key : file_info -> string) (l : list file_info)
    (x : file_info) :
  append_to (key x) x (groups_of key l) = groups_of key (l ++ [x]).
Proof.
  unfold groups_of. rewrite map_app. cbn [map].
  rewrite distinct_snoc, append_to_map by apply distinct_NoDup.
  assert (Hold : forall ks,
             map (fun k' => (k', if String.eqb k' (key x)
                                 then (List.filter
                                         (fun y => String.eqb (key y) k') l
                                         ++ [x])%list
                                 else List.filter
                                        (fun y => String.eqb (key y) k') l))
                 ks
             = map (fun k' => (k', List.filter
                                     (fun y => String.eqb (key y) k')
                                     (l ++ [x])))
                   ks).
  { intros ks. apply map_ext. intros k'.
    rewrite List.filter_app. cbn [List.filter].
    rewrite (String.eqb_sym (key x) k').
    destruct (String.eqb k' (key x)); now rewrite ?app_nil_r. }
  rewrite Hold.
  destruct (existsb (String.eqb (key x)) (map key l)) eqn:E.
  - apply existsb_eqb_In in E.
    rewrite (proj2 (existsb_eqb_In _ _)) by now apply distinct_In.
    now rewrite app_nil_r.
  - assert (Hnot : ~ In (key x) (map key l)).
    { intros H. apply existsb_eqb_In in H. congruence. }
    destruct (existsb (String.eqb (key x)) (distinct String.eqb (map key l)))
      eqn:E'.
    + apply existsb_eqb_In in E'. apply (proj1 (distinct_In _ _)) in E'.
      contradiction.
    + rewrite map_app. cbn [map]. do 3 f_equal.
      rewrite List.filter_app. cbn [List.filter].
      rewrite String.eqb_refl, filter_none; [reflexivity|].
      intros y Hy. apply String.eqb_neq. intros Hk. apply Hnot.
      rewrite <- Hk. now apply in_map.
Qed.

Lemma fold_append_to (key : file_info -> string) (l : list file_info) :
  fold_left (fun acc fi => append_to (key fi) fi acc) l [] = groups_of key l.
Proof.
  induction l as [|x l IH] using rev_ind; [reflexivity|].
  now rewrite fold_left_app, IH; cbn [fold_left]; rewrite append_to_groups_of.
Qed.

(** X3.  [group_by_album] makes one group for each key, the keys in the
    order of their first occurrence; the group of a key holds the records
    that have this key, in their order. *)
Theorem group_by_album_spec (file_infos : list file_info) :
  let key := group_key (existsb (fun fi => truthy (path fi)) file_infos) in
  group_by_album file_infos
  = map (fun k => (k, List.filter (fun fi => String.eqb (key fi) k) file_infos))
        (distinct String.eqb (map key file_infos)).
Proof. intros key. apply (fold_append_to key). Qed.

Lemma flat_map_singleton {A : Type} (k : string) (x : A) (ks : list string) :
  List.NoDup ks -> In k ks ->
  flat_map (fun k' => if String.eqb k k' then [x] else []) ks = [x].
Proof.
  induction ks as [|k' ks IH]; cbn [flat_map In]; [easy|].
  intros Hnd [->|Hin]; inversion Hnd as [|? ? Hnotin Hnd']; subst.
  - rewrite String.eqb_refl. cbn [List.app]. f_equal.
    clear -Hnotin. induction ks as [|k' ks IH]; [reflexivity|].
    cbn [flat_map]. destruct (String.eqb_spec k k') as [->|_].
    + destruct Hnotin. now left.
    + apply IH. intros H. apply Hnotin. now right.
  - destruct (String.eqb_spec k k') as [->|_]; [contradiction|].
    now apply IH.
Qed.

(** The groups of [groups_of] hold every record once. *)
Lemma groups_of_perm (key : file_info -> string) (l : list file_info)
    (ks : list string) :
  List.NoDup ks -> (forall x, In x l -> In (key x) ks) ->
  Permutation
    (flat_map (fun k => List.filter (fun x => String.eqb (key x) k) l) ks) l.
Proof.
  intros Hnd. induction l as [|x l IH]; intros Hin.
  - cbn [List.filter]. clear. induction ks; [reflexivity|assumption].
  - cbn [List.filter].
    rewrite (flat_map_perm_ext _
               (fun k => List.app (if String.eqb (key x) k then [x] else [])
                           (List.filter (fun y => String.eqb (key y) k) l))).
    + rewrite flat_map_app_perm, flat_map_singleton
        by (try assumption; apply Hin; now left).
      cbn [List.app]. constructor. apply IH.
      intros y Hy. apply Hin. now right.
    + intros k. now destruct (String.eqb (key x) k).
Qed.

Lemma group_by_album_groups (file_infos : list file_info) :
  group_by_album file_infos
  = groups_of (group_key (existsb (fun fi => truthy (path fi)) file_infos))
              file_infos.
Proof. apply fold_append_to. Qed.

Lemma group_by_album_perm (file_infos : list file_info) :
  Permutation (flat_map snd (group_by_album file_infos)) file_infos.
Proof.
  rewrite group_by_album_groups. unfold groups_of.
  rewrite flat_map_concat_map, map_map. cbn [snd].
  rewrite <- flat_map_concat_map.
  apply groups_of_perm; [apply distinct_NoDup|].
  intros x Hx. apply distinct_In. now apply in_map.
Qed.

(** X4.  The groups of [group_by_album] partition the records: the keys
    are pairwise distinct, no group is empty, and every record is in one
    group, once. *)
Theorem group_by_album_partition (file_infos : list file_info) :
  List.NoDup (map fst (group_by_album file_infos))
  /\ (forall kv, In kv (group_by_album file_infos) -> snd kv <> [])
  /\ Permutation (flat_map snd (group_by_album file_infos)) file_infos.
Proof.
  split; [|split; [|apply group_by_album_perm]];
    rewrite group_by_album_groups; unfold groups_of.
  - rewrite map_map. cbn [fst]. rewrite map_id. apply distinct_NoDup.
  - set (key := group_key _).
    intros kv Hin. apply in_map_iff in Hin as (k & <- & Hk). cbn [snd].
    apply distinct_In, in_map_iff in Hk as (x & <- & Hx).
    intros Hnil.
    assert (Hf : In x (List.filter
                         (fun fi => String.eqb (key fi) (key x)) file_infos)).
    { apply filter_In. split; [assumption | apply String.eqb_refl]. }
    now rewrite Hnil in Hf.
Qed.

(** ** Paths of directory entries *)

Lemma split_on_cons (c : ascii) (s : string) :
  exists w ws, split_on c s = w :: ws.
Proof.
  destruct s as [|a s]; cbn [split_on]; [now eexists _, _|].
  destruct (Ascii.eqb a c); [now eexists _, _|].
  destruct (split_on c s); now eexists _, _.
Qed.

Lemma split_on_app (c : ascii) (a b : string) :
  split_on c (a ++ String c b) = (split_on c a ++ split_on c b)%list.
Proof.
  induction a as [|x a IH].
  - change (EmptyString ++ String c b) with (String c b).
    cbn [split_on List.app]. now rewrite Ascii.eqb_refl.
  - change (String x a ++ String c b) with (String x (a ++ String c b)).
    cbn [split_on List.app].
    destruct (Ascii.eqb x c); [now rewrite IH|].
    rewrite IH. now destruct (split_on_cons c a) as (w & ws & ->).
Qed.

Lemma split_on_no_sep (c : ascii) (s : string) :
  in_str c s = false -> split_on c s = [s].
Proof.
  induction s as [|a s IH]; cbn [in_str split_on]; [reflexivity|].
  intros H. apply orb_false_iff in H as [-> H]. now rewrite (IH H).
Qed.

Lemma path_parts_app (a b : string) :
  path_parts (a ++ String "/" b) = (path_parts a ++ path_parts b)%list.
Proof. unfold path_parts. now rewrite split_on_app, List.filter_app. Qed.

Lemma path_parts_entry_name (name : string) :
  entry_name name = true -> path_parts name = [name].
Proof.
  unfold entry_name, path_parts. intros H.
  apply andb_true_iff in H as [H Hs]. apply negb_true_iff in Hs.
  rewrite (split_on_no_sep _ _ Hs). cbn [List.filter]. now rewrite H.
Qed.

Lemma string_of_list_ascii_app (l1 l2 : list ascii) :
  string_of_list_ascii (l1 ++ l2)
  = string_of_list_ascii l1 ++ string_of_list_ascii l2.
Proof.
  induction l1 as [|a l1 IH]; [reflexivity|].
  change (String a (string_of_list_ascii (l1 ++ l2))
          = String a (string_of_list_ascii l1 ++ string_of_list_ascii l2)).
  now rewrite IH.
Qed.

Lemma string_app_assoc (a b c : string) : (a ++ b) ++ c = a ++ b ++ c.
Proof.
  induction a as [|x a IH]; [reflexivity|].
  change (String x ((a ++ b) ++ c) = String x (a ++ b ++ c)).
  now rewrite IH.
Qed.

Lemma prefix_slash (s : string) :
  String.prefix "/" s = true -> exists s', s = String "/" s'.
Proof.
  destruct s as [|a s]; cbn [String.prefix]; [discriminate|].
  destruct (ascii_dec "/" a) as [<-|]; [now exists s | discriminate].
Qed.

Lemma trailing_slash (dir : string) :
  String.prefix "/" (rev_string dir) = true ->
  exists d, dir = d ++ "/".
Proof.
  unfold rev_string. intros H. apply prefix_slash in H as (s' & Hs').
  apply (f_equal list_ascii_of_string) in Hs'.
  rewrite list_ascii_of_string_of_list_ascii in Hs'. cbn in Hs'.
  apply (f_equal (@rev ascii)) in Hs'. rewrite rev_involutive in Hs'.
  cbn [rev] in Hs'.
  exists (string_of_list_ascii (rev (list_ascii_of_string s'))).
  rewrite <- (string_of_list_ascii_of_string dir), Hs'.
  now rewrite string_of_list_ascii_app.
Qed.

(** The components of the path of an entry: those of the directory, then
    the name. *)
Lemma path_parts_entry_path (dir name : string) :
  entry_name name = true ->
  path_parts (entry_path dir name) = (path_parts dir ++ [name])%list.
Proof.
  intros Hn. unfold entry_path.
  destruct (String.prefix "/" (rev_string dir)) eqn:E.
  - apply trailing_slash in E as (d & ->).
    change (d ++ "/") with (d ++ String "/" EmptyString).
    rewrite string_app_assoc.
    change ("/" ++ name) with (String "/" name).
    rewrite !path_parts_app, (path_parts_entry_name _ Hn).
    now rewrite app_nil_r.
  - change ("/" ++ name) with (String "/" name).
    now rewrite path_parts_app, (path_parts_entry_name _ Hn).
Qed.

Lemma last_snoc {A : Type} (l : list A) (x d : A) :
  List.last (l ++ [x]) d = x.
Proof.
  induction l as [|a l IH]; [reflexivity|].
  cbn [List.app]. destruct l; [reflexivity | exact IH].
Qed.

Lemma removelast_snoc {A : Type} (l : list A) (x : A) :
  List.removelast (l ++ [x]) = l.
Proof.
  induction l as [|a l IH]; [reflexivity|].
  cbn [List.app]. destruct l; [reflexivity|].
  cbn [List.app List.removelast] in *. now rewrite IH.
Qed.

Lemma file_name_record_of (c : string * file) :
  file_name (record_of c) = path_name (fst c).
Proof.
  unfold record_of, to_uniform_dict.
  destruct (f_decoded (snd c)) as [[|]| |cn info tv|[|]]; try reflexivity.
  destruct (read_tags tv) as [[tm datas] v].
  now destruct (parse_track_number tm).
Qed.

(** X5.  The ["file_name"] of the record of a candidate file is the name
    of its directory entry, whatever the directory. *)
Theorem record_file_name_is_entry_name (dir name : string) (f : file) :
  entry_name name = true ->
  file_name (record_of (entry_path dir name, f)) = name.
Proof.
  intros Hn. rewrite file_name_record_of. cbn [fst].
  unfold path_name. rewrite (path_parts_entry_path _ _ Hn).
  apply last_snoc.
Qed.

Lemma prefix_empty (s : string) : String.prefix EmptyString s = true.
Proof. now destruct s. Qed.

Lemma entry_name_head (name : string) :
  entry_name name = true ->
  exists a rest, name = String a rest /\ a <> "/"%char.
Proof.
  unfold entry_name. destruct name as [|a rest]; [discriminate|].
  intros H. exists a, rest. split; [reflexivity|].
  apply andb_prop in H as [_ H]. intros ->.
  cbn [in_str] in H. now rewrite Ascii.eqb_refl in H.
Qed.

(** The root of the path of an entry does not depend on the entry. *)
Lemma path_root_entry_path (dir n1 n2 : string) :
  entry_name n1 = true -> entry_name n2 = true ->
  path_root (entry_path dir n1) = path_root (entry_path dir n2).
Proof.
  intros H1 H2.
  apply entry_name_head in H1 as (a1 & r1 & -> & Ha1).
  apply entry_name_head in H2 as (a2 & r2 & -> & Ha2).
  unfold path_root, entry_path.
  destruct dir as [|a [|b [|c d]]];
    repeat match goal with
      | |- context [String.prefix "/" (rev_string ?s)] =>
          destruct (String.prefix "/" (rev_string s))
      end;
    unfold String.append; fold String.append;
    cbn [String.prefix];
    rewrite ?prefix_empty;
    repeat match goal with
      | |- context [ascii_dec ?x ?y] => destruct (ascii_dec x y)
      end;
    congruence.
Qed.

(** The parent of the path of an entry does not depend on the entry. *)
Lemma path_parent_entry_path (dir n1 n2 : string) :
  entry_name n1 = true -> entry_name n2 = true ->
  path_parent (entry_path dir n1) = path_parent (entry_path dir n2).
Proof.
  intros H1 H2. unfold path_parent.
  now rewrite (path_root_entry_path dir n1 n2),
    !path_parts_entry_path, !removelast_snoc by assumption.
Qed.

Lemma record_of_recognized (p : string) (f : file) :
  decode_fails f = false ->
  has_error (record_of (p, f)) = false /\ path (record_of (p, f)) = Some p.
Proof.
  unfold decode_fails, record_of, to_uniform_dict. cbn [fst snd].
  destruct (f_decoded f) as [[|]| |cn info tv|[|]]; try discriminate.
  intros _. destruct (read_tags tv) as [[tm datas] v].
  now destruct (parse_track_number tm).
Qed.

Lemma entry_path_nonempty (dir name : string) :
  entry_name name = true -> nonempty (entry_path dir name) = true.
Proof.
  unfold entry_name, entry_path. intros H.
  apply andb_true_iff in H as [H _]. apply andb_true_iff in H as [H _].
  destruct name as [|a name]; [discriminate|].
  destruct (String.prefix "/" (rev_string dir)); now destruct dir.
Qed.

Lemma groups_of_one_key (key : file_info -> string) (k : string)
    (l : list file_info) :
  l <> [] -> (forall x, In x l -> key x = k) -> groups_of key l = [(k, l)].
Proof.
  intros Hne Hall. unfold groups_of.
  assert (Hd : distinct String.eqb (map key l) = [k]).
  { destruct l as [|x l]; [contradiction|]. cbn [map distinct].
    rewrite (Hall x) by now left. f_equal.
    apply filter_none. intros y Hy. apply negb_false_iff, String.eqb_eq.
    apply distinct_In, in_map_iff in Hy as (z & <- & Hz).
    symmetry. apply Hall. now right. }
  rewrite Hd. cbn [map]. do 2 f_equal.
  clear -Hall. induction l as [|x l IH]; [reflexivity|].
  cbn [List.filter]. rewrite (Hall x) by now left.
  rewrite String.eqb_refl. f_equal. apply IH.
  intros y Hy. apply Hall. now right.
Qed.

(** X6.  The recognized files of one directory make exactly one album,
    whatever their tags: the grouper keys them by their folder. *)
Theorem one_directory_one_album (dir : string) (files : list (string * file)) :
  files <> [] ->
  (forall c, In c files ->
             entry_name (fst c) = true /\ decode_fails (snd c) = false) ->
  let records :=
    map (fun c => record_of (entry_path dir (fst c), snd c)) files in
  exists k, group_by_album records = [(k, records)].
Proof.
  intros Hne Hall records.
  destruct files as [|c0 files]; [contradiction|].
  set (key := group_key (existsb (fun fi => truthy (path fi)) records)).
  exists (key (record_of (entry_path dir (fst c0), snd c0))).
  unfold group_by_album. fold key.
  change (fold_left _ records [])
    with (fold_left (fun acc fi => append_to (key fi) fi acc) records []).
  rewrite fold_append_to.
  apply groups_of_one_key; [discriminate|].
  assert (Hany : existsb (fun fi => truthy (path fi)) records = true).
  { subst records. cbn [map existsb].
    destruct (Hall c0 (or_introl eq_refl)) as [Hn Hd].
    destruct (record_of_recognized (entry_path dir (fst c0)) _ Hd) as [_ ->].
    cbn [truthy]. now rewrite entry_path_nonempty. }
  intros x Hx. subst key. rewrite Hany.
  apply in_map_iff in Hx as (c & <- & Hc).
  destruct (Hall c Hc) as [Hn Hd].
  destruct (Hall c0 (or_introl eq_refl)) as [Hn0 Hd0].
  destruct (record_of_recognized (entry_path dir (fst c)) _ Hd) as [He Hp].
  destruct (record_of_recognized (entry_path dir (fst c0)) _ Hd0) as [He0 Hp0].
  unfold group_key. rewrite He, He0, Hp, Hp0. cbn [default from_option id].
  now rewrite (path_parent_entry_path dir (fst c) (fst c0)).
Qed.

(** ** The display name of an album *)

(** [first_max] returns the first item with the largest count. *)
Lemma first_max_spec (items : list (string * nat)) :
  forall best : string * nat,
    exists l1 l2,
      best :: items = (l1 ++ first_max best items :: l2)%list
      /\ (forall it, In it l1 -> (snd it < snd (first_max best items))%nat)
      /\ (forall it, In it l2 -> (snd it <= snd (first_max best items))%nat).
Proof.
  induction items as [|it items IH]; intros best; cbn [first_max].
  - exists [], []. repeat split; intros ? [].
  - destruct (snd best <? snd it)%nat eqn:E.
    + apply Nat.ltb_lt in E.
      destruct (IH it) as (l1 & l2 & Heq & H1 & H2).
      exists (best :: l1), l2. rewrite Heq. repeat split; [|assumption].
      intros x [<-|Hx]; [|now apply H1].
      destruct l1 as [|y l1].
      * injection Heq as <- _. exact E.
      * injection Heq as <- _.
        specialize (H1 it (or_introl eq_refl)). lia.
    + apply Nat.ltb_ge in E.
      destruct (IH best) as (l1 & l2 & Heq & H1 & H2).
      destruct l1 as [|y l1].
      * injection Heq as Hb <-.
        exists [], (it :: items). rewrite <- Hb in H2 |- *.
        repeat split; [intros ? []|].
        intros x [<-|Hx]; [assumption | now apply H2].
      * injection Heq as -> Hitems.
        exists (y :: it :: l1), l2.
        split; [cbn [List.app]; do 2 f_equal; exact Hitems|].
        split; [|assumption].
        intros x [<-|[<-|Hx]].
        -- now apply H1; left.
        -- specialize (H1 y (or_introl eq_refl)). lia.
        -- now apply H1; right.
Qed.

Lemma filter_eq_app_cons {A : Type} (P : A -> bool) (l : list A) :
  forall (l1 : list A) (x : A) (l2 : list A),
    List.filter P l = (l1 ++ x :: l2)%list ->
    exists e1 e2,
      l = (e1 ++ x :: e2)%list /\ List.filter P e1 = l1
      /\ List.filter P e2 = l2.
Proof.
  induction l as [|a l IH]; intros l1 x l2; cbn [List.filter].
  - now destruct l1.
  - destruct (P a) eqn:E.
    + destruct l1 as [|b l1]; cbn [List.app]; intros [= -> H].
      * exists [], l. now repeat split.
      * destruct (IH _ _ _ H) as (e1 & e2 & -> & <- & <-).
        exists (b :: e1), e2. cbn [List.filter List.app]. now rewrite E.
    + intros H. destruct (IH _ _ _ H) as (e1 & e2 & -> & <- & <-).
      exists (a :: e1), e2. cbn [List.filter List.app]. now rewrite E.
Qed.

(** The elements met before the first occurrence of [x] come before [x]
    among the distinct elements. *)
Lemma distinct_split (l : list string) :
  forall (d1 : list string) (x : string) (d2 : list string),
    distinct String.eqb l = (d1 ++ x :: d2)%list ->
    exists before after,
      l = (before ++ x :: after)%list /\ forall y, In y before -> In y d1.
Proof.
  induction l as [|a l IH]; intros d1 x d2; cbn [distinct].
  - now destruct d1.
  - destruct d1 as [|b d1]; cbn [List.app]; intros [= -> H].
    + exists [], l. split; [reflexivity | intros ? []].
    + apply filter_eq_app_cons in H as (e1 & e2 & He & <- & _).
      destruct (IH _ _ _ He) as (before & after & -> & Hb).
      exists (b :: before), after. split; [reflexivity|].
      intros y [<-|Hy]; [now left|].
      destruct (String.eqb_spec b y) as [->|Hne]; [now left | right].
      apply filter_In. split; [now apply Hb|].
      now apply negb_true_iff, String.eqb_neq.
Qed.

Lemma most_common_spec (l : list string) :
  match most_common l with
  | None => l = []
  | Some r =>
      (forall y, (occurrences y l <= occurrences r l)%nat)
      /\ exists before after,
           l = (before ++ r :: after)%list
           /\ forall y, In y before ->
                        (occurrences y l < occurrences r l)%nat
  end.
Proof.
  unfold most_common, counter.
  destruct (distinct String.eqb l) as [|d0 d] eqn:Hd; cbn [map].
  - destruct l as [|a l]; [reflexivity | discriminate].
  - set (f := fun x => (x, List.length (List.filter (String.eqb x) l))).
    change (d0, List.length (List.filter (String.eqb d0) l)) with (f d0).
    destruct (first_max_spec (map f d) (f d0)) as (m1 & m2 & Heq & H1 & H2).
    change (f d0 :: map f d) with (map f (d0 :: d)) in Heq.
    rewrite <- Hd in Heq.
    apply map_eq_app in Heq as (d1 & d2' & Hsplit & <- & Hm).
    destruct d2' as [|x d2]; [discriminate|].
    cbn [map] in Hm. injection Hm as Hr <-.
    rewrite <- Hr in H1, H2 |- *. cbn [fst snd f] in *.
    split.
    + intros y. unfold occurrences.
      destruct (in_dec String.eq_dec y l) as [Hy|Hy].
      * apply distinct_In in Hy. rewrite Hsplit in Hy.
        apply in_app_or in Hy as [Hy|[<-|Hy]].
        -- specialize (H1 (f y) (in_map f _ _ Hy)). cbn [snd f] in H1. lia.
        -- lia.
        -- apply (H2 (f y) (in_map f _ _ Hy)).
      * rewrite (filter_none (String.eqb y) l); [cbn; lia|].
        intros z Hz. apply String.eqb_neq. congruence.
    + destruct (distinct_split _ _ _ _ Hsplit) as (before & after & Hl & Hb).
      exists before, after. split; [assumption|].
      intros y Hy. apply (H1 (f y)). apply in_map. now apply Hb.
Qed.

(** X7.  The display name of an album is ["Unknown Album"] when no track
    has an album tag; otherwise it is an album tag that no other tag
    outnumbers in the album, and among the most frequent tags the one that
    is met first. *)
Theorem resolve_display_album_most_common (album_files : list file_info) :
  let names := true_values album album_files in
  let shown := resolve_display_album album_files in
  (names = [] -> shown = "Unknown Album")
  /\ (names <> [] ->
      (forall y, (occurrences y names <= occurrences shown names)%nat)
      /\ exists before after,
           names = (before ++ shown :: after)%list
           /\ forall y, In y before ->
                        (occurrences y names < occurrences shown names)%nat).
Proof.
  intros names shown. subst shown. unfold resolve_display_album. fold names.
  pose proof (most_common_spec names) as H.
  destruct (most_common names) as [r|]; cbn [default from_option id].
  - split; [|intros _; exact H].
    intros Hn. destruct H as (_ & before & after & Hl & _).
    rewrite Hn in Hl. now destruct before.
  - split; [reflexivity | contradiction].
Qed.

(** ** The tags kept by [to_uniform_dict] *)

Lemma pick_keys_fold (source : gmap string (list string)) (keys : list string) :
  forall (acc : gmap string (list string)) (k : string),
    fold_left
      (fun tags_map k' =>
         match source !! k' with
         | Some v => <[k' := v]> tags_map
         | None => tags_map
         end)
      keys acc !! k
    = match (if bool_decide (k ∈ keys) then source !! k else None) with
      | Some v => Some v
      | None => acc !! k
      end.
Proof.
  induction keys as [|a keys IH]; intros acc k; cbn [fold_left].
  - now rewrite bool_decide_eq_false_2 by apply not_elem_of_nil.
  - rewrite IH.
    destruct (bool_decide (k ∈ keys)) eqn:E.
    + apply bool_decide_eq_true_1 in E.
      rewrite bool_decide_eq_true_2 by (apply elem_of_cons; now right).
      destruct (source !! k) as [v|] eqn:Hk; [reflexivity|].
      destruct (source !! a) as [va|] eqn:Ha; [|reflexivity].
      apply lookup_insert_ne. congruence.
    + apply bool_decide_eq_false_1 in E.
      destruct (decide (a = k)) as [->|Hne].
      * rewrite bool_decide_eq_true_2 by (apply elem_of_cons; now left).
        destruct (source !! k) as [v|] eqn:Hk; [|reflexivity].
        rewrite lookup_insert. now destruct (decide (k = k)).
      * rewrite bool_decide_eq_false_2
          by (rewrite elem_of_cons; intros [?|?]; congruence).
        destruct (source !! a) as [va|]; [|reflexivity].
        now apply lookup_insert_ne.
Qed.

Lemma pick_keys_lookup (keys : list string)
    (source : gmap string (list string)) (k : string) :
  pick_keys keys source !! k
  = if bool_decide (k ∈ keys) then source !! k else None.
Proof.
  unfold pick_keys. rewrite pick_keys_fold.
  destruct (if bool_decide (k ∈ keys) then source !! k else None);
    [reflexivity | apply lookup_empty].
Qed.

(** X8.  The tag map of the record of an MP3 or WAVE file with ID3 tags
    holds the eight frames of [ID3_FRAMES] that the file has, and nothing
    else; the one of a FLAC or Ogg Vorbis file holds the eight keys of
    [VORBIS_KEYS] in the same way. *)
Theorem to_uniform_dict_tags (file_path : string) (f : file)
    (class_name : string) (info : stream_info) (tv : tag_view)
    (fi : file_info) (k : string) :
  f_decoded f = Audio class_name info tv ->
  to_uniform_dict file_path f = Returns fi ->
  match tv with
  | ID3OfMP3 frames _ _ | OfWAVE (Some (frames, _)) =>
      tags fi !! k = if bool_decide (k ∈ ID3_FRAMES) then frames !! k else None
  | OfFLAC comments _ | OfOggVorbis comments _ =>
      tags fi !! k
      = if bool_decide (k ∈ VORBIS_KEYS) then comments !! k else None
  | OfOther (Some keyed) => tags fi !! k = keyed !! k
  | OfWAVE None | OfOther None => tags fi !! k = None
  end.
Proof.
  intros Hd. unfold to_uniform_dict. rewrite Hd.
  destruct tv as [frames apic v|[[frames v]|]|c pics|c pics|[keyed|]];
    cbn [read_tags];
    match goal with
    | |- context [parse_track_number ?m] =>
        destruct (parse_track_number m) as [n t]
    end;
    intros [= <-]; cbn [tags];
    try apply pick_keys_lookup; try reflexivity; apply lookup_empty.
Qed.

(** X9.  The title, the album and the artist of the record of an MP3 file
    with ID3 tags are the first texts of its ["TIT2"], ["TALB"] and
    ["TPE1"] frames, and the empty string for a frame that is missing or
    has no text; keys named ["TITLE"], ["ALBUM"] or ["ARTIST"] are not
    read. *)
Theorem mp3_record_texts (file_path : string) (f : file)
    (class_name : string) (info : stream_info)
    (frames : gmap string (list string)) (apic : list (option string))
    (version : option (list Z)) (fi : file_info) :
  f_decoded f = Audio class_name info (ID3OfMP3 frames apic version) ->
  to_uniform_dict file_path f = Returns fi ->
  let first_text := fun k =>
    match frames !! k with
    | Some (v0 :: _) => v0
    | _ => EmptyString
    end in
  title fi = Some (first_text "TIT2")
  /\ album fi = Some (first_text "TALB")
  /\ artist fi = Some (first_text "TPE1").
Proof.
  intros Hd. unfold to_uniform_dict. rewrite Hd. cbn [read_tags].
  destruct (parse_track_number (pick_keys ID3_FRAMES frames)) as [n t].
  intros [= <-]. cbn [title album artist first_tag_text].
  rewrite !pick_keys_lookup.
  repeat match goal with
         | |- context [bool_decide ?P] =>
             let b := eval vm_compute in (bool_decide P) in
             change (bool_decide P) with b
         end.
  cbn beta iota zeta.
  repeat split;
    match goal with
    | |- context [frames !! ?k] => now destruct (frames !! k) as [[|? ?]|]
    end.
Qed.

(** ** The debug trace and the depth bound *)

(** X10.  The debug switch does not change the records the scan returns,
    and without it the scan returns no debug line. *)
Theorem scan_debug_independent (root : string)
    (root_listing : option (list entry)) (max_depth : Z) :
  fst (scan_folder_for_audio_recursive root root_listing max_depth true)
  = fst (scan_folder_for_audio_recursive root root_listing max_depth false)
  /\ snd (scan_folder_for_audio_recursive root root_listing max_depth false)
     = [].
Proof.
  unfold scan_folder_for_audio_recursive. cbn [fst snd].
  destruct root_listing as [entries|].
  - rewrite !scan_results. split; [reflexivity|].
    unfold walk_root.
    now rewrite (walk_entries_debug_off _ (Z.to_nat max_depth))
      by (f_equal; lia).
  - split; reflexivity.
Qed.

Lemma candidates_upto_next (k : nat) (dir : string) (es : list entry) :
  candidates_upto (S k) dir es
  = (candidates_upto k dir es ++ candidates_at (S k) dir es)%list.
Proof.
  unfold candidates_upto. rewrite (seq_S (S k)), flat_map_app.
  cbn [flat_map Nat.add]. now rewrite app_nil_r.
Qed.

(** X11.  Raising the depth bound by one keeps every record and adds the
    records of the candidate files of the directories of the next level. *)
Theorem scan_one_level_deeper (root : string) (entries : list entry)
    (max_depth : Z) (debug_enabled : bool) :
  0 <= max_depth ->
  Permutation
    (fst (scan_folder_for_audio_recursive root (Some entries) (max_depth + 1)
            debug_enabled))
    (List.app
       (fst (scan_folder_for_audio_recursive root (Some entries) max_depth
               debug_enabled))
       (map record_of
            (candidates_at (S (Z.to_nat max_depth)) root entries))).
Proof.
  intros Hd. unfold scan_folder_for_audio_recursive, sorted_by_key.
  cbn [fst]. rewrite !py_sorted_perm, !scan_results, <- map_app.
  apply Permutation_map.
  rewrite !candidates_dfs_upto.
  replace (Z.to_nat (max_depth + 1)) with (S (Z.to_nat max_depth)) by lia.
  now rewrite candidates_upto_next.
Qed.

(** ** The rules of [build_album_messages] *)

Lemma occurrences_cons (x a : string) (l : list string) :
  occurrences x (a :: l)
  = ((if String.eqb x a then 1 else 0) + occurrences x l)%nat.
Proof.
  unfold occurrences. cbn [List.filter].
  now destruct (String.eqb x a).
Qed.

Lemma occurrences_absent (x : string) (l : list string) :
  ~ In x l -> occurrences x l = 0%nat.
Proof.
  intros H. unfold occurrences. rewrite filter_none; [reflexivity|].
  intros y Hy. apply String.eqb_neq. congruence.
Qed.

Lemma occurrences_present (x : string) (l : list string) :
  In x l -> (1 <= occurrences x l)%nat.
Proof.
  induction l as [|a l IH]; intros []; rewrite occurrences_cons.
  - subst. rewrite String.eqb_refl. lia.
  - specialize (IH H). lia.
Qed.

Lemma NoDup_occurrences (l : list string) :
  List.NoDup l <-> forall x, (occurrences x l <= 1)%nat.
Proof.
  induction l as [|a l IH].
  - split; [intros _ x; cbn; lia | constructor].
  - split.
    + intros Hnd x. inversion Hnd as [|? ? Hnotin Hnd']; subst.
      rewrite occurrences_cons.
      destruct (String.eqb_spec x a) as [->|_].
      * rewrite (occurrences_absent _ _ Hnotin). lia.
      * apply IH. assumption.
    + intros H. constructor.
      * intros Hin. specialize (H a). rewrite occurrences_cons in H.
        rewrite String.eqb_refl in H.
        pose proof (occurrences_present _ _ Hin). lia.
      * apply IH. intros x. specialize (H x).
        rewrite occurrences_cons in H. lia.
Qed.

Lemma distinct_length_gt1 (l : list string) :
  (1 < List.length (distinct String.eqb l))%nat
  <-> exists a b, In a l /\ In b l /\ a <> b.
Proof.
  split.
  - destruct (distinct String.eqb l) as [|a [|b d]] eqn:Hd;
      cbn [List.length]; try lia.
    intros _. exists a, b.
    assert (Ha : In a (distinct String.eqb l)) by (rewrite Hd; now left).
    assert (Hb : In b (distinct String.eqb l))
      by (rewrite Hd; right; now left).
    pose proof (distinct_NoDup l) as Hnd. rewrite Hd in Hnd.
    repeat split; try (now apply distinct_In).
    intros ->. inversion Hnd as [|? ? Hnotin _]. apply Hnotin. now left.
  - intros (a & b & Ha & Hb & Hne).
    apply distinct_In in Ha, Hb.
    destruct (distinct String.eqb l) as [|x [|y d]]; cbn [List.length];
      try lia.
    + destruct Ha.
    + destruct Ha as [<-|[]], Hb as [<-|[]]. congruence.
Qed.

Lemma fold_left_filter {A B : Type} (f : B -> A -> B) (P : A -> bool)
    (l : list A) :
  forall acc,
    fold_left (fun acc x => if P x then f acc x else acc) l acc
    = fold_left f (List.filter P l) acc.
Proof.
  induction l as [|x l IH]; intros acc; cbn [fold_left List.filter];
    [reflexivity|].
  destruct (P x); cbn [fold_left]; apply IH.
Qed.

Lemma files_by_hash_groups (album_files : list file_info) :
  files_by_hash album_files
  = groups_of (fun fi => default EmptyString (content_hash fi))
              (List.filter (fun fi => truthy (content_hash fi)) album_files).
Proof.
  unfold files_by_hash.
  rewrite (fold_left_filter
             (fun by_hash fi =>
                append_to (default EmptyString (content_hash fi)) fi by_hash)
             (fun fi => truthy (content_hash fi))).
  apply fold_append_to.
Qed.

Lemma true_values_filter (field : file_info -> option string)
    (l : list file_info) :
  map (fun fi => default EmptyString (field fi))
      (List.filter (fun fi => truthy (field fi)) l)
  = true_values field l.
Proof.
  unfold true_values.
  induction l as [|fi l IH]; [reflexivity|].
  cbn [List.filter omap list_omap].
  destruct (field fi) as [s|] eqn:E; cbn [truthy]; [|exact IH].
  destruct (nonempty s); [|exact IH].
  cbn [map]. rewrite E, IH. reflexivity.
Qed.

Lemma filter_key_length (key : file_info -> string) (k : string)
    (l : list file_info) :
  List.length (List.filter (fun x => String.eqb (key x) k) l)
  = occurrences k (map key l).
Proof.
  unfold occurrences.
  induction l as [|x l IH]; [reflexivity|].
  cbn [List.filter map]. rewrite (String.eqb_sym k (key x)).
  destruct (String.eqb (key x) k); cbn [List.length]; now rewrite IH.
Qed.

Lemma duplicate_groups_nil (album_files : list file_info) :
  duplicate_groups album_files = []
  <-> List.NoDup (true_values content_hash album_files).
Proof.
  unfold duplicate_groups, all_groups.
  rewrite files_by_hash_groups, <- true_values_filter, NoDup_occurrences.
  set (key := fun fi => default EmptyString (content_hash fi)).
  set (l := List.filter _ album_files).
  unfold groups_of. rewrite map_map. cbn [snd].
  split.
  - intros Hnil k.
    destruct (in_dec String.eq_dec k (map key l)) as [Hin|Hnot];
      [|rewrite occurrences_absent by assumption; lia].
    rewrite <- filter_key_length.
    destruct (Nat.ltb_spec 1 (List.length
                                (List.filter
                                   (fun x => String.eqb (key x) k) l)));
      [|lia].
    assert (Hf : In (List.filter (fun x => String.eqb (key x) k) l)
                    (List.filter (fun g => (1 <? List.length g)%nat)
                       (map (fun k' => List.filter
                                         (fun x => String.eqb (key x) k') l)
                            (distinct String.eqb (map key l))))).
    { apply filter_In. split; [|now apply Nat.ltb_lt].
      apply in_map_iff. exists k. split; [reflexivity|].
      now apply distinct_In. }
    rewrite Hnil in Hf. destruct Hf.
  - intros Hocc. apply filter_none. intros g Hg.
    apply in_map_iff in Hg as (k & <- & _).
    rewrite filter_key_length. apply Nat.ltb_ge, Hocc.
Qed.

(** X12.  The duplicate rule stays silent exactly when the non-empty
    content hashes of the tracks are pairwise distinct. *)
Theorem duplicate_warning_iff (album_files : list file_info) :
  duplicate_messages album_files = []
  <-> List.NoDup (true_values content_hash album_files).
Proof.
  rewrite <- duplicate_groups_nil, duplicate_messages_shape.
  destruct (duplicate_groups album_files) as [|g groups]; [tauto|].
  split; [|discriminate].
  cbn [firstn map List.app]. discriminate.
Qed.

Lemma true_values_nonempty (field : file_info -> option string)
    (l : list file_info) (s : string) :
  In s (true_values field l) -> nonempty s = true.
Proof.
  unfold true_values.
  induction l as [|fi l IH]; cbn [omap list_omap]; [intros []|].
  destruct (field fi) as [v|] eqn:E; cbn [truthy]; [|exact IH].
  destruct (nonempty v) eqn:Ev; [|exact IH].
  intros [<-|H]; [assumption | now apply IH].
Qed.

Lemma filter_all {A : Type} (P : A -> bool) (l : list A) :
  (forall x, In x l -> P x = true) -> List.filter P l = l.
Proof.
  induction l as [|a l IH]; cbn [List.filter]; intros H; [reflexivity|].
  rewrite (H a) by now left. f_equal. apply IH. intros x Hx. apply H.
  now right.
Qed.

Lemma variants_distinct (field : file_info -> option string)
    (l : list file_info) :
  variants field l = List.length (distinct String.eqb (true_values field l)).
Proof.
  unfold variants, counter. rewrite map_map. cbn [fst]. rewrite map_id.
  f_equal. apply filter_all. intros s Hs.
  apply (proj1 (distinct_In _ _)) in Hs.
  now apply true_values_nonempty in Hs.
Qed.

(** X13.  The album-name warning is raised exactly when two tracks carry
    different non-empty album tags, and the artist warning exactly when
    two tracks carry different non-empty artist tags; the tags are compared
    as they are written. *)
Theorem name_warnings_iff (album_files : list file_info) :
  (album_messages album_files <> []
   <-> exists a b,
         In a (true_values album album_files)
         /\ In b (true_values album album_files) /\ a <> b)
  /\ (artist_messages album_files <> []
      <-> exists a b,
            In a (true_values artist album_files)
            /\ In b (true_values artist album_files) /\ a <> b).
Proof.
  unfold album_messages, artist_messages.
  rewrite !variants_distinct, <- !distinct_length_gt1.
  split;
    match goal with
    | |- context [(1 <? ?n)%nat] =>
        destruct (Nat.ltb_spec 1 n); split; intros; try easy; lia
    end.
Qed.

(** X14.  An album in which no track has a cover gets no artwork
    warning. *)
Theorem no_cover_at_all_is_silent (album_files : list file_info) :
  (forall fi, In fi album_files -> artwork_hashes fi = []) ->
  artwork_messages album_files = [].
Proof.
  intros Hall. unfold artwork_messages.
  assert (Hnone : forall fi, In fi album_files -> first_hash fi = None).
  { intros fi Hfi. unfold first_hash. now rewrite (Hall fi Hfi). }
  clear Hall.
  assert (Hw : List.length (tracks_without_art album_files)
               = List.length album_files).
  { unfold tracks_without_art.
    induction album_files as [|fi l IH]; [reflexivity|].
    cbn [omap list_omap]. rewrite (Hnone fi) by now left.
    destruct (track_number fi); cbn [List.length]; f_equal;
      apply IH; intros x Hx; apply Hnone; now right. }
  assert (Hp : omap first_hash album_files = []).
  { clear Hw. induction album_files as [|fi l IH]; [reflexivity|].
    cbn [omap list_omap]. rewrite (Hnone fi) by now left.
    apply IH. intros x Hx. apply Hnone. now right. }
  rewrite Hw, Hp, Nat.ltb_irrefl, andb_false_r. reflexivity.
Qed.

(** X15.  The note about several file formats is written exactly when two
    tracks have file names whose lower-cased suffixes differ. *)
Theorem formats_note_iff (album_files : list file_info) :
  info_messages album_files <> []
  <-> exists fi fj,
        In fi album_files /\ In fj album_files
        /\ lower (path_suffix (file_name fi))
           <> lower (path_suffix (file_name fj)).
Proof.
  unfold info_messages, extensions_in_album, sorted_set_str.
  rewrite (Permutation_length (py_sorted_perm _ _)).
  set (exts := map _ album_files).
  transitivity (exists a b, In a exts /\ In b exts /\ a <> b).
  - rewrite <- distinct_length_gt1.
    destruct (Nat.ltb_spec 1 (List.length (distinct String.eqb exts)));
      split; intros; try easy; lia.
  - subst exts. split.
    + intros (a & b & Ha & Hb & Hne).
      apply in_map_iff in Ha as (fi & <- & Hfi).
      apply in_map_iff in Hb as (fj & <- & Hfj).
      now exists fi, fj.
    + intros (fi & fj & Hfi & Hfj & Hne).
      eexists _, _. repeat split; [| |exact Hne];
        apply in_map_iff; eauto.
Qed.

(** ** Sizes *)

Lemma sum_sizes_from (l : list file_info) (acc : Z) :
  fold_left (fun acc fi => acc + default 0 (size_bytes fi)) l acc
  = acc + sum_sizes l.
Proof.
  unfold sum_sizes. revert acc.
  induction l as [|fi l IH]; intros acc; cbn [fold_left]; [lia|].
  rewrite IH, (IH (0 + _)). lia.
Qed.

Lemma sum_sizes_cons (fi : file_info) (l : list file_info) :
  sum_sizes (fi :: l) = default 0 (size_bytes fi) + sum_sizes l.
Proof. unfold sum_sizes at 1. cbn [fold_left]. now rewrite sum_sizes_from. Qed.

Lemma sum_sizes_app (l1 l2 : list file_info) :
  sum_sizes (l1 ++ l2) = sum_sizes l1 + sum_sizes l2.
Proof.
  induction l1 as [|fi l1 IH]; [reflexivity|].
  cbn [List.app]. rewrite !sum_sizes_cons, IH. lia.
Qed.

Lemma sum_sizes_perm (l1 l2 : list file_info) :
  Permutation l1 l2 -> sum_sizes l1 = sum_sizes l2.
Proof.
  induction 1; rewrite ?sum_sizes_cons; lia.
Qed.

(** X16.  The total size of the quick stats is the sum of the sizes of the
    albums, as the per-album headers show them. *)
Theorem album_sizes_add_up (recognized_files : list file_info) :
  sum_sizes recognized_files
  = fold_right Z.add 0
      (map (fun kv => sum_sizes (snd kv)) (ordered_albums recognized_files)).
Proof.
  assert (Hsum : forall albums : list (string * list file_info),
             fold_right Z.add 0 (map (fun kv => sum_sizes (snd kv)) albums)
             = sum_sizes (flat_map snd albums)).
  { induction albums as [|kv albums IH]; [reflexivity|].
    cbn [map fold_right flat_map]. now rewrite sum_sizes_app, IH. }
  rewrite Hsum. apply sum_sizes_perm.
  unfold ordered_albums, sorted_by_key.
  transitivity (flat_map snd (group_by_album recognized_files)).
  - symmetry. apply group_by_album_perm.
  - apply Permutation_flat_map. symmetry. apply py_sorted_perm.
Qed.

(** ** The counts behind the health score *)

Lemma filter_exclusive_length {A : Type} (P Q : A -> bool) (l : list A) :
  (forall x, P x = true -> Q x = true -> False) ->
  (List.length (List.filter P l) + List.length (List.filter Q l)
   <= List.length l)%nat.
Proof.
  intros H. induction l as [|a l IH]; cbn [List.filter List.length]; [lia|].
  specialize (H a).
  destruct (P a), (Q a); cbn [List.length]; first [lia | now destruct H].
Qed.

(** X17.  When the scan has recognized a file, the report counts at least
    one album, and the albums with a warning and those with a critical
    issue are at most all albums: the score [get_output] computes is
    between 0 and 100, and its default of 100 for no album is never
    used. *)
Theorem report_counts_in_range (file_infos : list file_info) :
  recognized file_infos <> [] ->
  let albums := ordered_albums (recognized file_infos) in
  let total_albums := Z.of_nat (List.length albums) in
  let warn_albums := count_level WARN albums in
  let crit_albums := count_level CRIT albums in
  1 <= total_albums
  /\ 0 <= warn_albums /\ 0 <= crit_albums
  /\ warn_albums + crit_albums <= total_albums
  /\ 0 <= health_percent total_albums warn_albums crit_albums <= 100.
Proof.
  intros Hne albums total_albums warn_albums crit_albums.
  assert (H1 : 1 <= total_albums).
  { subst total_albums albums. unfold ordered_albums, sorted_by_key.
    rewrite (Permutation_length (py_sorted_perm _ _)).
    pose proof (group_by_album_perm (recognized file_infos)) as Hp.
    destruct (group_by_album (recognized file_infos)); [|cbn; lia].
    apply Permutation_nil in Hp. contradiction. }
  assert (Hw : 0 <= warn_albums) by (unfold warn_albums, count_level; lia).
  assert (Hc : 0 <= crit_albums) by (unfold crit_albums, count_level; lia).
  assert (Hs : warn_albums + crit_albums <= total_albums).
  { subst warn_albums crit_albums total_albums. unfold count_level.
    rewrite <- Nat2Z.inj_add. apply Nat2Z.inj_le.
    apply filter_exclusive_length. intros kv.
    now destruct (level_of (snd kv)) as [[| |]|]. }
  repeat (split; [assumption|]).
  rewrite health_percent_ratio by lia.
  destruct (ratio_unit_interval (warn_albums + 2 * crit_albums)
              (2 * total_albums)) as [H0 H2]; [lia | lia |].
  now apply health_of_ratio_range.
Qed.

(** ** [format_duration_total] *)

(** X18.  From 28 days on, [format_duration_total] prints ["0mo"] and the
    number of days left over after the full weeks: the months and the days
    are taken from the remainder of the division by 7, so the weeks are
    lost and the branch of the years is never reached. *)
Theorem format_duration_from_four_weeks (total_seconds : Q) :
  2419200 <= Qround_half_up total_seconds ->
  format_duration_total total_seconds
  = "0mo " ++ str_Z ((Qround_half_up total_seconds / 86400) mod 7) ++ "d".
Proof.
  intros H. unfold format_duration_total. cbv zeta.
  set (s := Qround_half_up total_seconds) in *.
  assert (Hd : s / 60 / 60 / 24 = s / 86400)
    by (rewrite !Z.div_div by lia; reflexivity).
  assert (H28 : 28 <= s / 86400)
    by (apply (Z.div_le_lower_bound s 86400 28); lia).
  rewrite Hd.
  set (days := s / 86400) in *.
  assert (Hm : 40320 <= s / 60) by (apply Z.div_le_lower_bound; lia).
  assert (Hh : 672 <= s / 60 / 60) by (apply Z.div_le_lower_bound; lia).
  assert (Hw : 4 <= days / 7) by (apply Z.div_le_lower_bound; lia).
  pose proof (Z.mod_pos_bound days 7 ltac:(lia)) as Hr.
  rewrite (proj2 (Z.ltb_ge s 60)) by lia.
  rewrite (proj2 (Z.ltb_ge (s / 60) 60)) by lia.
  rewrite (proj2 (Z.ltb_ge (s / 60 / 60) 24)) by lia.
  rewrite (proj2 (Z.ltb_ge days 7)) by lia.
  rewrite (proj2 (Z.ltb_ge (days / 7) 4)) by lia.
  rewrite (Z.div_small (days mod 7) 30) by lia.
  rewrite (Z.mod_small (days mod 7) 30) by lia.
  reflexivity.
Qed.

(** ** [format_bytes] *)

Lemma Qround_half_up_hundred (n : Z) :
  0 <= n -> Qround_half_up (inject_Z n * 100) = 100 * n.
Proof.
  intros Hn. unfold Qround_half_up.
  destruct (Qcompare (inject_Z n * 100) 0) eqn:E.
  - unfold Qfloor, Qplus, Qmult, inject_Z. cbn [Qnum Qden].
    change (Z.pos (1 * 1 * 2)) with 2.
    symmetry. apply Z.div_unique with (r := 1); lia.
  - apply Qlt_alt in E. unfold Qlt in E. cbn in E. lia.
  - unfold Qfloor, Qplus, Qmult, inject_Z. cbn [Qnum Qden].
    change (Z.pos (1 * 1 * 2)) with 2.
    symmetry. apply Z.div_unique with (r := 1); lia.
Qed.

(** X19.  Below 1024 bytes [format_bytes] prints the count itself with two
    zero decimals and the unit ["B"]. *)
Theorem format_bytes_below_1024 (num_bytes : Z) :
  0 <= num_bytes < 1024 ->
  format_bytes num_bytes = str_Z num_bytes ++ ".00 B".
Proof.
  intros [H0 H1]. unfold format_bytes. cbn [scale_bytes].
  assert (E : Qle_bool 1024 (inject_Z num_bytes) = false).
  { destruct (Qle_bool 1024 (inject_Z num_bytes)) eqn:E; [|reflexivity].
    apply Qle_bool_iff in E. unfold Qle in E. cbn in E. lia. }
  rewrite E, Qround_half_up_hundred by assumption.
  unfold str_hundredths.
  rewrite (proj2 (Z.ltb_ge (100 * num_bytes) 0)) by lia.
  rewrite Z.abs_eq by lia.
  replace (100 * num_bytes / 100) with num_bytes
    by (apply Z.div_unique with (r := 0); lia).
  replace ((100 * num_bytes) mod 100) with 0
    by (apply Z.mod_unique with (q := num_bytes); lia).
  replace ((100 * num_bytes) mod 10) with 0
    by (apply Z.mod_unique with (q := 10 * num_bytes); lia).
  change (EmptyString ++ ?x) with x.
  now rewrite !string_app_assoc.
Qed.

(** ** [_render_health_bar] *)

Lemma health_bar_cells_checked :
  forallb (fun h => Qtrunc (int_true_div (40 * h) 100) =? 2 * h / 5)
          (map Z.of_nat (seq 0 101))
  = true.
Proof. vm_compute. reflexivity. Qed.

(** X20.  The health bar has 40 cells; for a score clamped to [h] between 0
    and 100, the first [2 h / 5] of them, rounded down, are filled: the
    float division of the program gives the integer quotient. *)
Theorem render_health_bar_cells (health_percent : Z) :
  let h := Z.max 0 (Z.min 100 health_percent) in
  let filled := Z.to_nat (2 * h / 5) in
  _render_health_bar health_percent
  = "Health: [" ++ (repeat_char "=" filled ++ repeat_char "." (40 - filled))
      ++ "] " ++ str_Z h ++ "%"
  /\ (filled <= 40)%nat.
Proof.
  intros h filled. unfold _render_health_bar. cbv zeta. fold h.
  assert (Hh : 0 <= h <= 100) by (subst h; lia).
  assert (Hq : Qtrunc (int_true_div (40 * h) 100) = 2 * h / 5).
  { pose proof health_bar_cells_checked as Hall.
    rewrite forallb_forall in Hall.
    apply Z.eqb_eq, Hall, in_Z_range. lia. }
  rewrite Hq.
  assert (Hf : 0 <= 2 * h / 5 <= 40).
  { split; [apply Z.div_pos; lia|].
    apply Z.div_le_upper_bound; lia. }
  split; [|subst filled; lia].
  replace (Z.to_nat (40 - 2 * h / 5)) with (40 - filled)%nat
    by (subst filled; lia).
  reflexivity.
Qed.

(** ** The progress bar *)

Lemma io_scan_update_progress (show_progress : bool) (total : Z)
    (io : scan_io) :
  io_scan (update_progress show_progress total io) = io_scan io.
Proof. unfold update_progress. now destruct (negb show_progress || _). Qed.

Lemma walk_dir_entries_scan (max_depth : Z) (debug_enabled show_progress : bool)
    (total : Z) :
  forall (k : nat) (current_depth : Z) (dir : string) (es : list entry)
         (io : scan_io),
    k = Z.to_nat (max_depth - current_depth) ->
    io_scan
      (fold_left
         (fun io' e =>
            walk_dir_entry max_depth debug_enabled show_progress total dir
              current_depth e io')
         es io)
    = fold_left
        (fun st e => walk_entry max_depth debug_enabled dir current_depth e st)
        es (io_scan io).
Proof.
  induction k as [|k IHk]; intros depth dir es;
    induction es as [|e es IHes]; intros io Hk;
    cbn [fold_left]; try reflexivity;
    rewrite (IHes _ Hk); f_equal;
    destruct e as [name f|name sub|name|name];
    cbn [walk_dir_entry walk_entry]; try reflexivity;
    try (destruct (should_consider name); [|reflexivity];
         destruct (to_uniform_dict _ f) as [fi|[|]];
         unfold record_candidate; cbn [io_log_debug io_scan];
         now rewrite io_scan_update_progress);
    try (destruct (depth <? max_depth); reflexivity).
  - destruct (depth <? max_depth) eqn:E; [apply Z.ltb_lt in E; lia|].
    reflexivity.
  - destruct (depth <? max_depth) eqn:E; [|reflexivity].
    apply Z.ltb_lt in E. rewrite IHk by lia. reflexivity.
Qed.

Lemma scan_io_fst (root : string) (root_listing : option (list entry))
    (max_depth : Z) (debug_enabled show_progress : bool) :
  fst (scan_folder_for_audio_recursive_io root root_listing max_depth
         debug_enabled show_progress)
  = scan_folder_for_audio_recursive root root_listing max_depth debug_enabled.
Proof.
  unfold scan_folder_for_audio_recursive_io,
    scan_folder_for_audio_recursive, walk_root.
  cbv zeta. cbn [fst].
  set (total := scan_count_total_candidates root_listing max_depth).
  assert (Hfin : forall io,
             io_scan (finish_progress_line show_progress total io)
             = io_scan io).
  { intros io. unfold finish_progress_line.
    now destruct (negb show_progress || _). }
  rewrite !Hfin.
  destruct root_listing as [entries|].
  - rewrite (walk_dir_entries_scan _ _ _ _ (Z.to_nat max_depth))
      by (f_equal; lia).
    cbn [io_log_debug io_scan]. now rewrite io_scan_update_progress.
  - cbn [io_log_debug io_scan]. now rewrite io_scan_update_progress.
Qed.

Lemma get_output_io_fst (root : string) (root_listing : option (list entry))
    (max_depth : Z)
    (debug_enabled per_album no_quick_stats show_progress : bool) :
  fst (get_output_io root root_listing debug_enabled max_depth per_album
         no_quick_stats show_progress)
  = get_output root root_listing debug_enabled max_depth per_album
               no_quick_stats.
Proof.
  unfold get_output_io, get_output.
  rewrite <- (scan_io_fst root root_listing max_depth debug_enabled
                show_progress).
  now destruct (scan_folder_for_audio_recursive_io _ _ _ _ _) as [[r d] o].
Qed.

(** X21.  Painting the progress bar changes neither what the scan returns
    nor the report. *)
Theorem progress_does_not_change_report (root : string)
    (root_listing : option (list entry)) (max_depth : Z)
    (debug_enabled per_album no_quick_stats show_progress : bool) :
  fst (scan_folder_for_audio_recursive_io root root_listing max_depth
         debug_enabled show_progress)
  = scan_folder_for_audio_recursive root root_listing max_depth debug_enabled
  /\ fst (get_output_io root root_listing debug_enabled max_depth per_album
            no_quick_stats show_progress)
     = get_output root root_listing debug_enabled max_depth per_album
                  no_quick_stats.
Proof. split; [apply scan_io_fst | apply get_output_io_fst]. Qed.

Lemma progress_paints_app (show_progress : bool) (total first : Z)
    (n1 n2 : nat) :
  progress_paints show_progress total first (n1 + n2)
  = (progress_paints show_progress total first n1
     ++ progress_paints show_progress total (first + Z.of_nat n1) n2)%list.
Proof.
  unfold progress_paints.
  destruct (negb show_progress || (total =? 0)); [reflexivity|].
  rewrite seq_app, map_app. f_equal.
  generalize 0%nat as a. induction n2 as [|n2 IH]; intros a; [reflexivity|].
  cbn [seq map]. rewrite <- (IH (S a)). cbn [Nat.add].
  do 2 f_equal. lia.
Qed.

Lemma painted_refl (show_progress : bool) (total : Z) (io io' : scan_io) :
  processed_candidates io' = processed_candidates io ->
  stdout io' = stdout io ->
  painted show_progress total io io'.
Proof.
  intros Hp Hs. unfold painted. rewrite Hp, Hs, Z.sub_diag.
  split; [lia|]. unfold progress_paints.
  destruct (negb _ || _); cbn [Z.to_nat seq map]; now rewrite app_nil_r.
Qed.

Lemma painted_trans (show_progress : bool) (total : Z)
    (io1 io2 io3 : scan_io) :
  painted show_progress total io1 io2 ->
  painted show_progress total io2 io3 ->
  painted show_progress total io1 io3.
Proof.
  unfold painted. intros [H1 E1] [H2 E2]. split; [lia|].
  rewrite E2, E1, <- app_assoc. f_equal.
  replace (Z.to_nat (processed_candidates io3 - processed_candidates io1))
    with (Z.to_nat (processed_candidates io2 - processed_candidates io1)
          + Z.to_nat (processed_candidates io3 - processed_candidates io2))%nat
    by lia.
  rewrite progress_paints_app. do 2 f_equal. lia.
Qed.

Lemma painted_record_candidate (show_progress : bool) (total : Z)
    (fi : file_info) (io : scan_io) :
  painted show_progress total io
          (record_candidate show_progress total fi io)
  /\ processed_candidates (record_candidate show_progress total fi io)
     = processed_candidates io + 1.
Proof.
  unfold painted, record_candidate, update_progress, progress_paints.
  destruct (negb show_progress || (total =? 0));
    cbn [processed_candidates stdout write_stdout];
    replace (processed_candidates io + 1 - processed_candidates io) with 1
      by lia;
    change (Z.to_nat 1) with 1%nat; cbn [seq map Z.of_nat];
    rewrite ?app_nil_r, ?Z.add_0_r;
    (split; [split; [lia | reflexivity] | reflexivity]).
Qed.

(** What the walk writes: one paint for each candidate file it counts,
    with the counter increased by one each time. *)
Lemma walk_dir_entries_painted (max_depth : Z)
    (debug_enabled show_progress : bool) (total : Z) :
  forall (k : nat) (current_depth : Z) (dir : string) (es : list entry)
         (io : scan_io),
    k = Z.to_nat (max_depth - current_depth) ->
    let io' :=
      fold_left
        (fun io' e =>
           walk_dir_entry max_depth debug_enabled show_progress total dir
             current_depth e io')
        es io in
    painted show_progress total io io'
    /\ processed_candidates io'
       = fold_left (fun total' e => count_entry max_depth current_depth e total')
                   es (processed_candidates io).
Proof.
  induction k as [|k IHk]; intros depth dir es;
    induction es as [|e es IHes]; intros io Hk; cbv zeta;
    cbn [fold_left];
    try (split; [apply painted_refl; reflexivity | reflexivity]);
    destruct (IHes (walk_dir_entry max_depth debug_enabled show_progress
                      total dir depth e io) Hk) as [Hp Hs];
    rewrite Hs; clear Hs;
    (enough (Hone :
               painted show_progress total io
                 (walk_dir_entry max_depth debug_enabled show_progress
                    total dir depth e io)
               /\ processed_candidates
                    (walk_dir_entry max_depth debug_enabled show_progress
                       total dir depth e io)
                  = count_entry max_depth depth e (processed_candidates io));
     [destruct Hone as [H1 ->];
      split; [exact (painted_trans _ _ _ _ _ H1 Hp) | reflexivity]|]);
    clear Hp IHes;
    destruct e as [name f|name sub|name|name];
    cbn [walk_dir_entry count_entry];
    try (split; [apply painted_refl; reflexivity | reflexivity]);
    try (destruct (depth <? max_depth);
         (split; [apply painted_refl; reflexivity | reflexivity]));
    try (destruct (should_consider name);
         [|split; [apply painted_refl; reflexivity | reflexivity]];
         destruct (to_uniform_dict _ f) as [fi|[|]];
         cbn [io_log_debug];
         match goal with
         | |- context [record_candidate ?s ?t ?r ?i] =>
             destruct (painted_record_candidate s t r i) as [H1 H2]
         end;
         (split; [|exact H2]);
         first [exact H1
               | eapply painted_trans; [exact H1|];
                 apply painted_refl; reflexivity]).
  - destruct (depth <? max_depth) eqn:E; [apply Z.ltb_lt in E; lia|].
    split; [apply painted_refl; reflexivity | reflexivity].
  - destruct (depth <? max_depth) eqn:E;
      [|split; [apply painted_refl; reflexivity | reflexivity]].
    apply Z.ltb_lt in E.
    destruct (IHk (depth + 1) (entry_path dir name) sub
                (io_log_debug debug_enabled
                   (entering_line (entry_path dir name) (depth + 1)) io))
      as [H1 H2]; [lia|].
    split; [|exact H2].
    eapply painted_trans; [|exact H1]. apply painted_refl; reflexivity.
Qed.

(** X22.  With the progress bar on and at least one candidate file, the
    scan paints the bar once before the walk and once after each candidate
    file, with the counter going from 0 to the number of candidates of the
    pre-pass, and then ends the line; it writes nothing else. *)
Theorem progress_writes (root : string) (entries : list entry)
    (max_depth : Z) (debug_enabled : bool) :
  let total := scan_count_total_candidates (Some entries) max_depth in
  0 < total ->
  snd (scan_folder_for_audio_recursive_io root (Some entries) max_depth
         debug_enabled true)
  = (map (fun i => progress_text total (Z.of_nat i))
         (seq 0 (S (Z.to_nat total)))
     ++ [NL])%list.
Proof.
  intros total Hpos.
  unfold scan_folder_for_audio_recursive_io. cbv zeta. cbn [snd]. fold total.
  unfold finish_progress_line, update_progress. cbn [negb orb].
  rewrite (proj2 (Z.eqb_neq total 0)) by lia.
  cbn [write_stdout stdout processed_candidates io_scan List.app].
  f_equal.
  match goal with
  | |- stdout (fold_left _ _ ?io1) = _ =>
      destruct (walk_dir_entries_painted max_depth debug_enabled true total
                  (Z.to_nat max_depth) 0 root entries io1)
        as [[_ Hs] Hp]; [f_equal; lia|]
  end.
  cbn [io_log_debug processed_candidates stdout write_stdout] in Hs, Hp.
  change (fold_left _ entries 0) with total in Hp.
  rewrite Hs, Hp. unfold progress_paints. cbn [negb orb].
  rewrite (proj2 (Z.eqb_neq total 0)) by lia.
  rewrite Z.sub_0_r. cbn [List.app seq map Z.of_nat]. f_equal.
  rewrite <- seq_shift, map_map. apply map_ext. intros i. f_equal. lia.
Qed.

(** X23.  Without [show_progress], or when the pre-pass finds no candidate
    file, the scan writes nothing to the terminal. *)
Theorem progress_silent (root : string) (root_listing : option (list entry))
    (max_depth : Z) (debug_enabled show_progress : bool) :
  show_progress = false
  \/ scan_count_total_candidates root_listing max_depth = 0 ->
  snd (scan_folder_for_audio_recursive_io root root_listing max_depth
         debug_enabled show_progress)
  = [].
Proof.
  intros H.
  unfold scan_folder_for_audio_recursive_io. cbv zeta. cbn [snd].
  set (total := scan_count_total_candidates root_listing max_depth) in *.
  assert (Hoff : negb show_progress || (total =? 0) = true).
  { destruct H as [->| ->]; [reflexivity | apply orb_true_r]. }
  unfold finish_progress_line, update_progress. rewrite Hoff.
  destruct root_listing as [entries|]; [|reflexivity].
  match goal with
  | |- stdout (fold_left _ _ ?io1) = _ =>
      destruct (walk_dir_entries_painted max_depth debug_enabled
                  show_progress total (Z.to_nat max_depth) 0 root entries io1)
        as [[_ Hs] _]; [f_equal; lia|]
  end.
  rewrite Hs. unfold progress_paints. now rewrite Hoff.
Qed.

Lemma repeat_char_length (c : ascii) (n : nat) :
  String.length (repeat_char c n) = n.
Proof. induction n as [|n IH]; cbn; [reflexivity | now rewrite IH]. Qed.

Lemma string_length_app (a b : string) :
  String.length (a ++ b) = (String.length a + String.length b)%nat.
Proof.
  induction a as [|x a IH]; [reflexivity|].
  change (S (String.length (a ++ b))
          = S (String.length a + String.length b)).
  now rewrite IH.
Qed.

Lemma Qtrunc_bounds (x : Q) (n : Z) :
  (0 <= x)%Q -> (x <= inject_Z n)%Q -> 0 <= Qtrunc x <= n.
Proof.
  intros H0 Hn. unfold Qtrunc.
  destruct (Qcompare x 0) eqn:E;
    try (split;
         [ rewrite <- (Qfloor_Z 0); now apply Qfloor_resp_le
         | rewrite <- (Qfloor_Z n); now apply Qfloor_resp_le ]).
  apply Qlt_alt in E. apply Qlt_not_le in E. contradiction.
Qed.

Lemma rnd64_Qeq (x y : Q) : (0 <= x)%Q -> (x == y)%Q -> (rnd64 x == rnd64 y)%Q.
Proof.
  intros H0 E. apply Qle_antisym; apply rnd64_mono; lra.
Qed.

(** X24.  The progress bar always has 40 cells: none is filled before the
    first candidate and all are once every candidate is processed. *)
Theorem progress_bar_cells (total_candidates processed_candidates : Z) :
  0 <= processed_candidates <= total_candidates -> 0 < total_candidates ->
  String.length (progress_bar total_candidates processed_candidates) = 40%nat
  /\ progress_bar total_candidates 0 = repeat_char "." 40
  /\ progress_bar total_candidates total_candidates = repeat_char "=" 40.
Proof.
  intros Hp Ht.
  assert (Hq : forall p, 0 <= p <= total_candidates ->
                 (0 <= inject_Z (progress_bar_width * p)
                       / inject_Z total_candidates)%Q
                 /\ (inject_Z (progress_bar_width * p)
                     / inject_Z total_candidates <= 40)%Q).
  { intros p Hpp. unfold progress_bar_width.
    assert (Hm : (0 < inject_Z total_candidates)%Q) by now apply (Z2Q_lt 0).
    split.
    - apply Qle_shift_div_l; [assumption|].
      rewrite Qmult_0_l. apply (Z2Q_le 0). lia.
    - apply Qle_shift_div_r; [assumption|].
      change 40%Q with (inject_Z 40). rewrite <- inject_Z_mult.
      apply Z2Q_le. lia. }
  assert (Hf : forall p, 0 <= p <= total_candidates ->
                 0 <= Qtrunc (int_true_div (progress_bar_width * p)
                                           total_candidates) <= 40).
  { intros p Hpp. destruct (Hq p Hpp) as [H0 H40].
    unfold int_true_div. apply Qtrunc_bounds.
    - now apply rnd64_nonneg.
    - apply rnd64_le; [assumption | assumption | reflexivity]. }
  split; [|split].
  - unfold progress_bar. specialize (Hf _ Hp).
    rewrite string_length_app, !repeat_char_length.
    unfold progress_bar_width in *. lia.
  - unfold progress_bar. rewrite Z.mul_0_r.
    replace (Qtrunc (int_true_div 0 total_candidates)) with 0; [reflexivity|].
    unfold int_true_div. destruct total_candidates; reflexivity.
  - unfold progress_bar.
    replace (Qtrunc (int_true_div (progress_bar_width * total_candidates)
                                  total_candidates)) with 40; [reflexivity|].
    unfold int_true_div.
    assert (E : (inject_Z (progress_bar_width * total_candidates)
                 / inject_Z total_candidates == 40)%Q).
    { unfold progress_bar_width. rewrite inject_Z_mult.
      field. apply Qnot_eq_sym, Qlt_not_eq. now apply (Z2Q_lt 0). }
    assert (Hin : 0 <= total_candidates <= total_candidates) by lia.
    assert (E' := rnd64_Qeq _ _ (proj1 (Hq _ Hin)) E).
    unfold Qtrunc.
    rewrite (Qcompare_comp _ _ E' 0%Q 0%Q (Qeq_refl 0%Q)).
    rewrite (Qfloor_comp _ _ E'). reflexivity.
Qed.

(** ** [main] *)

(** The report [main] works with. *)
Lemma main_report (args : arguments) (w : world) :
  fst (get_output_io (abspath_of_folder w) (folder_listing w) (arg_debug args)
         (arg_max_depth args) (arg_per_album args) (arg_no_quick_stats args)
         (arg_terminal args))
  = get_output (abspath_of_folder w) (folder_listing w) (arg_debug args)
      (arg_max_depth args) (arg_per_album args) (arg_no_quick_stats args).
Proof. apply get_output_io_fst. Qed.

(** X25.  [main] writes a file only when asked to, only when the output
    file does not exist yet, and then it writes the report to the path it
    was given: an existing file is never overwritten. *)
Theorem main_never_overwrites (args : arguments) (w : world)
    (file_path text : string) :
  In (WriteFile file_path text) (fst (main args w)) ->
  arg_to_file args = true /\ output_exists w = false
  /\ file_path = arg_output_path args
  /\ text = get_output (abspath_of_folder w) (folder_listing w)
              (arg_debug args) (arg_max_depth args) (arg_per_album args)
              (arg_no_quick_stats args).
Proof.
  rewrite <- main_report. unfold main.
  destruct (folder_is_dir w); cbn [negb].
  2: { cbn [fst In]. intros [[=]|[]]. }
  destruct (get_output_io _ _ _ _ _ _ _) as [output_text painted].
  cbn [fst].
  assert (Hpaint : ~ In (WriteFile file_path text) (map Stdout painted)).
  { intros H. apply in_map_iff in H as (s & [=] & _). }
  unfold save_to_file, copy_to_clipboard, print_to_terminal, print.
  destruct (arg_to_file args), (mkdir_raises w), (output_exists w),
    (open_raises w), (arg_copy args), (copy_raises w), (arg_terminal args);
    cbn [fst negb andb orb]; rewrite ?in_app_iff; cbn [In];
    intros H; decompose [or] H; clear H;
    try contradiction; try discriminate;
    match goal with
    | H : WriteFile _ _ = WriteFile _ _ |- _ => injection H as <- <-
    end;
    now repeat split.
Qed.

(** X26.  When [main] returns, the report has reached a sink: the output
    file, the clipboard or the terminal.  Without any of the three
    switches it is the terminal. *)
Theorem main_report_reaches_a_sink (args : arguments) (w : world) :
  snd (main args w) = Returned ->
  let text :=
    get_output (abspath_of_folder w) (folder_listing w) (arg_debug args)
      (arg_max_depth args) (arg_per_album args) (arg_no_quick_stats args) in
  (arg_to_file args = true
   /\ In (WriteFile (arg_output_path args) text) (fst (main args w)))
  \/ (arg_copy args = true /\ In (Clipboard text) (fst (main args w)))
  \/ ((arg_terminal args = true
       \/ (arg_to_file args = false /\ arg_copy args = false))
      /\ exists before, fst (main args w) = (before ++ [Stdout text])%list).
Proof.
  cbv zeta. rewrite <- main_report. unfold main.
  destruct (folder_is_dir w); cbn [negb]; [|discriminate].
  destruct (get_output_io _ _ _ _ _ _ _) as [output_text painted].
  cbn [fst].
  unfold save_to_file, copy_to_clipboard, print_to_terminal, print.
  destruct (arg_to_file args), (mkdir_raises w), (output_exists w),
    (open_raises w), (arg_copy args), (copy_raises w), (arg_terminal args);
    cbn [fst snd negb andb orb]; try discriminate; intros _;
    cbn [List.app];
    first
      [ left; split; [reflexivity|];
        rewrite !in_app_iff; cbn [In]; tauto
      | right; left; split; [reflexivity|];
        rewrite !in_app_iff; cbn [In]; tauto
      | right; right; split; [tauto|];
        eexists; reflexivity ].
Qed.

(** ** Words and blanks *)

Lemma list_ascii_app (a b : string) :
  list_ascii_of_string (a ++ b)
  = (list_ascii_of_string a ++ list_ascii_of_string b)%list.
Proof.
  induction a as [|x a IH]; [reflexivity|].
  change (x :: list_ascii_of_string (a ++ b)
          = x :: (list_ascii_of_string a ++ list_ascii_of_string b)%list).
  now rewrite IH.
Qed.

Lemma string_app_nil_r (s : string) : s ++ EmptyString = s.
Proof.
  induction s as [|x s IH]; [reflexivity|].
  change (String x (s ++ EmptyString) = String x s). now rewrite IH.
Qed.

Lemma rev_string_app (a b : string) :
  rev_string (a ++ b) = rev_string b ++ rev_string a.
Proof.
  unfold rev_string.
  now rewrite list_ascii_app, rev_app_distr, string_of_list_ascii_app.
Qed.

Lemma rev_string_involutive (s : string) : rev_string (rev_string s) = s.
Proof.
  unfold rev_string.
  now rewrite list_ascii_of_string_of_list_ascii, rev_involutive,
    string_of_list_ascii_of_string.
Qed.

(** The runs [split_ws_from] cuts out are not empty and hold no blank;
    their characters come from the run being read or from the text. *)
Lemma split_ws_from_words (s : string) :
  forall (cur : list ascii) (w : string),
    (forall a, In a cur -> isspace a = false) ->
    In w (split_ws_from cur s) ->
    w <> EmptyString
    /\ forall a, In a (list_ascii_of_string w) ->
                 isspace a = false
                 /\ (In a cur \/ In a (list_ascii_of_string s)).
Proof.
  assert (Hrun : forall (c : ascii) (cur : list ascii),
             (forall a, In a (c :: cur) -> isspace a = false) ->
             string_of_list_ascii (rev (c :: cur)) <> EmptyString
             /\ forall a,
                  In a (list_ascii_of_string
                          (string_of_list_ascii (rev (c :: cur)))) ->
                  isspace a = false /\ In a (c :: cur)).
  { intros c cur Hcur. split.
    - intros H. apply (f_equal list_ascii_of_string) in H.
      rewrite list_ascii_of_string_of_list_ascii in H. cbn [rev] in H.
      now destruct (rev cur).
    - intros a Ha. rewrite list_ascii_of_string_of_list_ascii in Ha.
      apply in_rev in Ha. split; [now apply Hcur | assumption]. }
  induction s as [|x s IH]; intros cur w Hcur; cbn [split_ws_from].
  - destruct cur as [|c cur]; [intros []|].
    intros [<-|[]]. destruct (Hrun c cur Hcur) as [H1 H2].
    split; [assumption|]. intros a Ha. destruct (H2 a Ha). tauto.
  - cbn [list_ascii_of_string].
    destruct (isspace x) eqn:Ex.
    + destruct cur as [|c cur].
      * intros Hw. destruct (IH [] w Hcur Hw) as [H1 H2].
        split; [assumption|]. intros a Ha. destruct (H2 a Ha) as [? [[]|?]].
        split; [assumption|]. right. now right.
      * intros [<-|Hw].
        -- destruct (Hrun c cur Hcur) as [H1 H2].
           split; [assumption|]. intros a Ha. destruct (H2 a Ha). tauto.
        -- destruct (IH [] w (fun a (H : In a []) => match H with end) Hw)
             as [H1 H2].
           split; [assumption|]. intros a Ha. destruct (H2 a Ha) as [? [[]|?]].
           split; [assumption|]. right. now right.
    + intros Hw.
      assert (Hcur' : forall a, In a (x :: cur) -> isspace a = false).
      { intros a [<-|Ha]; [assumption | now apply Hcur]. }
      destruct (IH (x :: cur) w Hcur' Hw) as [H1 H2].
      split; [assumption|]. intros a Ha.
      destruct (H2 a Ha) as [? [[<-|?]|?]]; split; try assumption.
      * right. now left.
      * now left.
      * right. now right.
Qed.

(** Reading a run without blank extends the run being read. *)
Lemma split_ws_from_run (w rest : string) :
  forall cur : list ascii,
    (forall a, In a (list_ascii_of_string w) -> isspace a = false) ->
    split_ws_from cur (w ++ rest)
    = split_ws_from (rev (list_ascii_of_string w) ++ cur) rest.
Proof.
  induction w as [|x w IH]; intros cur Hw; [reflexivity|].
  change (String x w ++ rest) with (String x (w ++ rest)).
  cbn [split_ws_from list_ascii_of_string rev].
  rewrite (Hw x) by now left.
  rewrite IH by (intros a Ha; apply Hw; now right).
  now rewrite <- app_assoc.
Qed.

(** Cutting the words joined by single blanks gives the words back. *)
Lemma split_ws_join (ws : list string) :
  isspace " " = true ->
  (forall w, In w ws ->
             w <> EmptyString
             /\ forall a, In a (list_ascii_of_string w) -> isspace a = false) ->
  split_ws (join " " ws) = ws.
Proof.
  intros Hsp. unfold split_ws, join.
  induction ws as [|w ws IH]; intros Hws; [reflexivity|].
  destruct (Hws w (or_introl eq_refl)) as [Hne Hw].
  assert (Hrun : string_of_list_ascii
                   (rev (rev (list_ascii_of_string w) ++ [])) = w).
  { now rewrite app_nil_r, rev_involutive, string_of_list_ascii_of_string. }
  assert (Hcur : (rev (list_ascii_of_string w) ++ [])%list <> []).
  { rewrite app_nil_r. intros H.
    apply (f_equal (@rev ascii)) in H. rewrite rev_involutive in H.
    apply Hne. rewrite <- (string_of_list_ascii_of_string w), H.
    reflexivity. }
  destruct ws as [|w2 ws].
  - cbn [String.concat].
    rewrite <- (string_app_nil_r w) at 1.
    rewrite (split_ws_from_run w EmptyString [] Hw).
    cbn [split_ws_from].
    destruct (rev (list_ascii_of_string w) ++ [])%list;
      [now destruct Hcur|].
    now rewrite Hrun.
  - change (String.concat " " (w :: w2 :: ws))
      with (w ++ String " " (String.concat " " (w2 :: ws))).
    rewrite (split_ws_from_run w _ [] Hw).
    cbn [split_ws_from]. rewrite Hsp.
    destruct (rev (list_ascii_of_string w) ++ [])%list;
      [now destruct Hcur|].
    rewrite Hrun. f_equal.
    apply IH. intros w' Hw'. apply Hws. now right.
Qed.

Lemma lstrip_word (w rest : string) :
  w <> EmptyString ->
  (forall a, In a (list_ascii_of_string w) -> isspace a = false) ->
  lstrip (w ++ rest) = w ++ rest.
Proof.
  destruct w as [|x w]; [contradiction|]. intros _ Hw.
  change (String x w ++ rest) with (String x (w ++ rest)).
  cbn [lstrip]. now rewrite (Hw x) by now left.
Qed.

Lemma rstrip_word (before w : string) :
  w <> EmptyString ->
  (forall a, In a (list_ascii_of_string w) -> isspace a = false) ->
  rstrip (before ++ w) = before ++ w.
Proof.
  intros Hne Hw. unfold rstrip.
  rewrite rev_string_app, lstrip_word, <- rev_string_app;
    [apply rev_string_involutive | |].
  - intros H. apply (f_equal rev_string) in H.
    rewrite rev_string_involutive in H. now apply Hne.
  - intros a Ha. apply Hw. unfold rev_string in Ha.
    rewrite list_ascii_of_string_of_list_ascii in Ha. now apply in_rev.
Qed.

(** Words joined by single blanks have no blank at either end. *)
Lemma strip_join (ws : list string) :
  (forall w, In w ws ->
             w <> EmptyString
             /\ forall a, In a (list_ascii_of_string w) -> isspace a = false) ->
  strip (join " " ws) = join " " ws.
Proof.
  intros Hws. unfold strip, join.
  destruct ws as [|w ws]; [reflexivity|].
  assert (Hl : lstrip (String.concat " " (w :: ws))
               = String.concat " " (w :: ws)).
  { destruct (Hws w (or_introl eq_refl)) as [Hne Hw].
    destruct ws as [|w2 ws].
    - cbn [String.concat].
      rewrite <- (string_app_nil_r w). now apply lstrip_word.
    - change (String.concat " " (w :: w2 :: ws))
        with (w ++ String " " (String.concat " " (w2 :: ws))).
      now apply lstrip_word. }
  rewrite Hl. clear Hl.
  assert (Hlast : exists before w',
             String.concat " " (w :: ws) = before ++ w' /\ In w' (w :: ws)).
  { clear Hws. revert w. induction ws as [|w2 ws IH]; intros w.
    - exists EmptyString, w. split; [reflexivity | now left].
    - destruct (IH w2) as (before & w' & E & Hin).
      exists (w ++ " " ++ before), w'.
      change (String.concat " " (w :: w2 :: ws))
        with (w ++ " " ++ String.concat " " (w2 :: ws)).
      rewrite E.
      split; [now rewrite !string_app_assoc | now right]. }
  destruct Hlast as (before & w' & -> & Hin).
  destruct (Hws w' Hin) as [Hne Hw]. now apply rstrip_word.
Qed.

(** X27.  The canonical form of a string is normalized: it has no blank at
    either end, and its words are separated by single spaces, so that
    stripping it, or cutting it into words and joining them again, gives
    it back. *)
Theorem canonicalize_string_normal (value : string) :
  isspace " " = true ->
  let c := canonicalize_string (Some value) in
  strip c = c /\ join " " (split_ws c) = c.
Proof.
  intros Hsp c. subst c. unfold canonicalize_string.
  assert (Hws : forall w,
             In w (split_ws (lower (strip value))) ->
             w <> EmptyString
             /\ forall a, In a (list_ascii_of_string w) -> isspace a = false).
  { intros w Hw.
    destruct (split_ws_from_words _ [] w
                (fun a (H : In a []) => match H with end) Hw) as [H1 H2].
    split; [assumption|]. intros a Ha. now destruct (H2 a Ha). }
  split.
  - now apply strip_join.
  - now rewrite split_ws_join.
Qed.

(** ** What the scan returns, and the empty report *)

(** X28.  Every record the scan returns is the record of a file entry of
    the scanned tree: an entry of a directory at most [max_depth] levels
    below the root, whose name has one of the supported extensions, under
    the path of that directory.  Files with another extension are never
    decoded, and no record comes from elsewhere. *)
Theorem scan_results_are_candidates (root : string)
    (root_listing : option (list entry)) (max_depth : Z)
    (debug_enabled : bool) (fi : file_info) :
  In fi (fst (scan_folder_for_audio_recursive root root_listing max_depth
                debug_enabled)) ->
  exists entries k dir es name f,
    root_listing = Some entries
    /\ (k <= Z.to_nat max_depth)%nat
    /\ In (dir, es) (dirs_at k root entries)
    /\ In (EFile name f) es
    /\ should_consider name = true
    /\ fi = record_of (entry_path dir name, f).
Proof.
  destruct root_listing as [entries|].
  - intros H.
    apply (Permutation_in _ (scan_folder_records _ _ _ _)) in H.
    apply in_map_iff in H as (c & <- & Hc).
    unfold candidates_upto in Hc.
    apply List.in_flat_map in Hc as (k & Hk & Hc).
    apply in_seq in Hk.
    unfold candidates_at in Hc.
    apply List.in_flat_map in Hc as ([dir es] & Hd & Hc).
    cbn [fst snd] in Hc. rewrite candidates_flat_map in Hc.
    apply List.in_flat_map in Hc as (e & He & Hc).
    destruct e as [name f|name sub|name|name]; try (now destruct Hc).
    destruct (should_consider name) eqn:Hs; [|now destruct Hc].
    destruct Hc as [<-|[]].
    exists entries, k, dir, es, name, f.
    repeat split; try assumption. lia.
  - unfold scan_folder_for_audio_recursive, walk_root, sorted_by_key.
    cbn [fst]. rewrite !results_log_debug. intros [].
Qed.

Lemma report_first_char (title : string) (lines : list string) :
  exists rest, join NL ((NL ++ title) :: lines) ++ NL = NL ++ rest.
Proof. destruct lines; eexists; reflexivity. Qed.

Lemma no_music_first_char (rest : string) : NO_MUSIC <> NL ++ rest.
Proof. discriminate. Qed.

(** X29.  [get_output] returns the sentence that no music file was found
    exactly when the scan has recognized no file; any other report starts
    with a line feed. *)
Theorem no_music_iff (root : string) (root_listing : option (list entry))
    (debug_enabled : bool) (max_depth : Z) (per_album no_quick_stats : bool) :
  (get_output root root_listing debug_enabled max_depth per_album
              no_quick_stats
   = NO_MUSIC
   <-> recognized
         (fst (scan_folder_for_audio_recursive root root_listing max_depth
                 debug_enabled))
       = [])
  /\ (get_output root root_listing debug_enabled max_depth per_album
                 no_quick_stats
      = NO_MUSIC
      \/ exists rest,
           get_output root root_listing debug_enabled max_depth per_album
                      no_quick_stats
           = NL ++ rest).
Proof.
  unfold get_output.
  destruct (scan_folder_for_audio_recursive _ _ _ _) as [file_infos dbg].
  cbn [fst].
  destruct (recognized file_infos) as [|fi l] eqn:E.
  - rewrite (render_report_no_recognized _ _ _ _ _ _ E).
    split; [split; reflexivity | now left].
  - assert (H : exists rest,
               render_report root file_infos dbg debug_enabled per_album
                             no_quick_stats
               = NL ++ rest).
    { unfold render_report. rewrite E. cbv zeta.
      destruct no_quick_stats; cbn [negb List.app];
        destruct (omap _ _); apply report_first_char. }
    split; [|now right].
    destruct H as (rest & ->).
    split; [intros H; symmetry in H; now apply no_music_first_char in H
          | discriminate].
Qed.

End Properties.

(** * The properties at the example data *)

#[local] Existing Instance ascii_python.

Lemma parse_track_number_cases_witness :
  parse_track_number (example_frames "One" "A" "X" " 3/12 ")
  = (Some 3, Some 12).
Proof.
  destruct (parse_track_number_cases
              (example_frames "One" "A" "X" " 3/12 ")) as (_ & H & _).
  apply (H " 3/12 " "3" "12"); [reflexivity | discriminate | reflexivity | reflexivity].
Defined.

Lemma severity_resolution_witness :
  crit_messages example_album = []
  /\ warn_messages example_album <> []
  /\ level_of example_album = Some WARN
  /\ messages_of example_album
     = warn_messages example_album.
Proof.
  destruct (severity_resolution example_album)
    as (_ & H & _).
  assert (Hc : crit_messages example_album = [])
    by reflexivity.
  assert (Hw : warn_messages example_album <> [])
    by (vm_compute; discriminate).
  destruct (H Hc Hw) as [Hl Hm].
  exact (conj Hc (conj Hw (conj Hl Hm))).
Defined.

(** C3, at an album of three tracks of which the first two have the same
    bytes.  There is one duplicate group and it is shown; the closing
    sentence still announces one more duplicate group, which is the group of
    the third track alone. *)
Lemma duplicate_summary_counts_single_files :
  List.length (duplicate_groups example_album) = 1%nat
  /\ List.length (all_groups example_album) = 2%nat
  /\ duplicate_messages example_album
     = ["Duplicate audio content detected, for example: 01.mp3 (+1 more in that group).";
        "There are 1 more duplicate group(s) not shown."].
Proof. vm_compute. repeat split. Qed.

(** C4.  Line 661 of the program tests the error tag ["mp3_unreadable"]
    on records whose container is ["mp3"], under the heading of the
    critical unreadable MP3s.  The record of a corrupt MP3 file carries the
    tag but no container, whether it is built by [to_uniform_dict] or by
    the walker: it does not count, an album made of it has no level at
    all, and beside the records of sound files it leaves the count at
    zero. *)
Lemma unreadable_mp3_record_is_not_crit :
  error example_corrupt_record = Some "mp3_unreadable"
  /\ path_suffix (file_name example_corrupt_record) = ".mp3"
  /\ container example_corrupt_record = None
  /\ counts_as_unreadable_mp3 example_corrupt_record = false
  /\ counts_as_unreadable_mp3
       (walker_error_record "/music/B/x.mp3" "mp3_unreadable")
     = false
  /\ level_of [example_corrupt_record] = None
  /\ crit_messages [example_corrupt_record] = []
  /\ crit_count (List.app example_album [example_corrupt_record]) = 0%Z
  /\ level_of (List.app example_album [example_corrupt_record])
     = level_of example_album
  /\ level_of example_album <> Some CRIT.
Proof. vm_compute. repeat split. discriminate. Qed.

Lemma unreadable_mp3_rule_witness :
  let fi :=
    {| path := Some "/music/a.mp3"; file_name := "a.mp3"; error := None;
       container := Some "mp3"; length_s := None; sample_rate := None;
       channels := None; bitrate := None; tags := ∅;
       title := Some EmptyString; album := Some EmptyString;
       artist := Some EmptyString;
       track_number := None; track_total := None; id3_version := None;
       artwork_hashes := []; content_hash := Some "aa";
       size_bytes := Some 2 |} in
  (exists fi', In fi' [fi] /\ container fi' = Some "mp3"
               /\ (error fi' = Some "mp3_unreadable" \/ length_s fi' = None))
  /\ level_of [fi] = Some CRIT.
Proof.
  intros fi.
  assert (H : exists fi', In fi' [fi] /\ container fi' = Some "mp3"
               /\ (error fi' = Some "mp3_unreadable" \/ length_s fi' = None)).
  { exists fi. split; [now left | split; [reflexivity | now right]]. }
  split; [exact H|].
  exact (proj1 (proj1 (unreadable_mp3_rule [fi]) H)).
Defined.

(** C5 fails at a directory with a sound file of 4 bytes and a corrupt file
    of 5 bytes: the error record carries its 5 bytes, and the report gives
    4.00 B as the total size. *)
Lemma error_record_size_not_in_total :
  map (fun fi => (file_name fi, error fi, size_bytes fi))
      (fst (scan_folder_for_audio_recursive "/music" (Some example_mixed) 5
              false))
  = [("a.mp3", None, Some 4); ("b.mp3", Some "mp3_unreadable", Some 5)]
  /\ get_output "/music" (Some example_mixed) false 5 false false
     = join NL
         [EmptyString;
          QUOTE ++ "/music" ++ QUOTE ++ " Library Scan";
          "===================================================";
          "Health: [========================================] 100%";
          "Albums: 1  Tracks: 1  Size: 4.00 B  Duration: 3m 1s";
          "===================================================";
          EmptyString;
          EmptyString;
          "No warnings, critical issues, or informational notes were detected.";
          EmptyString].
Proof. split; vm_compute; reflexivity. Qed.

(** C7 fails at a directory that holds two copies of one file under the
    names [A.mp3] and [a.mp3]: the duplicate sentence names the file the
    directory yields first. *)
Lemma report_depends_on_listing_order :
  same_tree example_case_a example_case_b
  /\ get_output "/music" (Some example_case_a) false 5 false true
     <> get_output "/music" (Some example_case_b) false 5 false true.
Proof. split; [apply same_swap | vm_compute; discriminate]. Qed.

Lemma report_independent_of_listing_order_witness :
  same_tree example_library example_library_reordered
  /\ get_output "/music" (Some example_library) false 5 true false
     = get_output "/music" (Some example_library_reordered) false 5 true
                  false.
Proof.
  assert (H : same_tree example_library example_library_reordered)
    by apply same_swap.
  split; [exact H|].
  apply (report_independent_of_listing_order _ _ _ _ _ _ H).
  vm_compute.
  repeat (constructor; [cbn; intuition discriminate|]). constructor.
Defined.



Lemma all_unreadable_is_no_music_witness :
  get_output "/music" (Some example_all_corrupt) false 5 false false
  = "Couldn't find any music files with current parameters." ++ NL
  /\ get_output "/music" (Some example_all_corrupt) false 5 false false
     = get_output "/music" (Some []) false 5 false false.
Proof.
  apply all_unreadable_is_no_music.
  intros c Hc. vm_compute in Hc.
  destruct Hc as [<-|[<-|[]]]; reflexivity.
Defined.

(** C1 fails where the exact value is half-way between two integers: the
    program gives 57 for 57.5, where rounding to even or upwards gives 58,
    and 43 for 42.5, where rounding to even or downwards gives 42. *)
Lemma health_percent_not_round_of_exact :
  (exact_health 20 17 0 == 115 # 2)%Q
  /\ health_percent 20 17 0 = 57%Z
  /\ Qround_half_even (exact_health 20 17 0) = 58%Z
  /\ Qround_half_up (exact_health 20 17 0) = 58%Z
  /\ (exact_health 20 17 3 == 85 # 2)%Q
  /\ health_percent 20 17 3 = 43%Z
  /\ Qround_half_even (exact_health 20 17 3) = 42%Z.
Proof. repeat split; vm_compute; reflexivity. Qed.

Lemma health_percent_spec_witness :
  (0 <= 1)%Z /\ (0 <= 0)%Z /\ (1 + 0 <= 3)%Z
  /\ (0 <= health_percent 3 1 0 <= 100)%Z
  /\ health_percent 3 1 0 = Qround_half_even (exact_health 3 1 0)
  /\ health_percent 3 1 0 = 83%Z.
Proof.
  assert (H1 : (0 <= 1)%Z) by lia.
  assert (H2 : (0 <= 0)%Z) by lia.
  assert (H3 : (1 + 0 <= 3)%Z) by lia.
  destruct (health_percent_spec 3 1 0 H1 H2 H3) as (_ & Hr & Hn).
  split; [exact H1|]. split; [exact H2|]. split; [exact H3|].
  split; [exact Hr|].
  destruct Hn as [_ He]; [vm_compute; split; [reflexivity | discriminate]|].
  split; [|vm_compute; reflexivity].
  apply He. intros k Hk.
  assert (E : (exact_health 3 1 0 == 250 # 3)%Q) by (vm_compute; reflexivity).
  rewrite E in Hk. unfold Qeq, Qplus, inject_Z in Hk. cbn in Hk. lia.
Defined.

(** The report also depends on the order in which the interpreter iterates
    the artwork set of a track: with a front and a back cover in the first
    track and the front cover alone in the second, one order finds the
    covers uniform and the other does not. *)
Lemma report_depends_on_set_iteration :
  get_output (py := ascii_python) "/music" (Some example_two_covers) false 5
             false true
  <> get_output (py := ascii_python_reversed) "/music"
                (Some example_two_covers) false 5 false true.
Proof. vm_compute. discriminate. Qed.

(** ** The model on a few inputs *)

Example path_examples :
  map (fun p => (path_name p, path_suffix p, path_parent p))
      ["/a/b/c.mp3"; "c.MP3"; "a//b/"; ".hidden"; "x."; "/top.flac";
       "//srv/x.ogg"; "///srv/x.ogg"]
  = [("c.mp3", ".mp3", "/a/b"); ("c.MP3", ".MP3", "."); ("b", EmptyString, "a");
     (".hidden", EmptyString, "."); ("x.", EmptyString, ".");
     ("top.flac", ".flac", "/"); ("x.ogg", ".ogg", "//srv");
     ("x.ogg", ".ogg", "/srv")].
Proof. reflexivity. Qed.

Example format_bytes_examples :
  map format_bytes [0; 1023; 1024; 1536; 123456789; 12345678901234567]
  = ["0.00 B"; "1023.00 B"; "1.00 KB"; "1.50 KB"; "117.74 MB"; "11228.33 TB"].
Proof. vm_compute. reflexivity. Qed.

Example format_duration_total_examples :
  map format_duration_total [59.4; 59.5; 3725; 90061; 9999999]%Q
  = ["59s"; "1m 0s"; "1h 2m 5s"; "1d 1h 1m"; "0mo 3d"].
Proof. vm_compute. reflexivity. Qed.

Example health_percent_examples :
  map (fun '(n, w, c) => health_percent n w c)
      [(0, 0, 0); (1, 1, 0); (1, 0, 1); (3, 1, 0); (4, 1, 1); (7, 2, 3)]
  = [100; 50; 0; 83; 62; 43].
Proof. vm_compute. reflexivity. Qed.

Example scan_example :
  scan_count_total_candidates (Some example_library) 1 = 5
  /\ map file_name
         (fst (scan_folder_for_audio_recursive "/music" (Some example_library)
                 1 false))
     = ["01.mp3"; "02.mp3"; "03.MP3"; "top.mp3"; "x.flac"].
Proof. split; vm_compute; reflexivity. Qed.

(** * Properties on ASCII text *)

Lemma ascii_lower_char_idempotent (a : ascii) :
  ascii_lower_char (ascii_lower_char a) = ascii_lower_char a.
Proof.
  destruct a as [[|] [|] [|] [|] [|] [|] [|] [|]]; vm_compute; reflexivity.
Qed.

Lemma ascii_lower_app (a b : string) :
  ascii_lower (a ++ b) = ascii_lower a ++ ascii_lower b.
Proof.
  induction a as [|x a IH]; [reflexivity|].
  change (String (ascii_lower_char x) (ascii_lower (a ++ b))
          = String (ascii_lower_char x) (ascii_lower a ++ ascii_lower b)).
  now rewrite IH.
Qed.

Lemma ascii_lower_chars (s : string) (a : ascii) :
  In a (list_ascii_of_string (ascii_lower s)) -> ascii_lower_char a = a.
Proof.
  induction s as [|x s IH]; cbn [ascii_lower list_ascii_of_string In];
    [intros []|].
  intros [<-|H]; [apply ascii_lower_char_idempotent | now apply IH].
Qed.

Lemma ascii_lower_fixed (s : string) :
  (forall a, In a (list_ascii_of_string s) -> ascii_lower_char a = a) ->
  ascii_lower s = s.
Proof.
  induction s as [|x s IH]; cbn [ascii_lower list_ascii_of_string In];
    intros H; [reflexivity|].
  rewrite (H x) by now left. f_equal. apply IH. intros a Ha. apply H.
  now right.
Qed.

Lemma ascii_lower_join (ws : list string) :
  (forall w, In w ws -> ascii_lower w = w) ->
  ascii_lower (join " " ws) = join " " ws.
Proof.
  unfold join. induction ws as [|w ws IH]; intros H; [reflexivity|].
  destruct ws as [|w2 ws]; [apply H; now left|].
  change (String.concat " " (w :: w2 :: ws))
    with (w ++ " " ++ String.concat " " (w2 :: ws)).
  rewrite !ascii_lower_app, (H w) by now left.
  rewrite IH by (intros w' Hw'; apply H; now right).
  reflexivity.
Qed.

(** X30.  On ASCII text [canonicalize_string] is idempotent: the canonical
    form of a canonical form is itself. *)
Theorem canonicalize_string_idempotent (value : option string) :
  canonicalize_string (Some (canonicalize_string value))
  = canonicalize_string value.
Proof.
  destruct value as [v|]; [|reflexivity].
  unfold canonicalize_string.
  set (ws := split_ws (lower (strip v))).
  assert (Hws : forall w,
             In w ws ->
             (w <> EmptyString
              /\ forall a, In a (list_ascii_of_string w) -> isspace a = false)
             /\ ascii_lower w = w).
  { intros w Hw.
    destruct (split_ws_from_words _ [] w
                (fun a (H : In a []) => match H with end) Hw) as [H1 H2].
    split; [split; [assumption|]|].
    - intros a Ha. now destruct (H2 a Ha).
    - apply ascii_lower_fixed. intros a Ha.
      destruct (H2 a Ha) as [_ [[]|Hin]].
      now apply (ascii_lower_chars (strip v)). }
  rewrite strip_join by (intros w Hw; now destruct (Hws w Hw)).
  change (lower (join " " ws)) with (ascii_lower (join " " ws)).
  rewrite ascii_lower_join by (intros w Hw; now destruct (Hws w Hw)).
  rewrite split_ws_join; [reflexivity | reflexivity |].
  intros w Hw. now destruct (Hws w Hw).
Qed.

(** ** More properties at the example data *)

Lemma canonicalize_string_normal_witness :
  let c := canonicalize_string (Some "  Hello   World ") in
  c = "hello world" /\ strip c = c /\ join " " (split_ws c) = c.
Proof.
  split; [reflexivity|].
  apply (canonicalize_string_normal "  Hello   World "). reflexivity.
Defined.

Lemma format_bytes_below_1024_witness : format_bytes 1023 = "1023.00 B".
Proof. rewrite format_bytes_below_1024 by lia. reflexivity. Defined.

Lemma format_duration_from_four_weeks_witness :
  format_duration_total 2592000 = "0mo 2d".
Proof.
  rewrite format_duration_from_four_weeks; [reflexivity|].
  vm_compute. discriminate.
Defined.

Lemma to_uniform_dict_tags_witness :
  let f := example_mp3 "aaaa" 181 "One" "A" "X" "1/3" [Some "p"] in
  tags (record_of ("/music/01.mp3", f)) !! "TIT2" = Some ["One"]
  /\ tags (record_of ("/music/01.mp3", f)) !! "TITLE" = None.
Proof.
  intros f.
  pose proof (fun k =>
                to_uniform_dict_tags "/music/01.mp3" f "MP3"
                  (example_info 181)
                  (ID3OfMP3 (example_frames "One" "A" "X" "1/3") [Some "p"]
                            (Some [2; 4; 0]))
                  (record_of ("/music/01.mp3", f)) k eq_refl eq_refl) as H.
  cbv beta iota in H. split; rewrite H; reflexivity.
Defined.

Lemma mp3_record_texts_witness :
  let f := example_mp3 "aaaa" 181 "One" "A" "X" "1/3" [Some "p"] in
  title (record_of ("/music/01.mp3", f)) = Some "One"
  /\ album (record_of ("/music/01.mp3", f)) = Some "A"
  /\ artist (record_of ("/music/01.mp3", f)) = Some "X".
Proof.
  intros f.
  exact (mp3_record_texts "/music/01.mp3" f "MP3" (example_info 181)
           (example_frames "One" "A" "X" "1/3") [Some "p"] (Some [2; 4; 0])
           (record_of ("/music/01.mp3", f)) eq_refl eq_refl).
Defined.

Lemma record_file_name_is_entry_name_witness :
  file_name
    (record_of (entry_path "/music/Album A" "01.mp3", example_text "zz"))
  = "01.mp3".
Proof. apply record_file_name_is_entry_name. reflexivity. Defined.

Lemma scan_results_are_candidates_witness :
  exists entries k dir es name f,
    Some example_library = Some entries
    /\ (k <= Z.to_nat 5)%nat
    /\ In (dir, es) (dirs_at k "/music" entries)
    /\ In (EFile name f) es
    /\ should_consider name = true
    /\ record_of ("/music/B/x.flac", example_corrupt "12345")
       = record_of (entry_path dir name, f).
Proof.
  apply (scan_results_are_candidates "/music" (Some example_library) 5 false).
  vm_compute. do 4 right. left. reflexivity.
Defined.

Lemma scan_one_level_deeper_witness :
  Permutation
    (fst (scan_folder_for_audio_recursive "/music" (Some example_library)
            (0 + 1) false))
    (List.app
       (fst (scan_folder_for_audio_recursive "/music" (Some example_library)
               0 false))
       (map record_of (candidates_at 1 "/music" example_library))).
Proof. apply (scan_one_level_deeper "/music" example_library 0 false). lia. Defined.

Lemma progress_writes_witness :
  snd (scan_folder_for_audio_recursive_io "/music/Album A"
         (Some example_album_entries) 5 false true)
  = [progress_text 3 0; progress_text 3 1; progress_text 3 2;
     progress_text 3 3; NL].
Proof.
  pose proof (progress_writes "/music/Album A" example_album_entries 5 false)
    as H.
  cbv zeta in H. rewrite H; reflexivity.
Defined.

Lemma progress_silent_witness :
  snd (scan_folder_for_audio_recursive_io "/music/Album A"
         (Some example_album_entries) 5 false false)
  = [].
Proof. apply progress_silent. now left. Defined.

Lemma progress_bar_cells_witness :
  String.length (progress_bar 3 1) = 40%nat
  /\ progress_bar 3 0 = repeat_char "." 40
  /\ progress_bar 3 3 = repeat_char "=" 40.
Proof. apply progress_bar_cells; lia. Defined.

Lemma one_directory_one_album_witness :
  let records :=
    map (fun c => record_of (entry_path "/music/Album A" (fst c), snd c))
        example_two_tracks in
  exists k, group_by_album records = [(k, records)].
Proof.
  apply (one_directory_one_album "/music/Album A" example_two_tracks).
  - discriminate.
  - intros c [<-|[<-|[]]]; split; reflexivity.
Defined.

Lemma group_by_album_partition_witness :
  List.NoDup (map fst (group_by_album example_album))
  /\ List.Forall (fun kv => snd kv <> []) (group_by_album example_album).
Proof.
  destruct (group_by_album_partition example_album) as (Hk & Hne & _).
  split; [exact Hk|]. apply List.Forall_forall. exact Hne.
Defined.

Lemma resolve_display_album_most_common_witness :
  let names := true_values album example_album in
  names <> []
  /\ (occurrences "B" names
      <= occurrences (resolve_display_album example_album) names)%nat.
Proof.
  intros names.
  assert (Hne : names <> []) by (vm_compute; discriminate).
  split; [exact Hne|].
  destruct (resolve_display_album_most_common example_album) as [_ H].
  exact (proj1 (H Hne) "B").
Defined.

Lemma no_cover_at_all_is_silent_witness :
  artwork_messages
    (map (fun c => record_of (entry_path "/music/Album A" (fst c), snd c))
         example_two_tracks)
  = [].
Proof.
  apply no_cover_at_all_is_silent.
  intros fi [<-|[<-|[]]]; reflexivity.
Defined.

Lemma report_counts_in_range_witness :
  let albums := ordered_albums (recognized example_album) in
  0 <= health_percent (Z.of_nat (List.length albums))
         (count_level WARN albums) (count_level CRIT albums)
    <= 100.
Proof.
  intros albums.
  destruct (report_counts_in_range example_album) as (_ & _ & _ & _ & H);
    [vm_compute; discriminate | exact H].
Defined.

Lemma main_never_overwrites_witness :
  output_exists example_world = false
  /\ In (WriteFile "/home/me/output.txt"
           (get_output "/music/Album A" (Some example_album_entries) false 5
                       false false))
        (fst (main example_args_to_file example_world)).
Proof.
  assert (H : In (WriteFile "/home/me/output.txt"
                    (get_output "/music/Album A" (Some example_album_entries)
                                false 5 false false))
                 (fst (main example_args_to_file example_world))).
  { vm_compute. right. left. reflexivity. }
  split; [|exact H].
  exact (proj1 (proj2 (main_never_overwrites _ _ _ _ H))).
Defined.

Lemma main_report_reaches_a_sink_witness :
  exists before,
    fst (main example_args example_world)
    = (before
       ++ [Stdout (get_output "/music/Album A" (Some example_album_entries)
                              false 5 false false)])%list.
Proof.
  destruct (main_report_reaches_a_sink example_args example_world eq_refl)
    as [[H _]|[[H _]|[_ H]]]; [discriminate | discriminate | exact H].
Defined.
